(** * Verification of three algorithmic kernels: tic-tac-toe minimax,
      pedigree inference (heredity) and PageRank.

    Each Python module of the repository is embedded as a Rocq module whose
    definitions follow the source function by function.  Python exceptions are
    modelled by the error monad [res]; Python floats are modelled by exact
    rationals ([Q]), so every numeric statement below is about the exact
    arithmetic value of the expressions the code evaluates.  The one
    exception is the module [HeredityFloat], which embeds [normalize] a second
    time with the rounding of binary64 arithmetic made explicit. *)

From Stdlib Require Import List ZArith QArith Qabs Qround Qpower Bool Lia Lqa
  String Permutation Arith.
Import ListNotations.

Set Implicit Arguments.
Close Scope Q_scope.

(* ================================================================= *)
(** ** Python exceptions and the error monad *)

Inductive exn : Type :=
| IndexError          (* list index out of range *)
| KeyError            (* missing dict key *)
| IllegalAction       (* Exception("Illegal aciton") raised by result *)
| UnboundLocalError   (* a local read before any assignment *)
| TypeError           (* arithmetic on None *)
| ZeroDivisionError
| ValueError          (* random.choices: total weight not positive *)
| RecursionError.     (* the model's recursion budget is exhausted *)

Inductive res (A : Type) : Type :=
| Ok (a : A)
| Raise (e : exn).

Arguments Ok {A} a.
Arguments Raise {A} e.

Definition bind {A B} (m : res A) (k : A -> res B) : res B :=
  match m with
  | Ok a => k a
  | Raise e => Raise e
  end.

Notation "x <- m ;; k" := (bind m (fun x => k))
  (at level 61, m at next level, right associativity).

(** A [for] loop whose body may raise: the accumulator is threaded from left
    to right and the first exception aborts the loop. *)
Fixpoint for_each {A S} (l : list A) (s : S) (body : S -> A -> res S) : res S :=
  match l with
  | [] => Ok s
  | x :: t => s' <- body s x ;; for_each t s' body
  end.

(** Python's [l[i]]: negative indices count from the end, anything else out of
    range raises [IndexError]. *)
Definition getitem {A} (l : list A) (i : Z) : res A :=
  let n := Z.of_nat (List.length l) in
  let k := if (i <? 0)%Z then (i + n)%Z else i in
  if ((0 <=? k) && (k <? n))%Z%bool then
    match nth_error l (Z.to_nat k) with
    | Some x => Ok x
    | None => Raise IndexError
    end
  else Raise IndexError.

Fixpoint replace_nth {A} (l : list A) (k : nat) (x : A) : list A :=
  match l, k with
  | [], _ => []
  | _ :: t, 0%nat => x :: t
  | y :: t, S k' => y :: replace_nth t k' x
  end.

(** Python's [l[i] = x] on a list value. *)
Definition setitem {A} (l : list A) (i : Z) (x : A) : res (list A) :=
  let n := Z.of_nat (List.length l) in
  let k := if (i <? 0)%Z then (i + n)%Z else i in
  if ((0 <=? k) && (k <? n))%Z%bool then Ok (replace_nth l (Z.to_nat k) x)
  else Raise IndexError.

(** [range(3)] *)
Definition range3 : list Z := [0; 1; 2]%Z.

(** A Python [dict] with string keys, kept in insertion order.  Assigning to
    an existing key keeps its position. *)
Definition dict (V : Type) : Type := list (string * V).

Definition keys {V} (d : dict V) : list string := map fst d.

Fixpoint dict_get {V} (d : dict V) (k : string) : option V :=
  match d with
  | [] => None
  | (k', v) :: t => if String.eqb k' k then Some v else dict_get t k
  end.

(** [d[k]] *)
Definition lookup {V} (d : dict V) (k : string) : res V :=
  match dict_get d k with
  | Some v => Ok v
  | None => Raise KeyError
  end.

(** [d[k] = v] *)
Fixpoint dict_set {V} (d : dict V) (k : string) (v : V) : dict V :=
  match d with
  | [] => [(k, v)]
  | (k', v') :: t =>
      if String.eqb k' k then (k', v) :: t else (k', v') :: dict_set t k v
  end.

(** [x in s] for a set of strings. *)
Definition in_set (x : string) (s : list string) : bool :=
  existsb (String.eqb x) s.

(** Float division: raises on a zero divisor. *)
Definition py_div (a b : Q) : res Q :=
  if Qeq_bool b 0 then Raise ZeroDivisionError else Ok (a / b)%Q.

Definition sumQ (l : list Q) : Q := fold_right Qplus 0%Q l.

(** A computation that returns without raising. *)
Definition succeeds {A} (m : res A) : Prop := exists a, m = Ok a.

(* ================================================================= *)
(** ** Project 0: tictactoe.py *)

Module TicTacToe.

Local Open Scope Z_scope.

Inductive mark : Type := X | O.

Definition cell : Type := option mark.
Definition EMPTY : cell := None.

Definition board : Type := list (list cell).
Definition action : Type := (Z * Z)%type.

Definition mark_eqb (a b : mark) : bool :=
  match a, b with
  | X, X | O, O => true
  | _, _ => false
  end.

Definition cell_is (c : cell) (m : mark) : bool :=
  match c with
  | Some m' => mark_eqb m' m
  | None => false
  end.

Definition is_empty (c : cell) : bool :=
  match c with
  | None => true
  | Some _ => false
  end.

(** [board[r][c]] *)
Definition at_ (b : board) (r c : Z) : res cell :=
  row <- getitem b r ;; getitem row c.

Definition initial_state : board :=
  [[EMPTY; EMPTY; EMPTY];
   [EMPTY; EMPTY; EMPTY];
   [EMPTY; EMPTY; EMPTY]].

(** The cells visited by [for r in range(3): for c in range(3)]. *)
Definition grid : list (Z * Z) :=
  flat_map (fun r => map (fun c => (r, c)) range3) range3.

Definition player (b : board) : res mark :=
  counts <- for_each grid (0%nat, 0%nat)
              (fun '(count_x, count_o) '(r, c) =>
                 x <- at_ b r c ;;
                 if cell_is x X then Ok (S count_x, count_o)
                 else if cell_is x O then Ok (count_x, S count_o)
                 else Ok (count_x, count_o)) ;;
  let '(count_x, count_o) := counts in
  if Nat.eqb count_x count_o then Ok X else Ok O.

(** The set built by [actions]; its elements are listed in insertion order. *)
Definition actions (b : board) : res (list action) :=
  for_each grid []
    (fun legal_actions '(row, cl) =>
       x <- at_ b row cl ;;
       if is_empty x then Ok (legal_actions ++ [(row, cl)]) else Ok legal_actions).

(** [copy.deepcopy] of a board value followed by the assignment
    [new_board[a0][a1] = v]. *)
Definition set_cell (b : board) (a : action) (v : cell) : res board :=
  row <- getitem b (fst a) ;;
  row' <- setitem row (snd a) v ;;
  setitem b (fst a) row'.

Definition result (b : board) (a : action) : res board :=
  x <- at_ b (fst a) (snd a) ;;
  if negb (is_empty x) then Raise IllegalAction
  else
    p <- player b ;;
    set_cell b a (Some p).

Definition all3 (b : board) (p : mark) (c1 c2 c3 : Z * Z) : res bool :=
  x1 <- at_ b (fst c1) (snd c1) ;;
  if cell_is x1 p then
    x2 <- at_ b (fst c2) (snd c2) ;;
    if cell_is x2 p then
      x3 <- at_ b (fst c3) (snd c3) ;;
      Ok (cell_is x3 p)
    else Ok false
  else Ok false.

(** A loop that returns from the enclosing function as soon as a test holds:
    [false] means the loop ran to its end. *)
Fixpoint first_hit {A} (l : list A) (test : A -> res bool) : res bool :=
  match l with
  | [] => Ok false
  | x :: t => h <- test x ;; if h then Ok true else first_hit t test
  end.

Definition wins (b : board) (cur_player : mark) : res bool :=
  r <- first_hit range3 (fun i => all3 b cur_player (i, 0) (i, 1) (i, 2))%Z ;;
  if r then Ok true else
  c <- first_hit range3 (fun i => all3 b cur_player (0, i) (1, i) (2, i))%Z ;;
  if c then Ok true else
  d1 <- all3 b cur_player (0, 0) (1, 1) (2, 2)%Z ;;
  if d1 then Ok true else
  all3 b cur_player (0, 2) (1, 1) (2, 0)%Z.

Definition winner (b : board) : res (option mark) :=
  o <- wins b O ;;
  if o then Ok (Some O) else
  x <- wins b X ;;
  if x then Ok (Some X) else Ok None.

(** The [break] only leaves the inner loop, but [end] is never set back to
    [True], so the flag is [False] exactly when some visited cell is empty.
    The inner loop stops at the first empty cell of a row. *)
Fixpoint row_scan (b : board) (r : Z) (cs : list Z) (end_ : bool) : res bool :=
  match cs with
  | [] => Ok end_
  | c :: t => x <- at_ b r c ;; if is_empty x then Ok false else row_scan b r t end_
  end.

Definition terminal (b : board) : res bool :=
  w <- winner b ;;
  match w with
  | Some _ => Ok true
  | None => for_each range3 true (fun end_ r => row_scan b r range3 end_)
  end.

Definition utility (b : board) : res Z :=
  w <- winner b ;;
  match w with
  | Some X => Ok 1%Z
  | Some O => Ok (-1)%Z
  | None => Ok 0%Z
  end.

(** Values compared by the search: integers together with [math.inf] and
    [-math.inf]. *)
Inductive ext : Type := NegInf | Fin (z : Z) | PosInf.

Definition ext_ltb (a b : ext) : bool :=
  match a, b with
  | NegInf, NegInf => false
  | NegInf, _ => true
  | Fin _, NegInf => false
  | Fin x, Fin y => (x <? y)%Z
  | Fin _, PosInf => true
  | PosInf, _ => false
  end.

(** Python's two-argument [max] and [min] keep the first argument unless the
    second is strictly better. *)
Definition ext_max (a b : ext) : ext := if ext_ltb a b then b else a.
Definition ext_min (a b : ext) : ext := if ext_ltb b a then b else a.

Section Search.

(** The order in which a Python set of actions is iterated. *)
Variable set_order : list action -> list action.

Fixpoint max_value (fuel : nat) (b : board) : res ext :=
  match fuel with
  | 0%nat => Raise RecursionError
  | S fuel' =>
      t <- terminal b ;;
      if t then u <- utility b ;; Ok (Fin u)
      else
        acts <- actions b ;;
        for_each (set_order acts) NegInf
          (fun v a =>
             b' <- result b a ;;
             x <- min_value fuel' b' ;;
             Ok (ext_max v x))
  end
with min_value (fuel : nat) (b : board) : res ext :=
  match fuel with
  | 0%nat => Raise RecursionError
  | S fuel' =>
      t <- terminal b ;;
      if t then u <- utility b ;; Ok (Fin u)
      else
        acts <- actions b ;;
        for_each (set_order acts) PosInf
          (fun v a =>
             b' <- result b a ;;
             x <- max_value fuel' b' ;;
             Ok (ext_min v x))
  end.

(** [minimax] returns [None] on a terminal board; [optimal_move] is unbound
    until some action improves on the initial bound. *)
Definition minimax (fuel : nat) (b : board) : res (option action) :=
  t <- terminal b ;;
  if t then Ok None
  else
    cur_player <- player b ;;
    acts <- actions b ;;
    match cur_player with
    | X =>
        st <- for_each (set_order acts) (NegInf, None)
                (fun '(v, optimal_move) a =>
                   b' <- result b a ;;
                   max_v <- min_value fuel b' ;;
                   if ext_ltb v max_v then Ok (max_v, Some a)
                   else Ok (v, optimal_move)) ;;
        match snd st with
        | Some a => Ok (Some a)
        | None => Raise UnboundLocalError
        end
    | O =>
        st <- for_each (set_order acts) (PosInf, None)
                (fun '(v, optimal_move) a =>
                   b' <- result b a ;;
                   min_v <- max_value fuel b' ;;
                   if ext_ltb min_v v then Ok (min_v, Some a)
                   else Ok (v, optimal_move)) ;;
        match snd st with
        | Some a => Ok (Some a)
        | None => Raise UnboundLocalError
        end
    end.

(** Both sides repeatedly apply the action returned by [minimax] until the
    board is terminal; [moves] bounds the number of moves played. *)
Fixpoint self_play (fuel : nat) (moves : nat) (b : board) : res board :=
  t <- terminal b ;;
  if t then Ok b
  else
    match moves with
    | 0%nat => Raise RecursionError
    | S moves' =>
        m <- minimax fuel b ;;
        match m with
        | None => Raise TypeError
        | Some a => b' <- result b a ;; self_play fuel moves' b'
        end
    end.

End Search.

(** *** Bound certificates for the search

    [max_ge n b z] checks that the maximiser can force a value of at least
    [z] from [b]; the three others are the symmetric tests.  They visit the
    actions in insertion order and stop at the first witness. *)

Definition child_test (b : board) (a : action) (k : board -> bool) : bool :=
  match result b a with
  | Ok b' => k b'
  | Raise _ => false
  end.

Definition node_test (b : board) (leaf : Z -> bool)
    (inner : list action -> bool) : bool :=
  match terminal b with
  | Ok true => match utility b with Ok u => leaf u | Raise _ => false end
  | Ok false => match actions b with Ok acts => inner acts | Raise _ => false end
  | Raise _ => false
  end.

(** Short-circuit quantifiers over a list: the test of an element is only
    evaluated when the earlier elements did not decide the answer. *)
Fixpoint some_of {A} (l : list A) (f : A -> bool) : bool :=
  match l with
  | [] => false
  | x :: t => if f x then true else some_of t f
  end.

Fixpoint each_of {A} (l : list A) (f : A -> bool) : bool :=
  match l with
  | [] => true
  | x :: t => if f x then each_of t f else false
  end.

Fixpoint max_ge (n : nat) (b : board) (z : Z) : bool :=
  match n with
  | 0%nat => false
  | S n' => node_test b (fun u => z <=? u)
              (fun acts => some_of acts (fun a => child_test b a (fun b' => min_ge n' b' z)))
  end
with min_ge (n : nat) (b : board) (z : Z) : bool :=
  match n with
  | 0%nat => false
  | S n' => node_test b (fun u => z <=? u)
              (fun acts => each_of acts (fun a => child_test b a (fun b' => max_ge n' b' z)))
  end.

Fixpoint max_le (n : nat) (b : board) (z : Z) : bool :=
  match n with
  | 0%nat => false
  | S n' => node_test b (fun u => u <=? z)
              (fun acts => each_of acts (fun a => child_test b a (fun b' => min_le n' b' z)))
  end
with min_le (n : nat) (b : board) (z : Z) : bool :=
  match n with
  | 0%nat => false
  | S n' => node_test b (fun u => u <=? z)
              (fun acts => some_of acts (fun a => child_test b a (fun b' => max_le n' b' z)))
  end.

(** *** Reading a well-formed board *)

Definition wf_board (b : board) : Prop :=
  List.length b = 3%nat /\ Forall (fun row => List.length row = 3%nat) b.

Definition cell_of (b : board) (a : action) : cell :=
  nth (Z.to_nat (snd a)) (nth (Z.to_nat (fst a)) b []) None.

Definition count_cells (p : cell -> bool) (b : board) : nat :=
  List.length (filter p (List.concat b)).

(** Number of cells holding mark [m], and number of empty cells. *)
Definition count (m : mark) (b : board) : nat :=
  count_cells (fun c => cell_is c m) b.

Definition empties (b : board) : nat := count_cells is_empty b.

Definition other (m : mark) : mark :=
  match m with X => O | O => X end.

(** Boards reachable from [initial_state()] by successful calls of
    [result]. *)
Inductive reachable : board -> Prop :=
| reach_init : reachable initial_state
| reach_step b a b' : reachable b -> result b a = Ok b' -> reachable b'.

(** *** Auxiliary definitions used by the statements and proofs *)

(** The loop body of [player]. *)
Definition player_body (b : board) :=
  fun '(count_x, count_o) '(r, c) =>
    x <- at_ b r c ;;
    if cell_is x X then Ok (S count_x, count_o)
    else if cell_is x O then Ok (count_x, S count_o)
    else Ok (count_x, count_o).

(** The order on search values. *)
Definition ext_le (a b : ext) : Prop := ext_ltb b a = false.

(** The mark counts of a board are balanced when X leads by zero or one. *)
Definition balanced (b : board) : Prop :=
  count X b = count O b \/ count X b = S (count O b).

(** The comparison made by the minimiser, and its order. *)
Definition min_better : ext -> ext -> bool := fun v x => ext_ltb x v.

Definition ext_ge (a b : ext) : Prop := ext_le b a.

(** The loop body of [max_value] and [min_value]. *)
Definition fold_body {A B} (r : A -> res B) (better : ext -> ext -> bool)
    (h : B -> res ext) : ext -> A -> res ext :=
  fun v a => b' <- r a ;; x <- h b' ;; Ok (if better v x then x else v).

(** The loop body of [minimax], which also remembers the action. *)
Definition arg_body {A B} (r : A -> res B) (better : ext -> ext -> bool)
    (h : B -> res ext) : ext * option A -> A -> res (ext * option A) :=
  fun '(v, optimal_move) a =>
    b' <- r a ;; x <- h b' ;;
    if better v x then Ok (x, Some a) else Ok (v, optimal_move).

(** The value of a board for the side to move. *)
Definition value_at (so : list action -> list action) (turn : mark) (k : nat)
    (b : board) : res ext :=
  match turn with
  | X => max_value so k b
  | O => min_value so k b
  end.

(** *** The lines of the board

    The eight triples of cells tested by [winner], in the order of the
    source: the rows, the columns, then the two diagonals. *)
Definition lines : list ((Z * Z) * (Z * Z) * (Z * Z)) :=
  [((0, 0), (0, 1), (0, 2)); ((1, 0), (1, 1), (1, 2)); ((2, 0), (2, 1), (2, 2));
   ((0, 0), (1, 0), (2, 0)); ((0, 1), (1, 1), (2, 1)); ((0, 2), (1, 2), (2, 2));
   ((0, 0), (1, 1), (2, 2)); ((0, 2), (1, 1), (2, 0))].

(** Some line holds three marks of [p]. *)
Definition has_line (b : board) (p : mark) : bool :=
  existsb (fun '(c1, c2, c3) =>
             cell_is (cell_of b c1) p && cell_is (cell_of b c2) p
             && cell_is (cell_of b c3) p) lines.

End TicTacToe.

(* ================================================================= *)
(** ** tictactoe.py on the Python heap

    A board is a list object holding references to three row objects, and
    [result] works on a [copy.deepcopy] of its argument.  This module models
    the object store, so that "the input board is left unmodified" can be
    stated: addresses are positions in the store and allocation appends. *)

Module TicTacToeHeap.

Import TicTacToe.

Definition loc : Type := nat.

Inductive obj : Type :=
| Row (cells : list cell)    (* a list of cell values *)
| Grid (rows : list loc).    (* a list of references to rows *)

Definition heap : Type := list obj.

Definition hget (h : heap) (l : loc) : res obj :=
  match nth_error h l with
  | Some o => Ok o
  | None => Raise TypeError
  end.

Definition hset (h : heap) (l : loc) (o : obj) : heap := replace_nth h l o.

Definition alloc (h : heap) (o : obj) : heap * loc := (h ++ [o], List.length h).

Definition get_rows (h : heap) (l : loc) : res (list loc) :=
  o <- hget h l ;;
  match o with
  | Grid rows => Ok rows
  | Row _ => Raise TypeError
  end.

Definition get_cells (h : heap) (l : loc) : res (list cell) :=
  o <- hget h l ;;
  match o with
  | Row cells => Ok cells
  | Grid _ => Raise TypeError
  end.

(** [board[r][c]] *)
Definition at_ (h : heap) (bd : loc) (r c : Z) : res cell :=
  rows <- get_rows h bd ;;
  rl <- getitem rows r ;;
  cells <- get_cells h rl ;;
  getitem cells c.

(** The value of the board stored at [bd]. *)
Definition load (h : heap) (bd : loc) : res board :=
  rows <- get_rows h bd ;;
  for_each rows [] (fun acc rl => cells <- get_cells h rl ;; Ok (acc ++ [cells])).

Fixpoint memo_find (memo : list (loc * loc)) (l : loc) : option loc :=
  match memo with
  | [] => None
  | (old, new) :: t => if Nat.eqb old l then Some new else memo_find t l
  end.

(** [copy.deepcopy(board)]: every row object is copied once (the memo keeps
    a row that occurs twice shared in the copy), the cells are immutable and
    are not copied, and a new outer list refers to the copies. *)
Definition deepcopy (h : heap) (bd : loc) : res (heap * loc) :=
  rows <- get_rows h bd ;;
  st <- for_each rows (h, [], [])
          (fun '(h1, memo, new_rows) rl =>
             match memo_find memo rl with
             | Some rl' => Ok (h1, memo, new_rows ++ [rl'])
             | None =>
                 cells <- get_cells h1 rl ;;
                 let '(h2, rl') := alloc h1 (Row cells) in
                 Ok (h2, (rl, rl') :: memo, new_rows ++ [rl'])
             end) ;;
  let '(h1, _, new_rows) := st in
  Ok (alloc h1 (Grid new_rows)).

(** [player] only reads its argument. *)
Definition player (h : heap) (bd : loc) : res mark :=
  b <- load h bd ;; TicTacToe.player b.

Definition result (h : heap) (bd : loc) (a : action) : res (heap * loc) :=
  x <- at_ h bd (fst a) (snd a) ;;
  if negb (is_empty x) then Raise IllegalAction
  else
    st <- deepcopy h bd ;;
    let '(h1, new_board) := st in
    p <- player h1 bd ;;
    rows <- get_rows h1 new_board ;;
    rl <- getitem rows (fst a) ;;
    cells <- get_cells h1 rl ;;
    cells' <- setitem cells (snd a) (Some p) ;;
    Ok (hset h1 rl (Row cells'), new_board).

(** A stored board is well formed when it holds a 3x3 grid whose three rows
    are distinct objects. *)
Definition wf_stored (h : heap) (bd : loc) (b : board) : Prop :=
  load h bd = Ok b /\ wf_board b /\
  exists rows, get_rows h bd = Ok rows /\ NoDup rows.

(** What a call [result(board, (i, j))] must achieve, for the board value [b]
    stored at [bd] in the heap [h]. *)
Definition result_post (h : heap) (bd : loc) (b : board) (i j : Z) : Prop :=
  match cell_of b (i, j) with
  | Some _ => result h bd (i, j) = Raise IllegalAction
  | None =>
      exists h' new_board b' p,
        result h bd (i, j) = Ok (h', new_board) /\
        TicTacToe.player b = Ok p /\
        load h' new_board = Ok b' /\
        TicTacToe.result b (i, j) = Ok b' /\
        wf_board b' /\
        cell_of b' (i, j) = Some p /\
        (forall r c, (0 <= r < 3)%Z -> (0 <= c < 3)%Z -> (r, c) <> (i, j) ->
                     cell_of b' (r, c) = cell_of b (r, c)) /\
        new_board <> bd /\
        load h' bd = Ok b /\
        (forall l, (l < List.length h)%nat -> nth_error h' l = nth_error h l)
  end.

(** A heap holding one board: three rows at 0, 1, 2 and the grid at 3. *)
Definition sample_heap : heap :=
  [Row [Some X; None; None]; Row [None; None; None];
   Row [None; None; None]; Grid [0; 1; 2]].

End TicTacToeHeap.

(* ================================================================= *)
(** ** Project 2: heredity.py *)

Module Heredity.

Local Open Scope Q_scope.

Record person : Type := {
  name : string;
  mother : option string;
  father : option string;
  trait : option bool
}.

Definition population : Type := dict person.

(** [PROBS["gene"]], [PROBS["trait"]] and [PROBS["mutation"]] *)
Definition PROBS_gene (n : nat) : res Q :=
  match n with
  | 2%nat => Ok (1 # 100)
  | 1%nat => Ok (3 # 100)
  | 0%nat => Ok (96 # 100)
  | _ => Raise KeyError
  end.

Definition PROBS_trait (n : nat) (t : bool) : res Q :=
  match n, t with
  | 2%nat, true => Ok (65 # 100)
  | 2%nat, false => Ok (35 # 100)
  | 1%nat, true => Ok (56 # 100)
  | 1%nat, false => Ok (44 # 100)
  | 0%nat, true => Ok (1 # 100)
  | 0%nat, false => Ok (99 # 100)
  | _, _ => Raise KeyError
  end.

Definition PROBS_mutation : Q := 1 # 100.

(** A row of [csv.DictReader]: column name to field text.  The reader gives
    every row the columns of the header line, so a column is absent from a
    row only when the header lacks it; a row shorter than the header, whose
    missing fields the reader fills with [None], is not represented. *)
Definition csv_row : Type := dict string.

Definition or_None (s : string) : option string :=
  if String.eqb s EmptyString then None else Some s.

Definition load_data (rows : list csv_row) : res population :=
  for_each rows []
    (fun data row =>
       nm <- lookup row "name" ;;
       m <- lookup row "mother" ;;
       f <- lookup row "father" ;;
       t <- lookup row "trait" ;;
       Ok (dict_set data nm
             {| name := nm;
                mother := or_None m;
                father := or_None f;
                trait := if String.eqb t "1" then Some true
                         else if String.eqb t "0" then Some false
                         else None |})).

(** [itertools.combinations(l, r)] *)
Fixpoint combinations {A} (l : list A) (r : nat) : list (list A) :=
  match r with
  | 0%nat => [[]]
  | S r' =>
      match l with
      | [] => []
      | x :: t => map (cons x) (combinations t r') ++ combinations t (S r')
      end
  end.

Section SetOrder.

(** The order in which [list(s)] enumerates a set of names. *)
Variable set_list : list string -> list string.

Definition powerset (s : list string) : list (list string) :=
  let s := set_list s in
  flat_map (combinations s) (seq 0 (List.length s + 1)).

(** The argument is a name or [None] (an absent parent). *)
Definition person_num_of_genes (person : option string)
    (one_gene two_genes : list string) : nat :=
  match person with
  | Some p =>
      if in_set p one_gene then 1%nat
      else if in_set p two_genes then 2%nat
      else 0%nat
  | None => 0%nat
  end.

(** Falls off the end, returning [None], for any other count. *)
Definition parent_inherit_process (num_of_genes : nat) (is_inherited : bool)
  : option Q :=
  if Nat.eqb num_of_genes 0 then
    Some (if is_inherited then PROBS_mutation else 1 - PROBS_mutation)
  else if Nat.eqb num_of_genes 1 then Some (5 # 10)
  else if Nat.eqb num_of_genes 2 then
    Some (if is_inherited then 1 - PROBS_mutation else PROBS_mutation)
  else None.

(** Arithmetic on [None] raises [TypeError]. *)
Definition number (x : option Q) : res Q :=
  match x with
  | Some q => Ok q
  | None => Raise TypeError
  end.

Definition joint_probability (people : population)
    (one_gene two_genes have_trait : list string) : res Q :=
  for_each (keys people) 1
    (fun probability person =>
       let num_of_genes_person :=
         person_num_of_genes (Some person) one_gene two_genes in
       let has_trait := in_set person have_trait in
       entry <- lookup people person ;;
       match mother entry, father entry with
       | None, None =>
           g <- PROBS_gene num_of_genes_person ;;
           t <- PROBS_trait num_of_genes_person has_trait ;;
           Ok (probability * (g * t))
       | _, _ =>
           let num_of_genes_mother :=
             person_num_of_genes (mother entry) one_gene two_genes in
           let num_of_genes_father :=
             person_num_of_genes (father entry) one_gene two_genes in
           probability <-
             (if Nat.eqb num_of_genes_person 0 then
                a <- number (parent_inherit_process num_of_genes_mother false) ;;
                b <- number (parent_inherit_process num_of_genes_father false) ;;
                Ok (probability * (a * b))
              else if Nat.eqb num_of_genes_person 1 then
                a <- number (parent_inherit_process num_of_genes_mother false) ;;
                b <- number (parent_inherit_process num_of_genes_father true) ;;
                c <- number (parent_inherit_process num_of_genes_mother true) ;;
                d <- number (parent_inherit_process num_of_genes_father false) ;;
                Ok (probability * (a * b + c * d))
              else if Nat.eqb num_of_genes_person 2 then
                a <- number (parent_inherit_process num_of_genes_mother true) ;;
                b <- number (parent_inherit_process num_of_genes_father true) ;;
                Ok (probability * (a * b))
              else Ok probability) ;;
           t <- PROBS_trait num_of_genes_person has_trait ;;
           Ok (probability * t)
       end).

(** The two inner dicts kept for a person: ["gene"] with keys 2, 1, 0 and
    ["trait"] with keys [True], [False]. *)
Record distribution : Type := {
  gene2 : Q;
  gene1 : Q;
  gene0 : Q;
  trait_true : Q;
  trait_false : Q
}.

Definition get_gene (d : distribution) (n : nat) : res Q :=
  match n with
  | 0%nat => Ok (gene0 d)
  | 1%nat => Ok (gene1 d)
  | 2%nat => Ok (gene2 d)
  | _ => Raise KeyError
  end.

Definition set_gene (d : distribution) (n : nat) (v : Q) : res distribution :=
  match n with
  | 0%nat => Ok {| gene2 := gene2 d; gene1 := gene1 d; gene0 := v;
                   trait_true := trait_true d; trait_false := trait_false d |}
  | 1%nat => Ok {| gene2 := gene2 d; gene1 := v; gene0 := gene0 d;
                   trait_true := trait_true d; trait_false := trait_false d |}
  | 2%nat => Ok {| gene2 := v; gene1 := gene1 d; gene0 := gene0 d;
                   trait_true := trait_true d; trait_false := trait_false d |}
  | _ => Raise KeyError
  end.

Definition get_trait (d : distribution) (t : bool) : Q :=
  if t then trait_true d else trait_false d.

Definition set_trait (d : distribution) (t : bool) (v : Q) : distribution :=
  if t then {| gene2 := gene2 d; gene1 := gene1 d; gene0 := gene0 d;
               trait_true := v; trait_false := trait_false d |}
  else {| gene2 := gene2 d; gene1 := gene1 d; gene0 := gene0 d;
          trait_true := trait_true d; trait_false := v |}.

Definition accumulator : Type := dict distribution.

Definition update (probabilities : accumulator)
    (one_gene two_genes have_trait : list string) (p : Q) : res accumulator :=
  for_each (keys probabilities) probabilities
    (fun probabilities person =>
       let num_of_genes := person_num_of_genes (Some person) one_gene two_genes in
       let has_trait := in_set person have_trait in
       d <- lookup probabilities person ;;
       g <- get_gene d num_of_genes ;;
       d1 <- set_gene d num_of_genes (g + p) ;;
       let d2 := set_trait d1 has_trait (get_trait d1 has_trait + p) in
       Ok (dict_set probabilities person d2)).

Definition normalize (probabilities : accumulator) : res accumulator :=
  for_each (keys probabilities) probabilities
    (fun probabilities person =>
       d <- lookup probabilities person ;;
       g0 <- get_gene d 0 ;;
       g1 <- get_gene d 1 ;;
       g2 <- get_gene d 2 ;;
       let gene_probabilities_sum := 0 + g0 + g1 + g2 in
       gene_factor <- py_div 1 gene_probabilities_sum ;;
       g0 <- get_gene d 0 ;;
       d <- set_gene d 0 (gene_factor * g0) ;;
       g1 <- get_gene d 1 ;;
       d <- set_gene d 1 (gene_factor * g1) ;;
       g2 <- get_gene d 2 ;;
       d <- set_gene d 2 (gene_factor * g2) ;;
       let trait_probabilities_sum := 0 + get_trait d true + get_trait d false in
       trait_factor <- py_div 1 trait_probabilities_sum ;;
       let d := set_trait d true (trait_factor * get_trait d true) in
       let d := set_trait d false (trait_factor * get_trait d false) in
       Ok (dict_set probabilities person d)).

(** [any(... for person in names)] with a test that may raise. *)
Fixpoint any_of (l : list string) (test : string -> res bool) : res bool :=
  match l with
  | [] => Ok false
  | x :: t => h <- test x ;; if h then Ok true else any_of t test
  end.

Definition zero_distribution : distribution :=
  {| gene2 := 0; gene1 := 0; gene0 := 0; trait_true := 0; trait_false := 0 |}.

(** The enumeration loop of [main], up to the call of [normalize]. *)
Definition enumerate (people : population) : res accumulator :=
  let probabilities : accumulator :=
    map (fun person => (person, zero_distribution)) (keys people) in
  let names := keys people in
  for_each (powerset names) probabilities
    (fun probabilities have_trait =>
       fails_evidence <-
         any_of (set_list names)
           (fun person =>
              entry <- lookup people person ;;
              match trait entry with
              | Some t => Ok (negb (Bool.eqb t (in_set person have_trait)))
              | None => Ok false
              end) ;;
       if fails_evidence then Ok probabilities
       else
         for_each (powerset names) probabilities
           (fun probabilities one_gene =>
              for_each
                (powerset (filter (fun x => negb (in_set x one_gene)) names))
                probabilities
                (fun probabilities two_genes =>
                   p <- joint_probability people one_gene two_genes have_trait ;;
                   update probabilities one_gene two_genes have_trait p))).

(** [main] up to printing. *)
Definition posteriors (people : population) : res accumulator :=
  probabilities <- enumerate people ;;
  normalize probabilities.

End SetOrder.

(** *** The joint probability as the specification words it *)

Definition Prior (n : nat) : Q :=
  match n with
  | 0%nat => 96 # 100
  | 1%nat => 3 # 100
  | _ => 1 # 100
  end.

Definition Likelihood (t : bool) (n : nat) : Q :=
  match n, t with
  | 0%nat, true => 1 # 100
  | 0%nat, false => 99 # 100
  | 1%nat, true => 56 # 100
  | 1%nat, false => 44 # 100
  | _, true => 65 # 100
  | _, false => 35 # 100
  end.

(** Probability that a parent with [n] copies transmits the gene. *)
Definition transmit (n : nat) : Q :=
  match n with
  | 0%nat => PROBS_mutation
  | 1%nat => 1 # 2
  | _ => 1 - PROBS_mutation
  end.

(** The gene count an assignment gives to a person or to a parent reference;
    an absent parent is in neither set. *)
Definition geneCount (one_gene two_genes : list string) (p : option string) : nat :=
  match p with
  | Some x =>
      if in_set x two_genes then 2%nat
      else if in_set x one_gene then 1%nat
      else 0%nat
  | None => 0%nat
  end.

Definition transmission (child m f : nat) : Q :=
  match child with
  | 0%nat => (1 - transmit m) * (1 - transmit f)
  | 1%nat => (1 - transmit m) * transmit f + transmit m * (1 - transmit f)
  | _ => transmit m * transmit f
  end.

Definition contribution (one_gene two_genes have_trait : list string)
    (key : string) (entry : person) : Q :=
  let g := geneCount one_gene two_genes (Some key) in
  let t := in_set key have_trait in
  match mother entry, father entry with
  | None, None => Prior g * Likelihood t g
  | _, _ =>
      transmission g (geneCount one_gene two_genes (mother entry))
                     (geneCount one_gene two_genes (father entry))
      * Likelihood t g
  end.

Fixpoint productQ (l : list Q) : Q :=
  match l with
  | [] => 1
  | x :: t => x * productQ t
  end.

Definition joint_probability_spec (people : population)
    (one_gene two_genes have_trait : list string) : Q :=
  productQ (map (fun '(key, entry) =>
                   contribution one_gene two_genes have_trait key entry) people).

Definition disjoint (a b : list string) : Prop :=
  forall x, In x a -> In x b -> False.

Definition gene_sum (d : distribution) : Q := gene0 d + gene1 d + gene2 d.
Definition trait_sum (d : distribution) : Q := trait_true d + trait_false d.

(** *** Auxiliary definitions used by the statements and proofs *)

(** What [normalize] does to the distributions of one person. *)
Definition normalize_entry (d : distribution) : res distribution :=
  gene_factor <- py_div 1 (0 + gene0 d + gene1 d + gene2 d) ;;
  trait_factor <- py_div 1 (0 + trait_true d + trait_false d) ;;
  Ok {| gene2 := gene_factor * gene2 d;
        gene1 := gene_factor * gene1 d;
        gene0 := gene_factor * gene0 d;
        trait_true := trait_factor * trait_true d;
        trait_false := trait_factor * trait_false d |}.

(** An accumulator with one person. *)
Definition sample_accumulator : accumulator :=
  [("Harry"%string,
    {| gene2 := 1; gene1 := 2; gene0 := 1; trait_true := 1; trait_false := 3 |})].

(** The record [load_data] builds from a row that has the four columns. *)
Definition person_of_row (row : csv_row) : option person :=
  match dict_get row "name", dict_get row "mother",
        dict_get row "father", dict_get row "trait" with
  | Some nm, Some m, Some f, Some t =>
      Some {| name := nm;
              mother := or_None m;
              father := or_None f;
              trait := if String.eqb t "1" then Some true
                       else if String.eqb t "0" then Some false
                       else None |}
  | _, _, _, _ => None
  end.

(** The row has the four columns. *)
Definition complete (row : csv_row) : Prop :=
  exists p, person_of_row row = Some p.

(** The record of the last row named [n]. *)
Fixpoint entry_for (n : string) (rows : list csv_row) : option person :=
  match rows with
  | [] => None
  | row :: t =>
      match entry_for n t with
      | Some e => Some e
      | None =>
          match person_of_row row with
          | Some p => if String.eqb (name p) n then Some p else None
          | None => None
          end
      end
  end.

(** A parent field that names nobody in the file, or exactly one parent
    field set. *)
Definition bad_parents (rows : list csv_row) : Prop :=
  exists row p, In row rows /\ person_of_row row = Some p /\
    ((exists m, (mother p = Some m \/ father p = Some m) /\
                forall row' p', In row' rows -> person_of_row row' = Some p' ->
                                name p' <> m)
     \/ (mother p = None /\ father p <> None)
     \/ (mother p <> None /\ father p = None)).

(** One row: Harry, whose mother Lily is not in the file and whose father is
    blank. *)
Definition dangling_rows : list csv_row :=
  [[("name", "Harry"); ("mother", "Lily"); ("father", EmptyString);
    ("trait", EmptyString)]]%string.

(** The value stored under a name in a population. *)
Definition person_record : Type := person.

(** The body of the loop of [joint_probability], for the entry of a person. *)
Definition jp_step (one_gene two_genes have_trait : list string)
    (probability : Q) (person : string) (entry : person_record) : res Q :=
  let num_of_genes_person :=
    person_num_of_genes (Some person) one_gene two_genes in
  let has_trait := in_set person have_trait in
  match mother entry, father entry with
  | None, None =>
      g <- PROBS_gene num_of_genes_person ;;
      t <- PROBS_trait num_of_genes_person has_trait ;;
      Ok (probability * (g * t))
  | _, _ =>
      let num_of_genes_mother :=
        person_num_of_genes (mother entry) one_gene two_genes in
      let num_of_genes_father :=
        person_num_of_genes (father entry) one_gene two_genes in
      probability <-
        (if Nat.eqb num_of_genes_person 0 then
           a <- number (parent_inherit_process num_of_genes_mother false) ;;
           b <- number (parent_inherit_process num_of_genes_father false) ;;
           Ok (probability * (a * b))
         else if Nat.eqb num_of_genes_person 1 then
           a <- number (parent_inherit_process num_of_genes_mother false) ;;
           b <- number (parent_inherit_process num_of_genes_father true) ;;
           c <- number (parent_inherit_process num_of_genes_mother true) ;;
           d <- number (parent_inherit_process num_of_genes_father false) ;;
           Ok (probability * (a * b + c * d))
         else if Nat.eqb num_of_genes_person 2 then
           a <- number (parent_inherit_process num_of_genes_mother true) ;;
           b <- number (parent_inherit_process num_of_genes_father true) ;;
           Ok (probability * (a * b))
         else Ok probability) ;;
      t <- PROBS_trait num_of_genes_person has_trait ;;
      Ok (probability * t)
  end.

(** Harry with his parents James and Lily. *)
Definition sample_family : population :=
  [("Harry", {| name := "Harry"; mother := Some "Lily"; father := Some "James";
                trait := None |});
   ("James", {| name := "James"; mother := None; father := None;
                trait := Some true |});
   ("Lily", {| name := "Lily"; mother := None; father := None;
               trait := Some false |})]%string.

(** What [update] does to the distributions of one person. *)
Definition update_entry (one_gene two_genes have_trait : list string) (p : Q)
    (person : string) (d : distribution) : res distribution :=
  let num_of_genes := person_num_of_genes (Some person) one_gene two_genes in
  let has_trait := in_set person have_trait in
  g <- get_gene d num_of_genes ;;
  d1 <- set_gene d num_of_genes (g + p) ;;
  Ok (set_trait d1 has_trait (get_trait d1 has_trait + p)).

(** All distributions of the accumulator sum to [s]. *)
Definition balanced_at (s : Q) (acc : accumulator) : Prop :=
  forall k d, In (k, d) acc -> gene_sum d == s /\ trait_sum d == s.

(** The loop states: every distribution sums to a common non-negative
    (respectively positive) total. *)
Definition nonneg_state (ks : list string) (acc : accumulator) : Prop :=
  keys acc = ks /\ exists s, 0 <= s /\ balanced_at s acc.

Definition pos_state (ks : list string) (acc : accumulator) : Prop :=
  keys acc = ks /\ exists s, 0 < s /\ balanced_at s acc.

(** The evidence test of [main]. *)
Definition evidence_test (people : population) (have_trait : list string) (person : string) : res bool :=
  entry <- lookup people person ;;
  match trait entry with
  | Some t => Ok (negb (Bool.eqb t (in_set person have_trait)))
  | None => Ok false
  end.

(** The people whose trait is known to be present. *)
Definition known_true (people : population) (k : string) : bool :=
  match dict_get people k with
  | Some e => match trait e with Some true => true | _ => false end
  | None => false
  end.

(** Number of combinations of every size up to [n]. *)
Definition count_upto {A} (l : list A) (n : nat) : nat :=
  list_sum (map (fun r => List.length (combinations l r)) (seq 0%nat (S n))).

(** The five values kept for a person are non-negative. *)
Definition nonneg_entry (d : distribution) : Prop :=
  0 <= gene0 d /\ 0 <= gene1 d /\ 0 <= gene2 d /\
  0 <= trait_true d /\ 0 <= trait_false d.

(** The sets of names that agree with the recorded traits. *)
Definition agrees (people : population) (have_trait : list string) : Prop :=
  forall k e t, dict_get people k = Some e -> trait e = Some t ->
                in_set k have_trait = t.

(** The accumulator has the people of the population, its values are
    non-negative, and nothing was added for the value that contradicts a
    recorded trait. *)
Definition sound_state (people : population) (acc : accumulator) : Prop :=
  keys acc = keys people /\
  (forall k d, In (k, d) acc -> nonneg_entry d) /\
  (forall k d e t, In (k, d) acc -> dict_get people k = Some e ->
                   trait e = Some t -> get_trait d (negb t) == 0).

End Heredity.

(* ================================================================= *)
(** ** Project 2: pagerank.py *)

Module PageRank.

Local Open Scope Q_scope.

(** A corpus maps every page to the set of pages it links to. *)
Definition corpus : Type := dict (list string).

(** [len(x)] as a number. *)
Definition len {A} (l : list A) : Q := inject_Z (Z.of_nat (List.length l)).

Definition DAMPING : Q := 85 # 100.

Definition transition_model (c : corpus) (page : string) (damping_factor : Q)
  : res (dict Q) :=
  links <- lookup c page ;;
  let num_of_links_from_page := List.length links in
  let num_of_pages := len c in
  if Nat.eqb num_of_links_from_page 0 then
    for_each (keys c) []
      (fun result_dict key =>
         v <- py_div 1 num_of_pages ;;
         Ok (dict_set result_dict key v))
  else
    u <- py_div 1 num_of_pages ;;
    let unlinked_page_probability := (1 - damping_factor) * u in
    l <- py_div 1 (len links) ;;
    let linked_page_probability := damping_factor * l + unlinked_page_probability in
    for_each (keys c) []
      (fun result_dict temp_page =>
         links <- lookup c page ;;
         if in_set temp_page links
         then Ok (dict_set result_dict temp_page linked_page_probability)
         else Ok (dict_set result_dict temp_page unlinked_page_probability)).

(** *** Random draws

    The generator is a stream of uniform variates in [0, 1); the [k]-th call
    of the walk consumes [rng k]. *)

(** [random.choice(seq)] *)
Definition random_choice {A} (u : Q) (l : list A) : res A :=
  match l with
  | [] => Raise IndexError
  | _ => getitem l (Qfloor (u * len l))
  end.

(** [itertools.accumulate(weights)] *)
Fixpoint accumulate (acc : Q) (weights : list Q) : list Q :=
  match weights with
  | [] => []
  | w :: t => (acc + w) :: accumulate (acc + w) t
  end.

(** [bisect(cum_weights, x, 0, hi)] on a non-decreasing list: the first
    position below [hi] whose entry exceeds [x], else [hi]. *)
Fixpoint bisect (cum : list Q) (x : Q) (hi : nat) : nat :=
  match hi, cum with
  | S hi', c :: t => if Qle_bool c x then S (bisect t x hi') else 0%nat
  | _, _ => 0%nat
  end.

(** [random.choices(population, weights)[0]] *)
Definition random_choices {A} (u : Q) (population : list A) (weights : list Q)
  : res A :=
  let cum_weights := accumulate 0 weights in
  if negb (Nat.eqb (List.length cum_weights) (List.length population))
  then Raise ValueError
  else
    total <- getitem cum_weights (-1) ;;
    if Qle_bool total 0 then Raise ValueError
    else
      getitem population
        (Z.of_nat (bisect cum_weights (u * total) (List.length population - 1))).

(** [result_dict.get(k, 0)] *)
Definition get_default (d : dict Q) (k : string) (default : Q) : Q :=
  match dict_get d k with
  | Some v => v
  | None => default
  end.

Definition sample_pagerank (rng : nat -> Q) (c : corpus) (damping_factor : Q)
    (n : Z) : res (dict Q) :=
  let pages := keys c in
  init_page <- random_choice (rng 0%nat) pages ;;
  v <- py_div 1 (inject_Z n) ;;
  let result_dict := dict_set [] init_page v in
  st <- for_each (seq 0 (Z.to_nat (n - 1))) (result_dict, init_page)
          (fun '(result_dict, cur_page) i =>
             trans <- transition_model c cur_page damping_factor ;;
             cur_page <- random_choices (rng (S i)) (keys trans) (map snd trans) ;;
             v <- py_div 1 (inject_Z n) ;;
             Ok (dict_set result_dict cur_page
                   (get_default result_dict cur_page 0 + v), cur_page)) ;;
  Ok (fst st).

Definition margin : Q := 1 # 1000.

(** The inner loop over [src_page]. *)
Definition incoming (c : corpus) (pre_result_dict : dict Q) (dest_page : string)
  : res Q :=
  for_each (keys c) 0
    (fun updated_value src_page =>
       links <- lookup c src_page ;;
       if in_set dest_page links then
         r <- lookup pre_result_dict src_page ;;
         q <- py_div r (len links) ;;
         Ok (updated_value + q)
       else if Nat.eqb (List.length links) 0 then
         r <- lookup pre_result_dict src_page ;;
         q <- py_div r (len c) ;;
         Ok (updated_value + q)
       else Ok updated_value).

(** One pass of the [for dest_page in corpus] loop: the new ranks and the
    number of pages whose rank moved by less than [margin]. *)
Definition sweep (c : corpus) (damping_factor : Q)
    (pre_result_dict cur_result_dict : dict Q) : res (dict Q * nat) :=
  for_each (keys c) (cur_result_dict, 0%nat)
    (fun '(cur_result_dict, num_converged) dest_page =>
       updated_value <- incoming c pre_result_dict dest_page ;;
       let updated_value := updated_value * damping_factor in
       q <- py_div (1 - damping_factor) (len c) ;;
       let updated_value := updated_value + q in
       let cur_result_dict := dict_set cur_result_dict dest_page updated_value in
       old <- lookup pre_result_dict dest_page ;;
       if negb (Qle_bool margin (Qabs (updated_value - old)))
       then Ok (cur_result_dict, S num_converged)
       else Ok (cur_result_dict, num_converged)).

(** The [while True] loop; [fuel] bounds the number of passes. *)
Fixpoint iterate_loop (fuel : nat) (c : corpus) (damping_factor : Q)
    (pre_result_dict cur_result_dict : dict Q) : res (dict Q) :=
  match fuel with
  | 0%nat => Raise RecursionError
  | S fuel' =>
      st <- sweep c damping_factor pre_result_dict cur_result_dict ;;
      let '(cur_result_dict, num_converged) := st in
      if Nat.eqb num_converged (List.length c) then Ok pre_result_dict
      else iterate_loop fuel' c damping_factor cur_result_dict cur_result_dict
  end.

Definition iterate_pagerank (fuel : nat) (c : corpus) (damping_factor : Q)
  : res (dict Q) :=
  pre_result_dict <-
    for_each (keys c) []
      (fun pre_result_dict page =>
         v <- py_div 1 (len c) ;;
         Ok (dict_set pre_result_dict page v)) ;;
  let cur_result_dict := pre_result_dict in
  iterate_loop fuel c damping_factor pre_result_dict cur_result_dict.

(** A corpus as [crawl] builds it: distinct pages, and every link set is
    duplicate free and points into the corpus. *)
Definition wf_corpus (c : corpus) : Prop :=
  NoDup (keys c) /\
  forall page links, In (page, links) c ->
    NoDup links /\ forall l, In l links -> In l (keys c).

(** Number of times [page] occurs in a list of visited pages. *)
Definition visits (page : string) (walk : list string) : nat :=
  List.length (filter (String.eqb page) walk).

(** The pages visited by the walk of [sample_pagerank], latest first. *)
Definition sample_walk (rng : nat -> Q) (c : corpus) (damping_factor : Q)
    (n : Z) : res (list string) :=
  init_page <- random_choice (rng 0%nat) (keys c) ;;
  v <- py_div 1 (inject_Z n) ;;
  st <- for_each (seq 0 (Z.to_nat (n - 1))) ([init_page], init_page)
          (fun '(walk, cur_page) i =>
             trans <- transition_model c cur_page damping_factor ;;
             cur_page <- random_choices (rng (S i)) (keys trans) (map snd trans) ;;
             v <- py_div 1 (inject_Z n) ;;
             Ok (cur_page :: walk, cur_page)) ;;
  Ok (fst st).

(** The entries of [ranks] are the visit counts of [walk] times [inc], and
    pages that were not visited have no entry. *)
Definition counts_walk (inc : Q) (ranks : dict Q) (walk : list string) : Prop :=
  forall p,
    match dict_get ranks p with
    | Some v => visits p walk <> 0%nat /\
                v == inject_Z (Z.of_nat (visits p walk)) * inc
    | None => visits p walk = 0%nat
    end.

(** *** Auxiliary definitions used by the statements and proofs *)

(** The value a rank dictionary gives to a page. *)
Definition val (d : dict Q) (k : string) : Q := get_default d k 0.

(** The distribution the specification describes for a page with link set
    [links]. *)
Definition transition_spec (c : corpus) (links : list string) (d : Q)
    (p : string) : Q :=
  match links with
  | [] => 1 / len c
  | _ => if in_set p links then d / len links + (1 - d) / len c
         else (1 - d) / len c
  end.

(** Two pages that link to each other. *)
Definition two_pages : corpus :=
  [("1.html", ["2.html"]); ("2.html", ["1.html"])]%string.

(** Share of the rank of a source page with link set [links] that flows to
    [dest]; a page without links flows uniformly to every page. *)
Definition weight (c : corpus) (links : list string) (dest : string) : Q :=
  if in_set dest links then 1 / len links
  else if Nat.eqb (List.length links) 0 then 1 / len c
  else 0.

(** Rank arriving at [dest] from all pages. *)
Definition flow (c : corpus) (x : string -> Q) (dest : string) : Q :=
  sumQ (map (fun e => x (fst e) * weight c (snd e) dest) c).

(** The new rank of [dest]. *)
Definition step (c : corpus) (d : Q) (x : string -> Q) (dest : string) : Q :=
  flow c x dest * d + (1 - d) / len c.

(** Sum of the ranks of all pages. *)
Definition total (c : corpus) (x : string -> Q) : Q := sumQ (map x (keys c)).

(** L1 distance between two rank assignments. *)
Definition dist1 (c : corpus) (x y : string -> Q) : Q :=
  sumQ (map (fun k => Qabs (x k - y k)) (keys c)).

(** The value [sweep] stores for [dest]. *)
Definition updated (c : corpus) (d : Q) (pre : dict Q) (dest : string) : Q :=
  match incoming c pre dest with
  | Ok v => v * d + (1 - d) / len c
  | Raise _ => 0
  end.

(** The convergence test of [sweep] for [dest]. *)
Definition converged (c : corpus) (d : Q) (pre : dict Q) (dest : string) : bool :=
  negb (Qle_bool margin (Qabs (updated c d pre dest - val pre dest))).

(** The dictionary after the assignments of [sweep] for the pages [ks]. *)
Definition set_all (c : corpus) (d : Q) (pre : dict Q) (ks : list string)
    (cur : dict Q) : dict Q :=
  fold_left (fun acc k => dict_set acc k (updated c d pre k)) ks cur.

(** The loop body of [sweep]. *)
Definition sweep_body (c : corpus) (d : Q) (pre : dict Q)
  : dict Q * nat -> string -> res (dict Q * nat) :=
  fun '(cur_result_dict, num_converged) dest_page =>
    updated_value <- incoming c pre dest_page ;;
    let updated_value := updated_value * d in
    q <- py_div (1 - d) (len c) ;;
    let updated_value := updated_value + q in
    let cur_result_dict := dict_set cur_result_dict dest_page updated_value in
    old <- lookup pre dest_page ;;
    if negb (Qle_bool margin (Qabs (updated_value - old)))
    then Ok (cur_result_dict, S num_converged)
    else Ok (cur_result_dict, num_converged).

(** [d] to the power [j]. *)
Fixpoint qpow (d : Q) (j : nat) : Q :=
  match j with
  | 0%nat => 1
  | S j' => d * qpow d j'
  end.

(** A rank dictionary over the pages of [c] that is a probability
    distribution. *)
Definition good (c : corpus) (r : dict Q) : Prop :=
  keys r = keys c /\
  (forall k, In k (keys c) -> 0 <= val r k) /\
  total c (val r) == 1.

(** How far the next sweep moves the ranks. *)
Definition movement (c : corpus) (d : Q) (pre : dict Q) : Q :=
  dist1 c (step c d (val pre)) (val pre).

(** *** [crawl]

    The directory and the files are not modelled: the argument gives, for
    every entry returned by [os.listdir], its name and the list that
    [re.findall] returns on the contents of the file. *)

(** [s.endswith(suffix)] *)
Definition endswith (s suffix : string) : bool :=
  let n := String.length s in
  let m := String.length suffix in
  Nat.leb m n && String.eqb (String.substring (n - m) m s) suffix.

(** [set(l)]: the distinct elements of [l]. *)
Definition set_of (l : list string) : list string := nodup string_dec l.

(** [s - {x}] *)
Definition set_remove (x : string) (s : list string) : list string :=
  filter (fun y => negb (String.eqb y x)) s.

Definition crawl (listing : list (string * list string)) : res corpus :=
  pages <-
    for_each listing []
      (fun pages '(filename, links) =>
         if negb (endswith filename ".html") then Ok pages
         else Ok (dict_set pages filename (set_remove filename (set_of links)))) ;;
  for_each (keys pages) pages
    (fun pages filename =>
       links <- lookup pages filename ;;
       Ok (dict_set pages filename
             (filter (fun link => in_set link (keys pages)) links))).

(** A directory with two pages that link to each other, a link to a page
    that does not exist, a link of a page to itself and a file that is not a
    page. *)
Definition sample_listing : list (string * list string) :=
  [("1.html", ["2.html"; "3.html"; "2.html"]); ("notes.txt", ["1.html"]);
   ("2.html", ["1.html"; "2.html"])]%string.

(** Two pages without links. *)
Definition isolated_pages : corpus := [("a", []); ("b", [])]%string.

(** The state of the walk of [sample_pagerank] after [j] samples: the
    current page is a page of the corpus, the entries are positive amounts
    on distinct pages of the corpus, and they add up to [j] increments. *)
Definition sample_state (c : corpus) (inc : Q) (ranks : dict Q) (cur : string)
    (j : nat) : Prop :=
  In cur (keys c) /\ NoDup (keys ranks) /\
  (forall p v, In (p, v) ranks -> In p (keys c) /\ 0 < v) /\
  sumQ (map snd ranks) == inject_Z (Z.of_nat j) * inc.

End PageRank.

(* ================================================================= *)
(** ** heredity.py in binary64

    Python's [float] is the IEEE 754 binary64 format.  A finite float is
    modelled by the rational it denotes, and every arithmetic operation
    returns the exact result rounded to the nearest binary64 number, ties to
    even, or an infinity when the rounded result is out of range.  Signed
    zeros are not distinguished. *)

Module HeredityFloat.

Local Open Scope Q_scope.

(** The largest [e] with [2 ^ e <= x], for a positive [x]. *)
Definition ilog2 (x : Q) : Z :=
  let e := (Z.log2 (Qnum x) - Z.log2 (Z.pos (Qden x)))%Z in
  if Qle_bool (2 ^ e) x then e else (e - 1)%Z.

(** The nearest integer, ties to even. *)
Definition rne (y : Q) : Z :=
  let f := Qfloor y in
  match Qcompare (y - inject_Z f) (1 # 2) with
  | Lt => f
  | Gt => (f + 1)%Z
  | Eq => if Z.even f then f else (f + 1)%Z
  end.

(** Rounding to 53 significant bits, with the spacing [2 ^ -1074] of the
    subnormal numbers as the finest one. *)
Definition round64 (x : Q) : Q :=
  if Qeq_bool x 0 then 0
  else
    let e := Z.max (ilog2 (Qabs x) - 52) (-1074) in
    inject_Z (rne (x / 2 ^ e)) * 2 ^ e.

Inductive float : Type :=
| Fnum (q : Q)          (* a finite number *)
| Finf (negative : bool)
| Fnan.

(** [sys.float_info.max] *)
Definition max_float : Q := (2 - 2 ^ (-52)) * 2 ^ 1023.

Definition is_negative (x : Q) : bool := negb (Qle_bool 0 x).

(** The float that an operation with exact result [x] returns. *)
Definition fl (x : Q) : float :=
  let r := round64 x in
  if Qle_bool (Qabs r) max_float then Fnum r else Finf (is_negative r).

(** [a + b] *)
Definition fadd (a b : float) : float :=
  match a, b with
  | Fnum x, Fnum y => fl (x + y)
  | Fnan, _ | _, Fnan => Fnan
  | Finf s, Finf t => if Bool.eqb s t then Finf s else Fnan
  | Finf s, Fnum _ | Fnum _, Finf s => Finf s
  end.

(** [a * b] *)
Definition fmul (a b : float) : float :=
  match a, b with
  | Fnum x, Fnum y => fl (x * y)
  | Fnan, _ | _, Fnan => Fnan
  | Finf s, Finf t => Finf (xorb s t)
  | Finf s, Fnum y | Fnum y, Finf s =>
      if Qeq_bool y 0 then Fnan else Finf (xorb s (is_negative y))
  end.

(** [a / b]: a zero divisor raises. *)
Definition fdiv (a b : float) : res float :=
  match a, b with
  | _, Fnum y =>
      if Qeq_bool y 0 then Raise ZeroDivisionError
      else
        match a with
        | Fnum x => Ok (fl (x / y))
        | Finf s => Ok (Finf (xorb s (is_negative y)))
        | Fnan => Ok Fnan
        end
  | Fnan, _ | _, Fnan => Ok Fnan
  | Finf _, Finf _ => Ok Fnan
  | Fnum _, Finf _ => Ok (Fnum 0)
  end.

(** The two inner dicts kept for a person, holding floats. *)
Record distribution : Type := {
  gene2 : float;
  gene1 : float;
  gene0 : float;
  trait_true : float;
  trait_false : float
}.

Definition get_gene (d : distribution) (n : nat) : res float :=
  match n with
  | 0%nat => Ok (gene0 d)
  | 1%nat => Ok (gene1 d)
  | 2%nat => Ok (gene2 d)
  | _ => Raise KeyError
  end.

Definition set_gene (d : distribution) (n : nat) (v : float) : res distribution :=
  match n with
  | 0%nat => Ok {| gene2 := gene2 d; gene1 := gene1 d; gene0 := v;
                   trait_true := trait_true d; trait_false := trait_false d |}
  | 1%nat => Ok {| gene2 := gene2 d; gene1 := v; gene0 := gene0 d;
                   trait_true := trait_true d; trait_false := trait_false d |}
  | 2%nat => Ok {| gene2 := v; gene1 := gene1 d; gene0 := gene0 d;
                   trait_true := trait_true d; trait_false := trait_false d |}
  | _ => Raise KeyError
  end.

Definition get_trait (d : distribution) (t : bool) : float :=
  if t then trait_true d else trait_false d.

Definition set_trait (d : distribution) (t : bool) (v : float) : distribution :=
  if t then {| gene2 := gene2 d; gene1 := gene1 d; gene0 := gene0 d;
               trait_true := v; trait_false := trait_false d |}
  else {| gene2 := gene2 d; gene1 := gene1 d; gene0 := gene0 d;
          trait_true := trait_true d; trait_false := v |}.

Definition accumulator : Type := dict distribution.

Definition normalize (probabilities : accumulator) : res accumulator :=
  for_each (keys probabilities) probabilities
    (fun probabilities person =>
       d <- lookup probabilities person ;;
       g0 <- get_gene d 0 ;;
       g1 <- get_gene d 1 ;;
       g2 <- get_gene d 2 ;;
       let gene_probabilities_sum := fadd (fadd (fadd (Fnum 0) g0) g1) g2 in
       gene_factor <- fdiv (Fnum 1) gene_probabilities_sum ;;
       g0 <- get_gene d 0 ;;
       d <- set_gene d 0 (fmul gene_factor g0) ;;
       g1 <- get_gene d 1 ;;
       d <- set_gene d 1 (fmul gene_factor g1) ;;
       g2 <- get_gene d 2 ;;
       d <- set_gene d 2 (fmul gene_factor g2) ;;
       let trait_probabilities_sum :=
         fadd (fadd (Fnum 0) (get_trait d true)) (get_trait d false) in
       trait_factor <- fdiv (Fnum 1) trait_probabilities_sum ;;
       let d := set_trait d true (fmul trait_factor (get_trait d true)) in
       let d := set_trait d false (fmul trait_factor (get_trait d false)) in
       Ok (dict_set probabilities person d)).

(** *** Auxiliary definitions used by the statements and proofs *)

(** What one pass of the loop of [normalize] does to the entry of a person. *)
Definition gene_sum (d : distribution) : float :=
  fadd (fadd (fadd (Fnum 0) (gene0 d)) (gene1 d)) (gene2 d).

Definition trait_sum (d : distribution) : float :=
  fadd (fadd (Fnum 0) (trait_true d)) (trait_false d).

Definition normalize_entry (d : distribution) : res distribution :=
  gene_factor <- fdiv (Fnum 1) (gene_sum d) ;;
  trait_factor <- fdiv (Fnum 1) (trait_sum d) ;;
  Ok {| gene2 := fmul gene_factor (gene2 d);
        gene1 := fmul gene_factor (gene1 d);
        gene0 := fmul gene_factor (gene0 d);
        trait_true := fmul trait_factor (trait_true d);
        trait_false := fmul trait_factor (trait_false d) |}.

(** The number a float denotes (0 for an infinity or a NaN). *)
Definition value (x : float) : Q :=
  match x with
  | Fnum q => q
  | _ => 0
  end.

Definition finite (x : float) : Prop := exists q, x = Fnum q.

(** The exact sums of the values of a distribution. *)
Definition gene_total (d : distribution) : Q :=
  value (gene0 d) + value (gene1 d) + value (gene2 d).

Definition trait_total (d : distribution) : Q :=
  value (trait_true d) + value (trait_false d).

(** Zero, or a positive number well inside the range of the normal floats. *)
Definition normal_number (q : Q) : Prop :=
  q == 0 \/ 2 ^ (-1021) <= q <= 2 ^ 1021.

(** Zero, or a positive number of moderate magnitude. *)
Definition moderate_number (q : Q) : Prop :=
  q == 0 \/ 2 ^ (-500) <= q <= 2 ^ 500.

Definition moderate_value (x : float) : Prop :=
  exists q, x = Fnum q /\ moderate_number q.

(** Non-negative finite values of moderate magnitude, not all zero. *)
Definition moderate (d : distribution) : Prop :=
  moderate_value (gene0 d) /\ moderate_value (gene1 d) /\
  moderate_value (gene2 d) /\ moderate_value (trait_true d) /\
  moderate_value (trait_false d) /\
  0 < gene_total d /\ 0 < trait_total d.

(** [x] is [y] up to a relative error of [2 ^ -50]. *)
Definition close (x y : Q) : Prop := Qabs (x - y) <= 2 ^ (-50) * y.

(** The float [x] is finite and within [2 ^ -49] of 1. *)
Definition nearly_one (x : float) : Prop :=
  exists s, x = Fnum s /\ Qabs (s - 1) <= 2 ^ (-49).

(** What [normalize] achieves for one person: [d] is the entry before and
    [d'] the entry after.  The values of [d'] are finite; their exact sums
    are 1 up to a relative error of [2 ^ -50], and so is every value compared
    with the original value divided by the original sum; adding the values
    of [d'] up in floating point, as [normalize] adds, gives a float within
    [2 ^ -49] of 1. *)
Definition normalized (d d' : distribution) : Prop :=
  finite (gene0 d') /\ finite (gene1 d') /\ finite (gene2 d') /\
  finite (trait_true d') /\ finite (trait_false d') /\
  close (gene_total d') 1 /\ close (trait_total d') 1 /\
  close (value (gene0 d')) (value (gene0 d) / gene_total d) /\
  close (value (gene1 d')) (value (gene1 d) / gene_total d) /\
  close (value (gene2 d')) (value (gene2 d) / gene_total d) /\
  close (value (trait_true d')) (value (trait_true d) / trait_total d) /\
  close (value (trait_false d')) (value (trait_false d) / trait_total d) /\
  nearly_one (gene_sum d') /\ nearly_one (trait_sum d').

(** The accumulator of one person with gene values 1, 1, 5. *)
Definition uneven_accumulator : accumulator :=
  [("Harry"%string,
    {| gene2 := Fnum 1; gene1 := Fnum 1; gene0 := Fnum 5;
       trait_true := Fnum 1; trait_false := Fnum 1 |})].

End HeredityFloat.

(* ================================================================= *)
(** * Properties *)

(** ** The error monad and loops *)

Lemma bind_Ok_inv {A B} (m : res A) (k : A -> res B) (b : B) :
  bind m k = Ok b -> exists a, m = Ok a /\ k a = Ok b.
Proof.
  destruct m as [a|e]; simpl; intros H; [exists a; auto | discriminate].
Qed.

Lemma for_each_app {A S} (l1 l2 : list A) (s : S) body :
  for_each (l1 ++ l2) s body = (s' <- for_each l1 s body ;; for_each l2 s' body).
Proof.
  revert s; induction l1 as [|x t IH]; intros s; simpl; [reflexivity|].
  destruct (body s x); simpl; auto.
Qed.

Lemma for_each_ext {A S} (l : list A) (s : S) body1 body2 :
  (forall s a, In a l -> body1 s a = body2 s a) ->
  for_each l s body1 = for_each l s body2.
Proof.
  revert s; induction l as [|x t IH]; intros s H; simpl; [reflexivity|].
  rewrite H by (left; reflexivity).
  destruct (body2 s x); simpl; auto.
  apply IH. intros; apply H; right; assumption.
Qed.

(** Decompose a hypothesis [bind m k = Ok b]. *)
Ltac inv_bind H :=
  let a := fresh "a" in
  let Ha := fresh "Ha" in
  apply bind_Ok_inv in H; destruct H as (a & Ha & H).

(** ** tictactoe.py *)

Module TicTacToeFacts.
Import TicTacToe.
Local Open Scope Z_scope.

Lemma wf_board_explicit (b : board) :
  wf_board b ->
  exists c00 c01 c02 c10 c11 c12 c20 c21 c22 : cell,
    b = [[c00; c01; c02]; [c10; c11; c12]; [c20; c21; c22]].
Proof.
  intros [Hl Hr].
  destruct b as [|r0 [|r1 [|r2 [|? ?]]]]; try discriminate.
  inversion Hr as [|? ? H0 Hr1]; subst.
  inversion Hr1 as [|? ? H1 Hr2]; subst.
  inversion Hr2 as [|? ? H2 _]; subst.
  destruct r0 as [|c00 [|c01 [|c02 [|? ?]]]]; try discriminate.
  destruct r1 as [|c10 [|c11 [|c12 [|? ?]]]]; try discriminate.
  destruct r2 as [|c20 [|c21 [|c22 [|? ?]]]]; try discriminate.
  repeat eexists.
Qed.

Lemma explicit_wf (c00 c01 c02 c10 c11 c12 c20 c21 c22 : cell) :
  wf_board [[c00; c01; c02]; [c10; c11; c12]; [c20; c21; c22]].
Proof. split; [reflexivity | repeat constructor]. Qed.

Ltac explicit_board b H :=
  let c00 := fresh "c00" in let c01 := fresh "c01" in let c02 := fresh "c02" in
  let c10 := fresh "c10" in let c11 := fresh "c11" in let c12 := fresh "c12" in
  let c20 := fresh "c20" in let c21 := fresh "c21" in let c22 := fresh "c22" in
  destruct (wf_board_explicit H)
    as (c00 & c01 & c02 & c10 & c11 & c12 & c20 & c21 & c22 & ->).

Lemma in_grid (a : action) :
  In a grid <->
  (0 <= fst a < 3 /\ 0 <= snd a < 3).
Proof.
  destruct a as [i j]; simpl. split.
  - intros H. repeat (destruct H as [H|H]; [inversion H; subst; lia|]). destruct H.
  - intros [Hi Hj].
    assert (i = 0 \/ i = 1 \/ i = 2) as Ei by lia.
    assert (j = 0 \/ j = 1 \/ j = 2) as Ej by lia.
    destruct Ei as [->|[->| ->]]; destruct Ej as [->|[->| ->]]; simpl; tauto.
Qed.

Lemma at_cell_of (b : board) (a : action) :
  wf_board b -> In a grid -> at_ b (fst a) (snd a) = Ok (cell_of b a).
Proof.
  intros Hwf Ha. explicit_board b Hwf.
  simpl in Ha.
  repeat (destruct Ha as [Ha|Ha]; [subst a; reflexivity|]). destruct Ha.
Qed.

Lemma cells_of_grid (b : board) :
  wf_board b -> map (cell_of b) grid = List.concat b.
Proof. intros Hwf. explicit_board b Hwf. reflexivity. Qed.

(** *** [player] counts the marks *)

Lemma player_loop (b : board) (l : list action) :
  (forall a, In a l -> at_ b (fst a) (snd a) = Ok (cell_of b a)) ->
  forall cx co : nat,
    for_each l (cx, co) (player_body b) =
    Ok ((cx + List.length (filter (fun c => cell_is c X) (map (cell_of b) l)))%nat,
        (co + List.length (filter (fun c => cell_is c O) (map (cell_of b) l)))%nat).
Proof.
  induction l as [|[r c] t IH]; intros Hat cx co.
  - simpl. do 2 f_equal; lia.
  - simpl. pose proof (Hat (r, c) (or_introl eq_refl)) as E. simpl in E.
    rewrite E. simpl.
    destruct (cell_of b (r, c)) as [[|]|]; simpl;
      (rewrite IH by (intros; apply Hat; right; assumption));
      do 2 f_equal; lia.
Qed.

Lemma player_spec (b : board) :
  wf_board b ->
  player b = Ok (if Nat.eqb (count X b) (count O b) then X else O).
Proof.
  intros Hwf. unfold player.
  change (fun '(count_x, count_o) '(r, c) => _) with (player_body b).
  rewrite player_loop by (intros; apply at_cell_of; assumption).
  rewrite cells_of_grid by assumption. simpl.
  unfold count, count_cells.
  destruct (Nat.eqb _ _); reflexivity.
Qed.

(** *** [actions] lists the empty cells *)

Lemma actions_loop (b : board) (l : list action) :
  (forall a, In a l -> at_ b (fst a) (snd a) = Ok (cell_of b a)) ->
  forall acc,
    for_each l acc
      (fun legal_actions '(row, cl) =>
         x <- at_ b row cl ;;
         if is_empty x then Ok (legal_actions ++ [(row, cl)]) else Ok legal_actions)
    = Ok (acc ++ filter (fun a => is_empty (cell_of b a)) l).
Proof.
  induction l as [|[r c] t IH]; intros Hat acc.
  - simpl. rewrite app_nil_r. reflexivity.
  - simpl. pose proof (Hat (r, c) (or_introl eq_refl)) as E. simpl in E.
    rewrite E. simpl.
    destruct (is_empty (cell_of b (r, c))); simpl;
      (rewrite IH by (intros; apply Hat; right; assumption)); [|reflexivity].
    rewrite <- app_assoc. reflexivity.
Qed.

Lemma actions_spec (b : board) :
  wf_board b ->
  actions b = Ok (filter (fun a => is_empty (cell_of b a)) grid).
Proof.
  intros Hwf. unfold actions.
  rewrite actions_loop by (intros; apply at_cell_of; assumption).
  reflexivity.
Qed.

Lemma in_actions (b : board) (acts : list action) (a : action) :
  wf_board b -> actions b = Ok acts ->
  In a acts -> In a grid /\ cell_of b a = None.
Proof.
  intros Hwf Hacts Ha. rewrite actions_spec in Hacts by assumption.
  assert (acts = filter (fun a => is_empty (cell_of b a)) grid) as ->
    by congruence.
  apply filter_In in Ha. destruct Ha as [Hg He].
  split; [assumption|]. destruct (cell_of b a); [discriminate | reflexivity].
Qed.

(** *** One application of [result] *)

Lemma getitem_range {A} (l : list A) (i : Z) (x : A) :
  getitem l i = Ok x ->
  - Z.of_nat (List.length l) <= i < Z.of_nat (List.length l).
Proof.
  unfold getitem. intros H.
  destruct (i <? 0) eqn:Ei;
  destruct ((0 <=? _) && (_ <? _))%bool eqn:E; try discriminate;
  apply andb_prop in E; destruct E as [E1 E2];
  apply Z.leb_le in E1; apply Z.ltb_lt in E2;
  [apply Z.ltb_lt in Ei | apply Z.ltb_ge in Ei]; lia.
Qed.

Lemma at_range (b : board) (i j : Z) (x : cell) :
  wf_board b -> at_ b i j = Ok x -> (-3 <= i < 3) /\ (-3 <= j < 3).
Proof.
  intros [Hl Hr] H. unfold at_ in H. inv_bind H.
  pose proof (getitem_range _ _ Ha) as Ri. rewrite Hl in Ri.
  pose proof (getitem_range _ _ H) as Rj.
  assert (List.length a = 3%nat) as La.
  { rewrite Forall_forall in Hr. apply Hr.
    unfold getitem in Ha.
    destruct ((0 <=? _) && (_ <? _))%bool; try discriminate.
    destruct (nth_error b _) eqn:En; try discriminate.
    inversion Ha; subst. eapply nth_error_In; eassumption. }
  rewrite La in Rj. lia.
Qed.

Lemma count_cells_sum (p : cell -> bool) (b : board) :
  count_cells p b =
  list_sum (map (fun c => if p c then 1%nat else 0%nat) (List.concat b)).
Proof.
  unfold count_cells. induction (List.concat b) as [|c t IH]; simpl; [reflexivity|].
  destruct (p c); simpl; rewrite IH; reflexivity.
Qed.

Ltac six_cases i H :=
  let E := fresh "E" in
  assert (i = -3 \/ i = -2 \/ i = -1 \/ i = 0 \/ i = 1 \/ i = 2) as E by lia;
  clear H;
  destruct E as [E|[E|[E|[E|[E|E]]]]]; subst i.

Lemma set_cell_facts (b b' : board) (a : action) (p : mark) :
  wf_board b ->
  at_ b (fst a) (snd a) = Ok None ->
  set_cell b a (Some p) = Ok b' ->
  wf_board b' /\
  count p b' = S (count p b) /\
  count (other p) b' = count (other p) b /\
  S (empties b') = empties b.
Proof.
  intros Hwf Hat Hset. destruct a as [i j]. simpl in Hat.
  destruct (at_range _ _ Hwf Hat) as [Ri Rj].
  explicit_board b Hwf.
  unfold count, empties. rewrite !count_cells_sum.
  six_cases i Ri; six_cases j Rj;
    vm_compute in Hat; inversion Hat; subst;
    vm_compute in Hset; inversion Hset; subst;
    (split; [apply explicit_wf|]);
    destruct p; simpl; lia.
Qed.

Lemma result_inv (b b' : board) (a : action) :
  result b a = Ok b' ->
  exists p, at_ b (fst a) (snd a) = Ok None /\ player b = Ok p /\
            set_cell b a (Some p) = Ok b'.
Proof.
  unfold result. intros H. inv_bind H.
  destruct a0 as [m|]; simpl in H; [discriminate|].
  inv_bind H. eauto.
Qed.

Lemma result_facts (b b' : board) (a : action) :
  wf_board b -> result b a = Ok b' ->
  exists p, player b = Ok p /\
    wf_board b' /\
    count p b' = S (count p b) /\
    count (other p) b' = count (other p) b /\
    S (empties b') = empties b.
Proof.
  intros Hwf H. apply result_inv in H. destruct H as (p & Hat & Hp & Hset).
  exists p. split; [assumption|]. eapply set_cell_facts; eassumption.
Qed.

Lemma result_legal (b : board) (a : action) :
  wf_board b -> In a grid -> cell_of b a = None ->
  exists b', result b a = Ok b'.
Proof.
  intros Hwf Ha He. unfold result.
  rewrite at_cell_of, He by assumption. simpl.
  rewrite player_spec by assumption. simpl.
  explicit_board b Hwf. simpl in Ha.
  repeat (destruct Ha as [Ha|Ha]; [subst a; eexists; reflexivity|]). destruct Ha.
Qed.

(** *** The board tests never raise on a well-formed board *)

Lemma succeeds_Ok {A} (a : A) : succeeds (Ok a).
Proof. exists a; reflexivity. Qed.

Lemma succeeds_bind {A B} (m : res A) (k : A -> res B) :
  succeeds m -> (forall a, succeeds (k a)) -> succeeds (bind m k).
Proof. intros [a ->] H. simpl. apply H. Qed.

Lemma succeeds_if {A} (c : bool) (m1 m2 : res A) :
  succeeds m1 -> succeeds m2 -> succeeds (if c then m1 else m2).
Proof. destruct c; auto. Qed.

Lemma for_each_succeeds {A S} (l : list A) (s : S) body :
  (forall s x, In x l -> succeeds (body s x)) -> succeeds (for_each l s body).
Proof.
  revert s; induction l as [|x t IH]; intros s H; simpl; [apply succeeds_Ok|].
  apply succeeds_bind; [apply H; left; reflexivity|].
  intros s'. apply IH. intros; apply H; right; assumption.
Qed.

Lemma at_succeeds (b : board) (r c : Z) :
  wf_board b -> In (r, c) grid -> succeeds (at_ b r c).
Proof.
  intros Hwf Hin. exists (cell_of b (r, c)).
  apply (@at_cell_of b (r, c) Hwf Hin).
Qed.

Lemma all3_succeeds (b : board) (p : mark) (c1 c2 c3 : Z * Z) :
  wf_board b -> In c1 grid -> In c2 grid -> In c3 grid ->
  succeeds (all3 b p c1 c2 c3).
Proof.
  intros Hwf H1 H2 H3. unfold all3.
  destruct c1, c2, c3; simpl.
  repeat first [ apply succeeds_Ok
               | apply succeeds_if
               | apply succeeds_bind; [apply at_succeeds; assumption | intros ?] ].
Qed.

Lemma first_hit_succeeds {A} (l : list A) (test : A -> res bool) :
  (forall x, In x l -> succeeds (test x)) -> succeeds (first_hit l test).
Proof.
  induction l as [|x t IH]; intros H; simpl; [apply succeeds_Ok|].
  apply succeeds_bind; [apply H; left; reflexivity|].
  intros h. apply succeeds_if; [apply succeeds_Ok|].
  apply IH. intros; apply H; right; assumption.
Qed.

Ltac in_grid_tac :=
  match goal with
  | H : In ?i range3 |- In _ grid =>
      simpl in H; simpl; intuition (subst; auto 10)
  | |- In _ grid => simpl; auto 10
  end.

Lemma wins_succeeds (b : board) (p : mark) :
  wf_board b -> succeeds (wins b p).
Proof.
  intros Hwf. unfold wins.
  repeat first
    [ apply succeeds_Ok
    | apply succeeds_if
    | apply all3_succeeds; [assumption | in_grid_tac ..]
    | apply succeeds_bind; [|intros ?]
    | apply first_hit_succeeds; intros ? ? ].
Qed.

Lemma winner_succeeds (b : board) : wf_board b -> succeeds (winner b).
Proof.
  intros Hwf. unfold winner.
  repeat first
    [ apply succeeds_Ok
    | apply succeeds_if
    | apply wins_succeeds; assumption
    | apply succeeds_bind; [|intros ?] ].
Qed.

Lemma row_scan_succeeds (b : board) (r : Z) (cs : list Z) (e : bool) :
  wf_board b -> (forall c, In c cs -> In (r, c) grid) ->
  succeeds (row_scan b r cs e).
Proof.
  intros Hwf. induction cs as [|c t IH]; intros H; simpl; [apply succeeds_Ok|].
  apply succeeds_bind; [apply at_succeeds; [assumption | apply H; left; reflexivity]|].
  intros x. apply succeeds_if; [apply succeeds_Ok|].
  apply IH. intros; apply H; right; assumption.
Qed.

Lemma terminal_succeeds (b : board) : wf_board b -> succeeds (terminal b).
Proof.
  intros Hwf. unfold terminal.
  apply succeeds_bind; [apply winner_succeeds; assumption|].
  intros [m|]; [apply succeeds_Ok|].
  apply for_each_succeeds. intros e r Hr.
  apply row_scan_succeeds; [assumption|].
  intros c Hc. simpl in Hr, Hc. simpl. intuition (subst; auto 10).
Qed.

Lemma utility_succeeds (b : board) : wf_board b -> succeeds (utility b).
Proof.
  intros Hwf. unfold utility.
  apply succeeds_bind; [apply winner_succeeds; assumption|].
  intros [[|]|]; apply succeeds_Ok.
Qed.

Lemma utility_zero_winner (b : board) :
  utility b = Ok 0 -> winner b = Ok None.
Proof.
  unfold utility. intros H. inv_bind H.
  destruct a as [[|]|]; try discriminate. assumption.
Qed.

(** *** Loops that keep the best value seen so far *)

Lemma ext_le_refl (a : ext) : ext_le a a.
Proof. unfold ext_le. destruct a; simpl; auto. apply Z.ltb_irrefl. Qed.

Lemma ext_le_trans (a b c : ext) : ext_le a b -> ext_le b c -> ext_le a c.
Proof.
  unfold ext_le. destruct a, b, c; simpl; try congruence.
  rewrite !Z.ltb_ge. lia.
Qed.

Lemma ext_ltb_le (a b : ext) : ext_ltb a b = true -> ext_le a b.
Proof.
  unfold ext_le. destruct a, b; simpl; try congruence.
  rewrite Z.ltb_lt, Z.ltb_ge. lia.
Qed.

Lemma ext_le_antisym_fin (z : Z) (v : ext) :
  ext_le (Fin z) v -> ext_le v (Fin z) -> v = Fin z.
Proof.
  unfold ext_le. destruct v; simpl; try congruence.
  rewrite !Z.ltb_ge. intros. f_equal. lia.
Qed.

Section BestOf.

Context {A B : Type}.
Variable r : A -> res B.
Variable leq : ext -> ext -> Prop.
Variable better : ext -> ext -> bool.
Hypothesis leq_refl : forall a, leq a a.
Hypothesis leq_trans : forall a b c, leq a b -> leq b c -> leq a c.
Hypothesis better_true : forall v x, better v x = true -> leq v x.
Hypothesis better_false : forall v x, better v x = false -> leq x v.

Lemma fold_body_inv h v a v' :
  fold_body r better h v a = Ok v' ->
  exists b' x, r a = Ok b' /\ h b' = Ok x /\
               v' = (if better v x then x else v).
Proof.
  unfold fold_body. intros H. inv_bind H. inv_bind H.
  inversion H; subst. eauto.
Qed.

Lemma pick_ge_left v x : leq v (if better v x then x else v).
Proof. destruct (better v x) eqn:E; auto. Qed.

Lemma pick_ge_right v x : leq x (if better v x then x else v).
Proof. destruct (better v x) eqn:E; auto. Qed.

Lemma best_lower h l : forall s v,
  for_each l s (fold_body r better h) = Ok v ->
  leq s v /\
  forall a, In a l -> exists b' x, r a = Ok b' /\ h b' = Ok x /\ leq x v.
Proof.
  induction l as [|a0 t IH]; intros s v H; simpl in H.
  - inversion H; subst. split; [apply leq_refl | intros ? []].
  - inv_bind H. apply fold_body_inv in Ha. destruct Ha as (b' & x & Hr & Hh & ->).
    destruct (IH _ _ H) as [Hs Hall]. split.
    + eapply leq_trans; [apply pick_ge_left | exact Hs].
    + intros a' [<-|Hin]; [|apply Hall; assumption].
      exists b', x. repeat split; try assumption.
      eapply leq_trans; [apply pick_ge_right | exact Hs].
Qed.

Lemma best_upper h l w : forall s v,
  for_each l s (fold_body r better h) = Ok v ->
  leq s w ->
  (forall a b' x, In a l -> r a = Ok b' -> h b' = Ok x -> leq x w) ->
  leq v w.
Proof.
  induction l as [|a0 t IH]; intros s v H Hs Hall; simpl in H.
  - inversion H; subst. assumption.
  - inv_bind H. apply fold_body_inv in Ha. destruct Ha as (b' & x & Hr & Hh & ->).
    eapply IH; [exact H | | intros; eapply Hall; eauto; right; assumption].
    destruct (better s x); [|assumption].
    eapply Hall; eauto. left; reflexivity.
Qed.

Lemma best_total h l : forall s,
  (forall a, In a l -> exists b' x, r a = Ok b' /\ h b' = Ok x) ->
  exists v, for_each l s (fold_body r better h) = Ok v.
Proof.
  induction l as [|a0 t IH]; intros s Hall; simpl.
  - eauto.
  - destruct (Hall a0 (or_introl eq_refl)) as (b' & x & Hr & Hh).
    unfold fold_body at 1. rewrite Hr; simpl. rewrite Hh; simpl.
    apply IH. intros; apply Hall; right; assumption.
Qed.

Lemma best_mono h1 h2 l : forall s v,
  (forall a b' x, In a l -> r a = Ok b' -> h1 b' = Ok x -> h2 b' = Ok x) ->
  for_each l s (fold_body r better h1) = Ok v ->
  for_each l s (fold_body r better h2) = Ok v.
Proof.
  induction l as [|a0 t IH]; intros s v Hall H; simpl in *; [assumption|].
  inv_bind H. apply fold_body_inv in Ha. destruct Ha as (b' & x & Hr & Hh & ->).
  unfold fold_body at 1. rewrite Hr; simpl.
  rewrite (Hall a0 b' x (or_introl eq_refl) Hr Hh); simpl.
  apply IH; [|assumption]. intros; eapply Hall; eauto.
Qed.

Lemma best_arg h l : forall s v om,
  for_each l s (fold_body r better h) = Ok v ->
  exists om', for_each l (s, om) (arg_body r better h) = Ok (v, om') /\
    ((om' = om /\ v = s) \/
     exists a b', In a l /\ om' = Some a /\ r a = Ok b' /\ h b' = Ok v).
Proof.
  induction l as [|a0 t IH]; intros s v om H; simpl in H.
  - inversion H; subst. exists om. simpl. auto.
  - inv_bind H. apply fold_body_inv in Ha. destruct Ha as (b' & x & Hr & Hh & ->).
    simpl. rewrite Hr; simpl. rewrite Hh; simpl.
    destruct (better s x) eqn:E; simpl.
    + destruct (IH _ _ (Some a0) H) as (om' & Hloop & Hcase).
      exists om'. split; [assumption|]. right.
      destruct Hcase as [[-> ->]|(a & b'' & Hin & -> & Hr' & Hh')].
      * exists a0, b'. auto.
      * exists a, b''. auto.
    + destruct (IH _ _ om H) as (om' & Hloop & Hcase).
      exists om'. split; [assumption|].
      destruct Hcase as [[-> ->]|(a & b'' & Hin & -> & Hr' & Hh')].
      * left; auto.
      * right. exists a, b''. auto.
Qed.

End BestOf.

Lemma some_of_true {A} (l : list A) (f : A -> bool) :
  some_of l f = true -> exists x, In x l /\ f x = true.
Proof.
  induction l as [|x t IH]; simpl; [discriminate|].
  destruct (f x) eqn:E; [exists x; auto|].
  intros H. destruct (IH H) as (y & Hy & Hf). exists y; auto.
Qed.

Lemma each_of_true {A} (l : list A) (f : A -> bool) :
  each_of l f = true -> forall x, In x l -> f x = true.
Proof.
  induction l as [|x t IH]; simpl; [intros _ ? []|].
  destruct (f x) eqn:E; [|discriminate].
  intros H y [<-|Hy]; [assumption | apply IH; assumption].
Qed.

Lemma balanced_initial : balanced initial_state.
Proof. left; reflexivity. Qed.

Lemma wf_initial : wf_board initial_state.
Proof. apply explicit_wf. Qed.

Lemma balanced_step (b b' : board) (a : action) :
  wf_board b -> balanced b -> result b a = Ok b' ->
  wf_board b' /\ balanced b' /\
  exists p, player b = Ok p /\ player b' = Ok (other p).
Proof.
  intros Hwf Hb H.
  destruct (result_facts _ Hwf H) as (p & Hp & Hwf' & Hc1 & Hc2 & _).
  rewrite player_spec in Hp by assumption.
  split; [assumption|].
  assert (balanced b' /\ (if Nat.eqb (count X b') (count O b') then X else O) = other p)
    as [Hb' Hp'].
  { unfold balanced in *.
    destruct (Nat.eqb (count X b) (count O b)) eqn:E;
      [apply Nat.eqb_eq in E | apply Nat.eqb_neq in E];
      inversion Hp; subst p; simpl in Hc1, Hc2.
    - split; [right; lia|].
      destruct (Nat.eqb (count X b') (count O b')) eqn:E';
        [apply Nat.eqb_eq in E'; lia | reflexivity].
    - split; [left; lia|].
      destruct (Nat.eqb (count X b') (count O b')) eqn:E';
        [reflexivity | apply Nat.eqb_neq in E'; lia]. }
  split; [assumption|].
  exists p. split; [rewrite player_spec by assumption; assumption|].
  rewrite player_spec by assumption. congruence.
Qed.

Lemma reachable_invariant (b : board) :
  reachable b -> wf_board b /\ balanced b.
Proof.
  induction 1 as [|b a b' Hr [Hwf Hb] Hres].
  - split; [apply wf_initial | apply balanced_initial].
  - destruct (balanced_step a Hwf Hb Hres) as (? & ? & _). split; assumption.
Qed.

(** C8: at every board reachable from [initial_state()] by successful
    applications of [result], the number of X cells minus the number of O
    cells is 0 or 1. *)
Theorem reachable_count_difference (b : board) :
  reachable b ->
  Z.of_nat (count X b) - Z.of_nat (count O b) = 0 \/
  Z.of_nat (count X b) - Z.of_nat (count O b) = 1.
Proof.
  intros H. destruct (reachable_invariant H) as [_ [E|E]]; [left | right]; lia.
Qed.

Lemma reachable_count_difference_witness :
  reachable [[Some X; None; None]; [None; Some O; None]; [None; None; None]] /\
  (Z.of_nat (count X [[Some X; None; None]; [None; Some O; None]; [None; None; None]])
   - Z.of_nat (count O [[Some X; None; None]; [None; Some O; None]; [None; None; None]]) = 0 \/
   Z.of_nat (count X [[Some X; None; None]; [None; Some O; None]; [None; None; None]])
   - Z.of_nat (count O [[Some X; None; None]; [None; Some O; None]; [None; None; None]]) = 1).
Proof.
  assert (reachable [[Some X; None; None]; [None; Some O; None]; [None; None; None]]) as R.
  { apply reach_step with (b := [[Some X; None; None]; [None; None; None]; [None; None; None]])
                          (a := (1, 1)); [|reflexivity].
    apply reach_step with (b := initial_state) (a := (0, 0)); [|reflexivity].
    apply reach_init. }
  split; [exact R | exact (reachable_count_difference R)].
Defined.

(** *** The game-tree search *)

Lemma ext_ge_refl (a : ext) : ext_ge a a.
Proof. apply ext_le_refl. Qed.

Lemma ext_ge_trans (a b c : ext) : ext_ge a b -> ext_ge b c -> ext_ge a c.
Proof. unfold ext_ge. intros; eapply ext_le_trans; eauto. Qed.

Lemma max_better_false (v x : ext) : ext_ltb v x = false -> ext_le x v.
Proof. auto. Qed.

Lemma min_better_true (v x : ext) : min_better v x = true -> ext_ge v x.
Proof. apply ext_ltb_le. Qed.

Lemma min_better_false (v x : ext) : min_better v x = false -> ext_ge x v.
Proof. auto. Qed.

Section SearchFacts.

Variable so : list action -> list action.
Hypothesis so_perm : forall l, Permutation (so l) l.

Lemma max_value_S (n : nat) (b : board) :
  max_value so (S n) b =
  (t <- terminal b ;;
   if t then u <- utility b ;; Ok (Fin u)
   else acts <- actions b ;;
        for_each (so acts) NegInf (fold_body (result b) ext_ltb (min_value so n))).
Proof. reflexivity. Qed.

Lemma min_value_S (n : nat) (b : board) :
  min_value so (S n) b =
  (t <- terminal b ;;
   if t then u <- utility b ;; Ok (Fin u)
   else acts <- actions b ;;
        for_each (so acts) PosInf (fold_body (result b) min_better (max_value so n))).
Proof. reflexivity. Qed.

(** Case analysis on a successful evaluation of a search node. *)
Lemma node_inv (b : board) (init : ext) (body : ext -> action -> res ext)
    (v : ext) :
  (t <- terminal b ;;
   if t then u <- utility b ;; Ok (Fin u)
   else acts <- actions b ;; for_each (so acts) init body) = Ok v ->
  (terminal b = Ok true /\ exists u, utility b = Ok u /\ v = Fin u) \/
  (terminal b = Ok false /\ exists acts, actions b = Ok acts /\
     for_each (so acts) init body = Ok v).
Proof.
  intros H. inv_bind H. destruct a.
  - left. inv_bind H. inversion H; subst. eauto.
  - right. inv_bind H. eauto.
Qed.

Lemma in_so (l : list action) (a : action) : In a (so l) <-> In a l.
Proof.
  split; apply Permutation_in; [apply so_perm | apply Permutation_sym, so_perm].
Qed.

Lemma node_test_inv (b : board) leaf inner :
  node_test b leaf inner = true ->
  (terminal b = Ok true /\ exists u, utility b = Ok u /\ leaf u = true) \/
  (terminal b = Ok false /\ exists acts, actions b = Ok acts /\ inner acts = true).
Proof.
  unfold node_test. destruct (terminal b) as [[|]|]; try discriminate.
  - destruct (utility b); try discriminate. eauto.
  - destruct (actions b); try discriminate. eauto.
Qed.

Lemma child_test_inv (b : board) (a : action) k :
  child_test b a k = true -> exists b', result b a = Ok b' /\ k b' = true.
Proof.
  unfold child_test. destruct (result b a); [eauto | discriminate].
Qed.

(** A certificate [max_ge]/[min_ge] bounds from below every successful
    evaluation of the node, whatever the iteration order and budget. *)
Lemma ge_sound (z : Z) (n : nat) : forall b,
  (max_ge n b z = true ->
   forall m v, max_value so m b = Ok v -> ext_le (Fin z) v) /\
  (min_ge n b z = true ->
   forall m v, min_value so m b = Ok v -> ext_le (Fin z) v).
Proof.
  induction n as [|n IH]; intros b; [split; discriminate|].
  split; intros Hc [|m] v Hv; try discriminate.
  - rewrite max_value_S in Hv. apply node_inv in Hv. simpl in Hc.
    apply node_test_inv in Hc.
    destruct Hv as [(Ht & u & Hu & ->)|(Ht & acts & Ha & Hloop)];
    destruct Hc as [(Ht' & u' & Hu' & Hl)|(Ht' & acts' & Ha' & Hi)]; try congruence.
    + assert (u' = u) as -> by congruence.
      unfold ext_le; simpl. apply Z.ltb_ge. apply Z.leb_le in Hl. lia.
    + assert (acts' = acts) as -> by congruence.
      apply some_of_true in Hi. destruct Hi as (a & Hin & Hct).
      apply child_test_inv in Hct. destruct Hct as (b' & Hr & Hge).
      destruct (best_lower (result b) ext_le ext_ltb ext_le_refl ext_le_trans
                  ext_ltb_le max_better_false _ _ _ Hloop) as [_ Hall].
      destruct (Hall a (proj2 (in_so _ _) Hin)) as (b'' & x & Hr' & Hx & Hle).
      assert (b'' = b') as -> by congruence.
      eapply ext_le_trans; [|exact Hle].
      eapply (proj2 (IH b')); eassumption.
  - rewrite min_value_S in Hv. apply node_inv in Hv. simpl in Hc.
    apply node_test_inv in Hc.
    destruct Hv as [(Ht & u & Hu & ->)|(Ht & acts & Ha & Hloop)];
    destruct Hc as [(Ht' & u' & Hu' & Hl)|(Ht' & acts' & Ha' & Hi)]; try congruence.
    + assert (u' = u) as -> by congruence.
      unfold ext_le; simpl. apply Z.ltb_ge. apply Z.leb_le in Hl. lia.
    + assert (acts' = acts) as -> by congruence.
      pose proof (each_of_true _ _ Hi) as Hall.
      change (ext_ge v (Fin z)).
      apply (best_upper (result b) ext_ge min_better _ _ (Fin z) _ Hloop).
      * reflexivity.
      * intros a b' x Hin Hr Hx.
        specialize (Hall a (proj1 (in_so _ _) Hin)).
        apply child_test_inv in Hall. destruct Hall as (b'' & Hr' & Hge).
        assert (b'' = b') as -> by congruence.
        eapply (proj1 (IH b')); eassumption.
Qed.

Lemma le_sound (z : Z) (n : nat) : forall b,
  (max_le n b z = true ->
   forall m v, max_value so m b = Ok v -> ext_le v (Fin z)) /\
  (min_le n b z = true ->
   forall m v, min_value so m b = Ok v -> ext_le v (Fin z)).
Proof.
  induction n as [|n IH]; intros b; [split; discriminate|].
  split; intros Hc [|m] v Hv; try discriminate.
  - rewrite max_value_S in Hv. apply node_inv in Hv. simpl in Hc.
    apply node_test_inv in Hc.
    destruct Hv as [(Ht & u & Hu & ->)|(Ht & acts & Ha & Hloop)];
    destruct Hc as [(Ht' & u' & Hu' & Hl)|(Ht' & acts' & Ha' & Hi)]; try congruence.
    + assert (u' = u) as -> by congruence.
      unfold ext_le; simpl. apply Z.ltb_ge. apply Z.leb_le in Hl. lia.
    + assert (acts' = acts) as -> by congruence.
      pose proof (each_of_true _ _ Hi) as Hall.
      apply (best_upper (result b) ext_le ext_ltb _ _ (Fin z) _ Hloop).
      * reflexivity.
      * intros a b' x Hin Hr Hx.
        specialize (Hall a (proj1 (in_so _ _) Hin)).
        apply child_test_inv in Hall. destruct Hall as (b'' & Hr' & Hge).
        assert (b'' = b') as -> by congruence.
        eapply (proj2 (IH b')); eassumption.
  - rewrite min_value_S in Hv. apply node_inv in Hv. simpl in Hc.
    apply node_test_inv in Hc.
    destruct Hv as [(Ht & u & Hu & ->)|(Ht & acts & Ha & Hloop)];
    destruct Hc as [(Ht' & u' & Hu' & Hl)|(Ht' & acts' & Ha' & Hi)]; try congruence.
    + assert (u' = u) as -> by congruence.
      unfold ext_le; simpl. apply Z.ltb_ge. apply Z.leb_le in Hl. lia.
    + assert (acts' = acts) as -> by congruence.
      apply some_of_true in Hi. destruct Hi as (a & Hin & Hct).
      apply child_test_inv in Hct. destruct Hct as (b' & Hr & Hge).
      destruct (best_lower (result b) ext_ge min_better ext_ge_refl ext_ge_trans
                  min_better_true min_better_false _ _ _ Hloop) as [_ Hall].
      destruct (Hall a (proj2 (in_so _ _) Hin)) as (b'' & x & Hr' & Hx & Hle).
      assert (b'' = b') as -> by congruence.
      eapply ext_le_trans; [exact Hle|].
      eapply (proj1 (IH b')); eassumption.
Qed.

(** Evaluation never raises on a well-formed board when the budget exceeds
    the number of empty cells. *)
Lemma value_total (n : nat) : forall b,
  wf_board b -> (empties b < n)%nat ->
  (exists v, max_value so n b = Ok v) /\ (exists v, min_value so n b = Ok v).
Proof.
  induction n as [|n IH]; intros b Hwf Hn; [lia|].
  rewrite max_value_S, min_value_S.
  destruct (terminal_succeeds Hwf) as [t Ht]. rewrite Ht; simpl.
  destruct t.
  - destruct (utility_succeeds Hwf) as [u Hu]. rewrite Hu; simpl. eauto.
  - rewrite actions_spec by assumption. simpl.
    assert (forall a, In a (so (filter (fun a => is_empty (cell_of b a)) grid)) ->
            exists b', result b a = Ok b' /\ wf_board b' /\ (empties b' < n)%nat)
      as Hchild.
    { intros a Hin. apply (proj1 (in_so _ _)) in Hin.
      destruct (in_actions a Hwf (actions_spec Hwf) Hin) as [Hg He].
      destruct (result_legal Hwf Hg He) as [b' Hr]. exists b'.
      destruct (result_facts a Hwf Hr) as (p & _ & Hwf' & _ & _ & Hemp).
      split; [assumption|]. split; [assumption|]. lia. }
    split; apply best_total; intros a Hin;
      destruct (Hchild a Hin) as (b' & Hr & Hwf' & Hlt);
      destruct (IH b' Hwf' Hlt) as [[x Hx] [y Hy]]; eauto.
Qed.

(** A larger budget does not change a value already obtained. *)
Lemma value_mono (n : nat) : forall b v,
  (max_value so n b = Ok v -> max_value so (S n) b = Ok v) /\
  (min_value so n b = Ok v -> min_value so (S n) b = Ok v).
Proof.
  induction n as [|n IH]; intros b v; [split; discriminate|].
  split; intros H.
  - rewrite max_value_S in H. rewrite max_value_S. apply node_inv in H.
    destruct H as [(Ht & u & Hu & ->)|(Ht & acts & Ha & Hloop)];
      rewrite Ht; simpl; [rewrite Hu; reflexivity|].
    rewrite Ha; simpl.
    apply (best_mono (result b) ext_ltb (min_value so n)); [|assumption].
    intros a b' x _ _ Hx. apply (proj2 (IH b' x)); assumption.
  - rewrite min_value_S in H. rewrite min_value_S. apply node_inv in H.
    destruct H as [(Ht & u & Hu & ->)|(Ht & acts & Ha & Hloop)];
      rewrite Ht; simpl; [rewrite Hu; reflexivity|].
    rewrite Ha; simpl.
    apply (best_mono (result b) min_better (max_value so n)); [|assumption].
    intros a b' x _ _ Hx. apply (proj1 (IH b' x)); assumption.
Qed.

Lemma value_mono_le (n m : nat) (b : board) (v : ext) :
  (n <= m)%nat ->
  (max_value so n b = Ok v -> max_value so m b = Ok v) /\
  (min_value so n b = Ok v -> min_value so m b = Ok v).
Proof.
  induction 1 as [|m Hle [IH1 IH2]]; [split; auto|].
  split; intros H.
  - apply (proj1 (value_mono m b v)). auto.
  - apply (proj2 (value_mono m b v)). auto.
Qed.

Lemma root_at_least_0 : max_ge 10 initial_state 0 = true.
Proof. vm_compute. reflexivity. Qed.

Lemma root_at_most_0 : max_le 10 initial_state 0 = true.
Proof. vm_compute. reflexivity. Qed.

(** The value of the empty board is 0. *)
Lemma root_value (n : nat) :
  (10 <= n)%nat -> max_value so n initial_state = Ok (Fin 0).
Proof.
  intros Hn.
  destruct (value_total (n := n) wf_initial) as [[v Hv] _].
  { change (empties initial_state) with 9%nat. lia. }
  rewrite Hv. f_equal. apply ext_le_antisym_fin.
  - eapply (proj1 (ge_sound 0 10 initial_state)); [apply root_at_least_0 | exact Hv].
  - eapply (proj1 (le_sound 0 10 initial_state)); [apply root_at_most_0 | exact Hv].
Qed.

Lemma minimax_eq (n : nat) (b : board) :
  minimax so n b =
  (t <- terminal b ;;
   if t then Ok None
   else
     cur_player <- player b ;;
     acts <- actions b ;;
     match cur_player with
     | X =>
         st <- for_each (so acts) (NegInf, None)
                 (arg_body (result b) ext_ltb (min_value so n)) ;;
         match snd st with
         | Some a => Ok (Some a)
         | None => Raise UnboundLocalError
         end
     | O =>
         st <- for_each (so acts) (PosInf, None)
                 (arg_body (result b) min_better (max_value so n)) ;;
         match snd st with
         | Some a => Ok (Some a)
         | None => Raise UnboundLocalError
         end
     end).
Proof. reflexivity. Qed.

(** [minimax] returns an action whose successor has the value of the
    node. *)
Lemma minimax_attains (n : nat) (b : board) (turn : mark) (acts : list action)
    (z : Z) :
  terminal b = Ok false -> player b = Ok turn -> actions b = Ok acts ->
  for_each (so acts) (match turn with X => NegInf | O => PosInf end)
    (match turn with
     | X => fold_body (result b) ext_ltb (min_value so n)
     | O => fold_body (result b) min_better (max_value so n)
     end) = Ok (Fin z) ->
  exists a b', minimax so n b = Ok (Some a) /\ In a (so acts) /\
    result b a = Ok b' /\
    match turn with
    | X => min_value so n b'
    | O => max_value so n b'
    end = Ok (Fin z).
Proof.
  intros Ht Hp Ha Hloop. rewrite minimax_eq, Ht; simpl. rewrite Hp; simpl.
  rewrite Ha; simpl.
  destruct turn.
  - destruct (best_arg (result b) ext_ltb _ _ _ None Hloop)
      as (om' & Harg & [[_ E]|(a & b' & Hin & -> & Hr & Hv)]); [discriminate|].
    rewrite Harg; simpl. exists a, b'. auto.
  - destruct (best_arg (result b) min_better _ _ _ None Hloop)
      as (om' & Harg & [[_ E]|(a & b' & Hin & -> & Hr & Hv)]); [discriminate|].
    rewrite Harg; simpl. exists a, b'. auto.
Qed.

Lemma value_at_S (turn : mark) (k : nat) (b : board) :
  value_at so turn (S k) b =
  (t <- terminal b ;;
   if t then u <- utility b ;; Ok (Fin u)
   else acts <- actions b ;;
        for_each (so acts) (match turn with X => NegInf | O => PosInf end)
          (match turn with
           | X => fold_body (result b) ext_ltb (min_value so k)
           | O => fold_body (result b) min_better (max_value so k)
           end)).
Proof. destruct turn; reflexivity. Qed.

Lemma self_play_terminal (fuel moves : nat) (b : board) :
  terminal b = Ok true -> self_play so fuel moves b = Ok b.
Proof. intros Ht. destruct moves; simpl; rewrite Ht; reflexivity. Qed.

Lemma self_play_step (fuel moves : nat) (b b' : board) (a : action) :
  terminal b = Ok false -> minimax so fuel b = Ok (Some a) ->
  result b a = Ok b' ->
  self_play so fuel (S moves) b = self_play so fuel moves b'.
Proof.
  intros Ht Hm Hr. simpl. rewrite Ht; simpl. rewrite Hm; simpl.
  rewrite Hr; simpl. reflexivity.
Qed.

(** From a board of value 0, optimal play by both sides ends in a draw. *)
Lemma play_draw (k : nat) : forall b turn fuel moves,
  wf_board b -> balanced b -> player b = Ok turn ->
  value_at so turn k b = Ok (Fin 0) ->
  (k <= S fuel)%nat -> (k <= S moves)%nat ->
  exists b', self_play so fuel moves b = Ok b' /\
    terminal b' = Ok true /\ winner b' = Ok None /\ utility b' = Ok 0.
Proof.
  induction k as [|k IH]; intros b turn fuel moves Hwf Hbal Hp Hv Hf Hm.
  { destruct turn; discriminate. }
  rewrite value_at_S in Hv. apply node_inv in Hv.
  destruct Hv as [(Ht & u & Hu & E)|(Ht & acts & Ha & Hloop)].
  - inversion E; subst u. exists b.
    rewrite self_play_terminal by assumption.
    repeat split; auto using utility_zero_winner.
  - (* the children are evaluated with budget [k]; [minimax] uses [fuel] *)
    assert (k <= fuel)%nat as Hkf by lia.
    assert (forall a b' x, result b a = Ok b' ->
              value_at so (other turn) k b' = Ok x ->
              value_at so (other turn) fuel b' = Ok x) as Hup.
    { intros a b' x _ Hx. destruct turn; simpl in *;
        eapply value_mono_le; eauto. }
    assert (for_each (so acts) (match turn with X => NegInf | O => PosInf end)
              (match turn with
               | X => fold_body (result b) ext_ltb (min_value so fuel)
               | O => fold_body (result b) min_better (max_value so fuel)
               end) = Ok (Fin 0)) as Hloop'.
    { destruct turn;
        (eapply best_mono; [|exact Hloop]);
        intros a b' x _ Hr Hx; exact (Hup a b' x Hr Hx). }
    destruct (@minimax_attains fuel b turn acts 0 Ht Hp Ha Hloop')
      as (a & b' & Hmm & Hin & Hr & Hv').
    (* the chosen successor has value 0 also with budget [k] *)
    assert (exists x, value_at so (other turn) k b' = Ok x) as [x Hx].
    { destruct turn; simpl.
      - destruct (best_lower (result b) ext_le ext_ltb ext_le_refl ext_le_trans
                    ext_ltb_le max_better_false _ _ _ Hloop) as [_ Hall].
        destruct (Hall a Hin) as (b'' & x & Hr' & Hx & _).
        assert (b'' = b') as -> by congruence. eauto.
      - destruct (best_lower (result b) ext_ge min_better ext_ge_refl ext_ge_trans
                    min_better_true min_better_false _ _ _ Hloop) as [_ Hall].
        destruct (Hall a Hin) as (b'' & x & Hr' & Hx & _).
        assert (b'' = b') as -> by congruence. eauto. }
    assert (x = Fin 0) as ->.
    { pose proof (Hup a b' x Hr Hx) as Hx'.
      destruct turn; simpl in *; congruence. }
    destruct (balanced_step a Hwf Hbal Hr) as (Hwf' & Hbal' & p & Hp1 & Hp2).
    assert (p = turn) as -> by congruence.
    destruct moves as [|moves].
    { assert (k = 0)%nat as -> by lia. destruct turn; discriminate. }
    rewrite (@self_play_step fuel moves b b' a Ht Hmm Hr).
    apply (IH b' (other turn) fuel moves); auto; lia.
Qed.

(** C1: whatever the iteration order of the action sets, when both sides
    repeatedly apply the action returned by [minimax] from [initial_state()],
    the game reaches a terminal board with winner [None] and utility 0. *)
Theorem optimal_self_play_draws (fuel moves : nat) :
  (9 <= fuel)%nat -> (9 <= moves)%nat ->
  exists b, self_play so fuel moves initial_state = Ok b /\
    terminal b = Ok true /\ winner b = Ok None /\ utility b = Ok 0.
Proof.
  intros Hf Hm.
  apply (@play_draw 10 initial_state X fuel moves).
  - apply wf_initial.
  - apply balanced_initial.
  - reflexivity.
  - apply root_value. lia.
  - lia.
  - lia.
Qed.

End SearchFacts.

Lemma optimal_self_play_draws_witness :
  (forall l : list action, Permutation ((fun l => l) l) l) /\
  (9 <= 9)%nat /\ (9 <= 9)%nat /\
  exists b, self_play (fun l => l) 9 9 initial_state = Ok b /\
    terminal b = Ok true /\ winner b = Ok None /\ utility b = Ok 0.
Proof.
  assert (forall l : list action, Permutation ((fun l => l) l) l) as P
    by (intros l; apply Permutation_refl).
  split; [exact P|]. split; [lia|]. split; [lia|].
  apply (@optimal_self_play_draws (fun l => l) P 9 9); lia.
Defined.

End TicTacToeFacts.

(** ** [result] on the heap *)

Module TicTacToeHeapFacts.
Import TicTacToe TicTacToeFacts.
Module H := TicTacToeHeap.
Local Open Scope nat_scope.

Lemma hget_app_l (h t : H.heap) (l : H.loc) (o : H.obj) :
  H.hget h l = Ok o -> H.hget (h ++ t) l = Ok o.
Proof.
  unfold H.hget. destruct (nth_error h l) eqn:E; [|discriminate].
  intros H0. rewrite nth_error_app1; [rewrite E; assumption|].
  apply nth_error_Some. congruence.
Qed.

Lemma hget_app_r (h t : H.heap) (k : nat) :
  H.hget (h ++ t) (List.length h + k) = H.hget t k.
Proof.
  unfold H.hget. rewrite nth_error_app2 by lia.
  replace (List.length h + k - List.length h)%nat with k by lia. reflexivity.
Qed.

Lemma get_rows_app_l (h t : H.heap) (l : H.loc) rows :
  H.get_rows h l = Ok rows -> H.get_rows (h ++ t) l = Ok rows.
Proof.
  unfold H.get_rows. intros H0. inv_bind H0.
  rewrite (@hget_app_l h t l a Ha). assumption.
Qed.

Lemma get_cells_app_l (h t : H.heap) (l : H.loc) cells :
  H.get_cells h l = Ok cells -> H.get_cells (h ++ t) l = Ok cells.
Proof.
  unfold H.get_cells. intros H0. inv_bind H0.
  rewrite (@hget_app_l h t l a Ha). assumption.
Qed.

Lemma get_rows_app_r (h t : H.heap) (k : nat) :
  H.get_rows (h ++ t) (List.length h + k) = H.get_rows t k.
Proof. unfold H.get_rows. rewrite hget_app_r. reflexivity. Qed.

Lemma get_cells_app_r (h t : H.heap) (k : nat) :
  H.get_cells (h ++ t) (List.length h + k) = H.get_cells t k.
Proof. unfold H.get_cells. rewrite hget_app_r. reflexivity. Qed.

Lemma replace_nth_app_r {A} (h t : list A) (k : nat) (x : A) :
  replace_nth (h ++ t) (List.length h + k) x = h ++ replace_nth t k x.
Proof.
  induction h as [|y h IH]; simpl; [reflexivity|]. rewrite IH. reflexivity.
Qed.

Lemma load_loop (h : H.heap) (rows : list H.loc) : forall acc b,
  for_each rows acc
    (fun acc rl => cells <- H.get_cells h rl ;; Ok (acc ++ [cells])) = Ok b ->
  exists rs, b = acc ++ rs /\
    Forall2 (fun rl cells => H.get_cells h rl = Ok cells) rows rs.
Proof.
  induction rows as [|rl t IH]; intros acc b Hl; simpl in Hl.
  - inversion Hl; subst. exists []. rewrite app_nil_r. auto.
  - inv_bind Hl. inv_bind Ha. inversion Ha; subst.
    destruct (IH _ _ Hl) as (rs & -> & HF).
    exists (a0 :: rs). rewrite <- app_assoc. split; [reflexivity|].
    constructor; assumption.
Qed.

(** The shape of a well-formed stored board. *)
Lemma wf_stored_inv (h : H.heap) (bd : H.loc) (b : board) :
  H.wf_stored h bd b ->
  exists l0 l1 l2 r0 r1 r2,
    H.get_rows h bd = Ok [l0; l1; l2] /\
    l0 <> l1 /\ l0 <> l2 /\ l1 <> l2 /\
    H.get_cells h l0 = Ok r0 /\ H.get_cells h l1 = Ok r1 /\
    H.get_cells h l2 = Ok r2 /\
    b = [r0; r1; r2].
Proof.
  intros (Hload & Hwf & rows & Hrows & Hnd).
  unfold H.load in Hload. rewrite Hrows in Hload. simpl in Hload.
  apply load_loop in Hload. destruct Hload as (rs & -> & HF). simpl in *.
  destruct Hwf as [Hlen _].
  destruct rs as [|r0 [|r1 [|r2 [|? ?]]]]; try discriminate.
  inversion HF as [|? ? ? ? H0 HF1]; subst.
  inversion HF1 as [|? ? ? ? H1 HF2]; subst.
  inversion HF2 as [|? ? ? ? H2 HF3]; subst.
  inversion HF3; subst.
  exists x, x0, x1, r0, r1, r2.
  inversion Hnd as [|? ? N0 Hnd1]; subst.
  inversion Hnd1 as [|? ? N1 _]; subst.
  simpl in N0, N1.
  repeat split; auto; intros ->; tauto.
Qed.

Lemma deepcopy_spec (h : H.heap) (bd : H.loc) (b : board) :
  H.wf_stored h bd b ->
  H.deepcopy h bd =
  Ok (h ++ map H.Row b ++
        [H.Grid [(List.length h + 0)%nat; (List.length h + 1)%nat;
                 (List.length h + 2)%nat]],
      (List.length h + 3)%nat).
Proof.
  intros Hs.
  destruct (wf_stored_inv Hs)
    as (l0 & l1 & l2 & r0 & r1 & r2 & Hrows & N01 & N02 & N12 & C0 & C1 & C2 & ->).
  unfold H.deepcopy. rewrite Hrows. simpl.
  rewrite C0. simpl.
  rewrite (proj2 (Nat.eqb_neq l0 l1) N01).
  rewrite (@get_cells_app_l h _ l1 r1 C1). simpl.
  rewrite (proj2 (Nat.eqb_neq l1 l2) N12), (proj2 (Nat.eqb_neq l0 l2) N02).
  rewrite (@get_cells_app_l _ _ l2 r2 (@get_cells_app_l h _ l2 r2 C2)). simpl.
  unfold H.alloc. rewrite !length_app. simpl.
  rewrite <- !app_assoc. simpl.
  rewrite Nat.add_0_r.
  replace (List.length h + 1 + 1) with (List.length h + 2) by lia.
  replace (List.length h + 2 + 1) with (List.length h + 3) by lia.
  reflexivity.
Qed.

Lemma at_stored (h : H.heap) (bd : H.loc) (b : board) (i j : Z) :
  H.wf_stored h bd b -> (0 <= i < 3)%Z -> (0 <= j < 3)%Z ->
  H.at_ h bd i j = Ok (cell_of b (i, j)).
Proof.
  intros Hs Hi Hj.
  destruct (wf_stored_inv Hs)
    as (l0 & l1 & l2 & r0 & r1 & r2 & Hrows & _ & _ & _ & C0 & C1 & C2 & E).
  destruct Hs as (_ & Hwf & _). subst b.
  destruct (wf_board_explicit Hwf)
    as (c00 & c01 & c02 & c10 & c11 & c12 & c20 & c21 & c22 & E).
  inversion E; subst. clear E.
  unfold H.at_. rewrite Hrows. simpl.
  assert (i = 0 \/ i = 1 \/ i = 2)%Z as Ei by lia.
  assert (j = 0 \/ j = 1 \/ j = 2)%Z as Ej by lia.
  destruct Ei as [->|[->| ->]]; destruct Ej as [->|[->| ->]];
    cbv -[H.get_cells]; rewrite ?C0, ?C1, ?C2; reflexivity.
Qed.

Lemma load_after_copy (h : H.heap) (t : list H.obj) (bd : H.loc) (b : board) :
  H.wf_stored h bd b -> H.load (h ++ t) bd = Ok b.
Proof.
  intros Hs.
  destruct (wf_stored_inv Hs)
    as (l0 & l1 & l2 & r0 & r1 & r2 & Hrows & _ & _ & _ & C0 & C1 & C2 & ->).
  unfold H.load. rewrite (@get_rows_app_l h t bd _ Hrows). simpl.
  rewrite (@get_cells_app_l h t l0 r0 C0). simpl.
  rewrite (@get_cells_app_l h t l1 r1 C1). simpl.
  rewrite (@get_cells_app_l h t l2 r2 C2). simpl.
  reflexivity.
Qed.

(** C7: on a well-formed stored board and an action inside the grid,
    [result] raises [IllegalAction] when the cell is occupied; when the cell
    is empty it returns a new board that holds the current player's mark at
    the cell and equals the input board at every other cell, while the input
    board (and every object that existed before the call) is unchanged. *)
Theorem result_frame (h : H.heap) (bd : H.loc) (b : board) (i j : Z) :
  H.wf_stored h bd b -> (0 <= i < 3)%Z -> (0 <= j < 3)%Z ->
  H.result_post h bd b i j.
Proof.
  intros Hs Hi Hj. unfold H.result_post.
  pose proof (at_stored Hs Hi Hj) as Hat.
  unfold H.result. simpl fst; simpl snd. rewrite Hat. simpl.
  destruct (cell_of b (i, j)) as [m|] eqn:Ecell; simpl; [reflexivity|].
  rewrite (deepcopy_spec Hs). simpl.
  unfold H.player. rewrite (load_after_copy _ Hs). simpl.
  assert (bd < List.length h) as Hbd.
  { destruct Hs as (_ & _ & rows & Hrows & _).
    unfold H.get_rows, H.hget in Hrows.
    destruct (nth_error h bd) eqn:E; [|discriminate].
    apply nth_error_Some. congruence. }
  pose proof Hs as (_ & Hwf & _).
  rewrite (player_spec Hwf).
  set (p := if Nat.eqb (count X b) (count O b) then X else O).
  simpl.
  assert (result b (i, j) = set_cell b (i, j) (Some p)) as Hres.
  { unfold result.
    rewrite (@at_cell_of b (i, j) Hwf) by (apply in_grid; simpl; lia).
    rewrite Ecell. simpl. rewrite (player_spec Hwf). reflexivity. }
  rewrite Hres. clear Hres.
  assert (forall t, H.load (h ++ t) bd = Ok b) as Hold
    by (intros t; apply load_after_copy; assumption).
  clear Hat Hs. revert Hold Ecell.
  destruct (wf_board_explicit Hwf)
    as (c00 & c01 & c02 & c10 & c11 & c12 & c20 & c21 & c22 & ->).
  intros Hold Ecell.
  rewrite get_rows_app_r.
  assert (i = 0 \/ i = 1 \/ i = 2)%Z as Ei by lia.
  assert (j = 0 \/ j = 1 \/ j = 2)%Z as Ej by lia.
  generalize p; clear p; intros p.
  destruct Ei as [->|[->| ->]]; destruct Ej as [->|[->| ->]];
    vm_compute in Ecell; subst;
    (simpl; rewrite get_cells_app_r; simpl;
     unfold H.hset; rewrite replace_nth_app_r; simpl;
     eexists; eexists; eexists; exists p;
     split; [reflexivity|];
     split; [reflexivity|];
     split; [unfold H.load; rewrite get_rows_app_r; simpl;
             repeat (rewrite get_cells_app_r; simpl); reflexivity|];
     split; [reflexivity|];
     split; [apply explicit_wf|];
     split; [reflexivity|];
     split; [intros r c Hr Hc Hne;
             assert (r = 0 \/ r = 1 \/ r = 2)%Z as Er by lia;
             assert (c = 0 \/ c = 1 \/ c = 2)%Z as Ec by lia;
             destruct Er as [->|[->| ->]]; destruct Ec as [->|[->| ->]];
             first [reflexivity | exfalso; apply Hne; reflexivity]|];
     split; [lia|];
     split; [apply Hold|];
     intros l Hl; apply nth_error_app1; exact Hl).
Qed.

Lemma result_frame_witness :
  H.wf_stored H.sample_heap 3 [[Some X; None; None]; [None; None; None]; [None; None; None]] /\
  (0 <= 1 < 3)%Z /\ (0 <= 1 < 3)%Z /\
  H.result_post H.sample_heap 3
    [[Some X; None; None]; [None; None; None]; [None; None; None]] 1 1.
Proof.
  assert (H.wf_stored H.sample_heap 3
            [[Some X; None; None]; [None; None; None]; [None; None; None]]) as W.
  { split; [reflexivity|]. split; [apply explicit_wf|].
    exists [0; 1; 2]. split; [reflexivity|].
    repeat constructor; simpl; lia. }
  split; [exact W|]. split; [lia|]. split; [lia|].
  apply (@result_frame H.sample_heap 3 _ 1%Z 1%Z W); lia.
Defined.

(** The occupied case on the same stored board. *)
Example result_occupied :
  H.result H.sample_heap 3 (0, 0)%Z = Raise IllegalAction.
Proof. reflexivity. Qed.

(** With two aliased rows the copy made by [result] shares them too, which is
    why [wf_stored] asks for distinct row objects. *)
Example result_aliased_rows :
  exists h' nb,
    H.result [H.Row [None; None; None]; H.Grid [0; 0; 0]] 1 (0, 0)%Z = Ok (h', nb) /\
    H.load h' nb = Ok [[Some X; None; None]; [Some X; None; None]; [Some X; None; None]].
Proof. do 2 eexists. split; reflexivity. Qed.

End TicTacToeHeapFacts.

(** ** Dictionaries *)

Section DictFacts.

Context {V : Type}.

Lemma dict_get_app_notin (d1 d2 : dict V) (k : string) :
  ~ In k (keys d1) -> dict_get (d1 ++ d2) k = dict_get d2 k.
Proof.
  induction d1 as [|[k' v'] t IH]; simpl; intros H; [reflexivity|].
  destruct (String.eqb k' k) eqn:E.
  - apply String.eqb_eq in E. tauto.
  - apply IH. tauto.
Qed.

Lemma dict_set_app_notin (d1 d2 : dict V) (k : string) (v : V) :
  ~ In k (keys d1) -> dict_set (d1 ++ d2) k v = d1 ++ dict_set d2 k v.
Proof.
  induction d1 as [|[k' v'] t IH]; simpl; intros H; [reflexivity|].
  destruct (String.eqb k' k) eqn:E.
  - apply String.eqb_eq in E. tauto.
  - rewrite IH by tauto. reflexivity.
Qed.

Lemma dict_get_in (d : dict V) (k : string) (v : V) :
  NoDup (keys d) -> In (k, v) d -> dict_get d k = Some v.
Proof.
  induction d as [|[k' v'] t IH]; simpl; intros Hnd Hin; [tauto|].
  inversion Hnd as [|? ? Hk Hnd']; subst.
  destruct Hin as [E|Hin].
  - inversion E; subst. rewrite String.eqb_refl. reflexivity.
  - destruct (String.eqb k' k) eqn:E.
    + apply String.eqb_eq in E. subst. exfalso. apply Hk.
      apply (in_map fst) in Hin. exact Hin.
    + apply IH; assumption.
Qed.

Lemma dict_get_Some_in (d : dict V) (k : string) (v : V) :
  dict_get d k = Some v -> In (k, v) d.
Proof.
  induction d as [|[k' v'] t IH]; simpl; [discriminate|].
  destruct (String.eqb k' k) eqn:E.
  - apply String.eqb_eq in E. intros H; inversion H; subst. auto.
  - auto.
Qed.

Lemma dict_get_None (d : dict V) (k : string) :
  dict_get d k = None <-> ~ In k (keys d).
Proof.
  induction d as [|[k' v'] t IH]; simpl; [tauto|].
  destruct (String.eqb k' k) eqn:E.
  - apply String.eqb_eq in E. split; [discriminate | tauto].
  - apply String.eqb_neq in E. rewrite IH. tauto.
Qed.

Lemma dict_get_set (d : dict V) (k k' : string) (v : V) :
  dict_get (dict_set d k v) k' =
  if String.eqb k k' then Some v else dict_get d k'.
Proof.
  induction d as [|[k0 v0] t IH]; simpl.
  - destruct (String.eqb k k'); reflexivity.
  - destruct (String.eqb k0 k) eqn:E; simpl.
    + apply String.eqb_eq in E. subst k0.
      destruct (String.eqb k k'); reflexivity.
    + destruct (String.eqb k0 k') eqn:E'; [|exact IH].
      apply String.eqb_eq in E'. subst k0. rewrite String.eqb_sym, E. reflexivity.
Qed.

Lemma keys_dict_set (d : dict V) (k : string) (v : V) :
  keys (dict_set d k v) = if in_set k (keys d) then keys d else keys d ++ [k].
Proof.
  unfold in_set.
  induction d as [|[k0 v0] t IH]; simpl; [reflexivity|].
  rewrite (String.eqb_sym k k0).
  destruct (String.eqb k0 k) eqn:E; simpl; [reflexivity|].
  rewrite IH. destruct (existsb _ _); reflexivity.
Qed.

Lemma in_set_In (x : string) (s : list string) :
  in_set x s = true <-> In x s.
Proof.
  unfold in_set. rewrite existsb_exists. split.
  - intros (y & Hy & E). apply String.eqb_eq in E. subst. assumption.
  - intros H. exists x. split; [assumption | apply String.eqb_refl].
Qed.

(** A loop that rewrites the value of every key, one key at a time. *)
Lemma for_each_keys (f : string -> V -> res V)
    (body : dict V -> string -> res (dict V)) :
  (forall acc k v, lookup acc k = Ok v ->
     body acc k = (v' <- f k v ;; Ok (dict_set acc k v'))) ->
  forall suf pre,
    NoDup (keys (pre ++ suf)) ->
    (forall k v, In (k, v) suf -> exists v', f k v = Ok v') ->
    exists suf',
      for_each (keys suf) (pre ++ suf) body = Ok (pre ++ suf') /\
      Forall2 (fun e e' => fst e' = fst e /\ f (fst e) (snd e) = Ok (snd e'))
        suf suf'.
Proof.
  intros Hbody. induction suf as [|[k v] t IH]; intros pre Hnd Hf.
  - exists []. simpl. auto.
  - assert (~ In k (keys pre)) as Hk.
    { unfold keys in Hnd. rewrite map_app in Hnd. simpl in Hnd.
      apply NoDup_remove_2 in Hnd. intros H. apply Hnd.
      apply in_or_app. left. assumption. }
    destruct (Hf k v (or_introl eq_refl)) as [v' Hv'].
    simpl. rewrite (Hbody (pre ++ (k, v) :: t) k v).
    2:{ unfold lookup. rewrite dict_get_app_notin by assumption.
        simpl. rewrite String.eqb_refl. reflexivity. }
    rewrite Hv'. simpl.
    rewrite dict_set_app_notin by assumption. simpl.
    rewrite String.eqb_refl.
    destruct (IH (pre ++ [(k, v')])) as (suf' & Hloop & HF).
    { rewrite <- app_assoc. simpl.
      unfold keys in *. rewrite !map_app in *. simpl in *. assumption. }
    { intros; apply Hf; right; assumption. }
    rewrite <- app_assoc in Hloop. simpl in Hloop.
    exists ((k, v') :: suf'). split.
    + rewrite Hloop. rewrite <- app_assoc. reflexivity.
    + constructor; [simpl; auto | assumption].
Qed.

Lemma Forall2_keys (R : string -> V -> V -> Prop) (d d' : dict V) :
  Forall2 (fun e e' => fst e' = fst e /\ R (fst e) (snd e) (snd e')) d d' ->
  keys d' = keys d.
Proof.
  induction 1 as [|[k v] [k' v'] t t' [E _] _ IH]; simpl; [reflexivity|].
  simpl in E. subst. f_equal. assumption.
Qed.

Lemma Forall2_entry (R : string -> V -> V -> Prop) (d d' : dict V) k v :
  Forall2 (fun e e' => fst e' = fst e /\ R (fst e) (snd e) (snd e')) d d' ->
  In (k, v) d -> exists v', In (k, v') d' /\ R k v v'.
Proof.
  induction 1 as [|[k0 v0] [k1 v1] t t' [E HR] _ IH]; simpl; [tauto|].
  simpl in E, HR. subst k1.
  intros [Heq|Hin].
  - inversion Heq; subst. exists v1. auto.
  - destruct (IH Hin) as (v' & Hin' & HR'). exists v'. auto.
Qed.

End DictFacts.

(** ** heredity.py *)

Module HeredityFacts.
Import Heredity.
Local Open Scope Q_scope.

(** *** [normalize] *)

Lemma normalize_body (acc : accumulator) (k : string) (d : distribution) :
  lookup acc k = Ok d ->
  (d <- lookup acc k ;;
   g0 <- get_gene d 0 ;;
   g1 <- get_gene d 1 ;;
   g2 <- get_gene d 2 ;;
   let gene_probabilities_sum := 0 + g0 + g1 + g2 in
   gene_factor <- py_div 1 gene_probabilities_sum ;;
   g0 <- get_gene d 0 ;;
   d <- set_gene d 0 (gene_factor * g0) ;;
   g1 <- get_gene d 1 ;;
   d <- set_gene d 1 (gene_factor * g1) ;;
   g2 <- get_gene d 2 ;;
   d <- set_gene d 2 (gene_factor * g2) ;;
   let trait_probabilities_sum := 0 + get_trait d true + get_trait d false in
   trait_factor <- py_div 1 trait_probabilities_sum ;;
   let d := set_trait d true (trait_factor * get_trait d true) in
   let d := set_trait d false (trait_factor * get_trait d false) in
   Ok (dict_set acc k d))
  = (v' <- normalize_entry d ;; Ok (dict_set acc k v')).
Proof.
  intros H. rewrite H. unfold normalize_entry. simpl.
  destruct (py_div 1 (0 + gene0 d + gene1 d + gene2 d)); simpl; [|reflexivity].
  destruct (py_div 1 (0 + trait_true d + trait_false d)); reflexivity.
Qed.

Lemma py_div_nonzero (a b : Q) : ~ b == 0 -> py_div a b = Ok (a / b).
Proof.
  intros H. unfold py_div.
  destruct (Qeq_bool b 0) eqn:E; [|reflexivity].
  apply Qeq_bool_eq in E. contradiction.
Qed.

Lemma normalize_entry_ok (d : distribution) :
  ~ gene_sum d == 0 -> ~ trait_sum d == 0 ->
  exists d', normalize_entry d = Ok d' /\
    gene_sum d' == 1 /\ trait_sum d' == 1 /\
    gene0 d' == gene0 d / gene_sum d /\
    gene1 d' == gene1 d / gene_sum d /\
    gene2 d' == gene2 d / gene_sum d /\
    trait_true d' == trait_true d / trait_sum d /\
    trait_false d' == trait_false d / trait_sum d.
Proof.
  unfold gene_sum, trait_sum. intros Hg Ht.
  assert (~ 0 + gene0 d + gene1 d + gene2 d == 0) as Hg'
    by (intros E; apply Hg; rewrite <- E; ring).
  assert (~ 0 + trait_true d + trait_false d == 0) as Ht'
    by (intros E; apply Ht; rewrite <- E; ring).
  unfold normalize_entry.
  rewrite (py_div_nonzero _ Hg'). simpl.
  rewrite (py_div_nonzero _ Ht'). simpl.
  eexists. split; [reflexivity|]. simpl.
  repeat split; field; assumption.
Qed.

(** Effect of [normalize] on every entry. *)
Lemma normalize_entries (probabilities : accumulator) :
  NoDup (keys probabilities) ->
  (forall k d, In (k, d) probabilities ->
     ~ gene_sum d == 0 /\ ~ trait_sum d == 0) ->
  exists probabilities',
    normalize probabilities = Ok probabilities' /\
    keys probabilities' = keys probabilities /\
    forall k d, In (k, d) probabilities ->
      exists d', dict_get probabilities' k = Some d' /\
        gene_sum d' == 1 /\ trait_sum d' == 1 /\
        gene0 d' == gene0 d / gene_sum d /\
        gene1 d' == gene1 d / gene_sum d /\
        gene2 d' == gene2 d / gene_sum d /\
        trait_true d' == trait_true d / trait_sum d /\
        trait_false d' == trait_false d / trait_sum d.
Proof.
  intros Hnd Hsum.
  destruct (for_each_keys (fun _ d => normalize_entry d)
              (fun acc k =>
                 d <- lookup acc k ;;
                 g0 <- get_gene d 0 ;;
                 g1 <- get_gene d 1 ;;
                 g2 <- get_gene d 2 ;;
                 let gene_probabilities_sum := 0 + g0 + g1 + g2 in
                 gene_factor <- py_div 1 gene_probabilities_sum ;;
                 g0 <- get_gene d 0 ;;
                 d <- set_gene d 0 (gene_factor * g0) ;;
                 g1 <- get_gene d 1 ;;
                 d <- set_gene d 1 (gene_factor * g1) ;;
                 g2 <- get_gene d 2 ;;
                 d <- set_gene d 2 (gene_factor * g2) ;;
                 let trait_probabilities_sum :=
                   0 + get_trait d true + get_trait d false in
                 trait_factor <- py_div 1 trait_probabilities_sum ;;
                 let d := set_trait d true (trait_factor * get_trait d true) in
                 let d := set_trait d false (trait_factor * get_trait d false) in
                 Ok (dict_set acc k d))
              normalize_body probabilities [])
    as (probs' & Hloop & HF).
  - exact Hnd.
  - intros k d Hin. destruct (Hsum k d Hin) as [Hg Ht].
    destruct (normalize_entry_ok Hg Ht) as (d' & Hd' & _). eauto.
  - exists probs'. simpl in Hloop. split; [exact Hloop|].
    pose proof (Forall2_keys (fun _ d d' => normalize_entry d = Ok d') HF) as Hk.
    split; [exact Hk|].
    intros k d Hin.
    destruct (Forall2_entry (fun _ d d' => normalize_entry d = Ok d') _ _ HF Hin)
      as (d' & Hin' & Hd').
    exists d'. split.
    + apply dict_get_in; [rewrite Hk; assumption | assumption].
    + destruct (Hsum k d Hin) as [Hg Ht].
      destruct (normalize_entry_ok Hg Ht) as (d'' & Hd'' & Hprops).
      assert (d'' = d') as -> by congruence. exact Hprops.
Qed.

(** In exact arithmetic: when every person's gene values and trait values
    have a nonzero sum, [normalize] returns an accumulator with the same
    people in which each distribution sums to exactly 1 and every value is
    the original value divided by the original sum of its distribution.
    With the rounding of binary64 the sums are 1 only up to a rounding
    error: see [NormalizeFloatFacts]. *)
Theorem normalize_sums_to_one (probabilities : accumulator) :
  NoDup (keys probabilities) ->
  (forall k d, In (k, d) probabilities ->
     ~ gene_sum d == 0 /\ ~ trait_sum d == 0) ->
  exists probabilities',
    normalize probabilities = Ok probabilities' /\
    keys probabilities' = keys probabilities /\
    forall k d, In (k, d) probabilities ->
      exists d', dict_get probabilities' k = Some d' /\
        gene_sum d' == 1 /\ trait_sum d' == 1 /\
        gene0 d' == gene0 d / gene_sum d /\
        gene1 d' == gene1 d / gene_sum d /\
        gene2 d' == gene2 d / gene_sum d /\
        trait_true d' == trait_true d / trait_sum d /\
        trait_false d' == trait_false d / trait_sum d.
Proof. exact (@normalize_entries probabilities). Qed.

Lemma normalize_sums_to_one_witness :
  NoDup (keys sample_accumulator) /\
  (forall k d, In (k, d) sample_accumulator ->
     ~ gene_sum d == 0 /\ ~ trait_sum d == 0) /\
  exists probabilities',
    normalize sample_accumulator = Ok probabilities' /\
    keys probabilities' = keys sample_accumulator /\
    forall k d, In (k, d) sample_accumulator ->
      exists d', dict_get probabilities' k = Some d' /\
        gene_sum d' == 1 /\ trait_sum d' == 1 /\
        gene0 d' == gene0 d / gene_sum d /\
        gene1 d' == gene1 d / gene_sum d /\
        gene2 d' == gene2 d / gene_sum d /\
        trait_true d' == trait_true d / trait_sum d /\
        trait_false d' == trait_false d / trait_sum d.
Proof.
  assert (NoDup (keys sample_accumulator)) as Hnd.
  { simpl. constructor; [simpl; tauto | constructor]. }
  assert (forall k d, In (k, d) sample_accumulator ->
            ~ gene_sum d == 0 /\ ~ trait_sum d == 0) as Hsum.
  { intros k d [E|[]]. inversion E; subst.
    split; vm_compute; discriminate. }
  split; [exact Hnd|]. split; [exact Hsum|].
  exact (@normalize_sums_to_one sample_accumulator Hnd Hsum).
Defined.

(** *** [load_data] *)

Lemma load_data_loop (rows : list csv_row) : forall data,
  (forall row, In row rows -> complete row) ->
  exists pop,
    for_each rows data
      (fun data row =>
         nm <- lookup row "name" ;;
         m <- lookup row "mother" ;;
         f <- lookup row "father" ;;
         t <- lookup row "trait" ;;
         Ok (dict_set data nm
               {| name := nm;
                  mother := or_None m;
                  father := or_None f;
                  trait := if String.eqb t "1" then Some true
                           else if String.eqb t "0" then Some false
                           else None |})) = Ok pop /\
    forall n, dict_get pop n =
              match entry_for n rows with
              | Some e => Some e
              | None => dict_get data n
              end.
Proof.
  induction rows as [|row t IH]; intros data Hc.
  - exists data. simpl. auto.
  - destruct (Hc row (or_introl eq_refl)) as [p Hp].
    unfold person_of_row in Hp.
    destruct (dict_get row "name") as [nm|] eqn:En; [|discriminate].
    destruct (dict_get row "mother") as [m|] eqn:Em; [|discriminate].
    destruct (dict_get row "father") as [f|] eqn:Ef; [|discriminate].
    destruct (dict_get row "trait") as [tr|] eqn:Et; [|discriminate].
    simpl. unfold lookup. rewrite En, Em, Ef, Et. simpl.
    inversion Hp as [Ep]. rewrite Ep.
    destruct (IH (dict_set data nm p)) as (pop & Hloop & Hget).
    { intros; apply Hc; right; assumption. }
    exists pop. split; [exact Hloop|].
    intros n. rewrite Hget.
    destruct (entry_for n t); [reflexivity|].
    unfold person_of_row. rewrite En, Em, Ef, Et. rewrite Ep.
    rewrite dict_get_set.
    assert (name p = nm) as -> by (rewrite <- Ep; reflexivity).
    destruct (String.eqb nm n); reflexivity.
Qed.

(** C4, as the code behaves: [load_data] does not look at the parent
    references at all.  Whenever the rows carry the four columns it returns
    the population that maps every name to the record of its last row. *)
Theorem load_data_no_validation (rows : list csv_row) :
  (forall row, In row rows -> complete row) ->
  exists pop, load_data rows = Ok pop /\
    forall n, dict_get pop n = entry_for n rows.
Proof.
  intros Hc. destruct (@load_data_loop rows [] Hc) as (pop & Hloop & Hget).
  exists pop. split; [exact Hloop|].
  intros n. rewrite Hget. destruct (entry_for n rows); reflexivity.
Qed.

Lemma load_data_no_validation_witness :
  (forall row, In row dangling_rows -> complete row) /\
  exists pop, load_data dangling_rows = Ok pop /\
    forall n, dict_get pop n = entry_for n dangling_rows.
Proof.
  assert (forall row, In row dangling_rows -> complete row) as Hc.
  { intros row [<-|[]]. eexists. reflexivity. }
  split; [exact Hc|]. exact (@load_data_no_validation dangling_rows Hc).
Defined.

(** The rows name a mother who is not in the file and leave the father
    blank; loading succeeds all the same. *)
Lemma load_data_accepts_bad_parents :
  bad_parents dangling_rows /\
  load_data dangling_rows =
  Ok [("Harry"%string,
       {| name := "Harry"; mother := Some "Lily"%string;
          father := None; trait := None |})].
Proof.
  split; [|reflexivity].
  exists (hd [] dangling_rows). eexists.
  split; [left; reflexivity|]. split; [reflexivity|].
  left. exists "Lily"%string. split; [left; reflexivity|].
  intros row' p' [<-|[]] Hp'. inversion Hp'; subst. simpl. discriminate.
Qed.

(** *** [joint_probability] *)

Lemma num_of_genes_geneCount (one_gene two_genes : list string)
    (p : option string) :
  disjoint one_gene two_genes ->
  person_num_of_genes p one_gene two_genes = geneCount one_gene two_genes p.
Proof.
  intros Hd. destruct p as [x|]; simpl; [|reflexivity].
  destruct (in_set x one_gene) eqn:E1, (in_set x two_genes) eqn:E2;
    try reflexivity.
  exfalso. apply (Hd x); apply in_set_In; assumption.
Qed.

Lemma geneCount_cases (one_gene two_genes : list string) (p : option string) :
  geneCount one_gene two_genes p = 0%nat \/
  geneCount one_gene two_genes p = 1%nat \/
  geneCount one_gene two_genes p = 2%nat.
Proof.
  destruct p as [x|]; simpl; [|auto].
  destruct (in_set x two_genes), (in_set x one_gene); auto.
Qed.

Lemma joint_probability_unfold (people : population)
    (one_gene two_genes have_trait : list string) :
  joint_probability people one_gene two_genes have_trait =
  for_each (keys people) 1
    (fun probability person =>
       entry <- lookup people person ;;
       jp_step one_gene two_genes have_trait probability person entry).
Proof. reflexivity. Qed.

Lemma jp_step_spec (one_gene two_genes have_trait : list string)
    (probability : Q) (person : string) (entry : Heredity.person) :
  disjoint one_gene two_genes ->
  exists q,
    jp_step one_gene two_genes have_trait probability person entry = Ok q /\
    q == probability * contribution one_gene two_genes have_trait person entry.
Proof.
  intros Hd. unfold jp_step, contribution.
  rewrite !(num_of_genes_geneCount _ Hd).
  pose proof (geneCount_cases one_gene two_genes (Some person)) as Hg.
  pose proof (geneCount_cases one_gene two_genes (mother entry)) as Hm.
  pose proof (geneCount_cases one_gene two_genes (father entry)) as Hf.
  remember (geneCount one_gene two_genes (Some person)) as g eqn:Eg.
  remember (geneCount one_gene two_genes (mother entry)) as gm eqn:Egm.
  remember (geneCount one_gene two_genes (father entry)) as gf eqn:Egf.
  clear Eg Egm Egf.
  destruct (in_set person have_trait);
    destruct (mother entry) as [m|], (father entry) as [f|];
    destruct Hg as [->|[->| ->]];
    destruct Hm as [->|[->| ->]];
    destruct Hf as [->|[->| ->]];
    simpl; eexists; (split; [reflexivity|]);
    unfold transmission, transmit, Likelihood, Prior, PROBS_mutation; ring.
Qed.

Lemma jp_loop (people : population)
    (one_gene two_genes have_trait : list string) :
  disjoint one_gene two_genes ->
  forall suf acc,
    (forall k e, In (k, e) suf -> lookup people k = Ok e) ->
    exists q,
      for_each (keys suf) acc
        (fun probability person =>
           entry <- lookup people person ;;
           jp_step one_gene two_genes have_trait probability person entry) = Ok q /\
      q == acc * productQ (map (fun '(key, entry) =>
                                  contribution one_gene two_genes have_trait key entry)
                               suf).
Proof.
  intros Hd. induction suf as [|[k e] t IH]; intros acc Hl.
  - exists acc. simpl. split; [reflexivity | ring].
  - simpl. rewrite (Hl k e (or_introl eq_refl)). simpl.
    destruct (@jp_step_spec one_gene two_genes have_trait acc k e Hd) as (q1 & Hq1 & Eq1).
    rewrite Hq1. simpl.
    destruct (IH q1) as (q & Hq & Eq).
    { intros; apply Hl; right; assumption. }
    exists q. split; [exact Hq|].
    rewrite Eq, Eq1. ring.
Qed.

(** C2: for disjoint [one_gene] and [two_genes], [joint_probability] returns
    the product over all persons of the contribution the specification gives:
    prior times likelihood for a founder, two-parent transmission probability
    times likelihood for anyone else. *)
Theorem joint_probability_product (people : population)
    (one_gene two_genes have_trait : list string) :
  NoDup (keys people) ->
  disjoint one_gene two_genes ->
  exists q,
    joint_probability people one_gene two_genes have_trait = Ok q /\
    q == joint_probability_spec people one_gene two_genes have_trait.
Proof.
  intros Hnd Hd. rewrite joint_probability_unfold.
  destruct (@jp_loop people one_gene two_genes have_trait Hd people 1)
    as (q & Hq & Eq).
  { intros k e Hin. unfold lookup. rewrite (@dict_get_in _ people k e Hnd Hin). reflexivity. }
  exists q. split; [exact Hq|].
  rewrite Eq. unfold joint_probability_spec. ring.
Qed.

Lemma joint_probability_product_witness :
  NoDup (keys sample_family) /\
  disjoint ["Harry"%string] ["James"%string] /\
  exists q,
    joint_probability sample_family ["Harry"%string] ["James"%string]
      ["James"%string] = Ok q /\
    q == joint_probability_spec sample_family ["Harry"%string] ["James"%string]
           ["James"%string].
Proof.
  assert (NoDup (keys sample_family)) as Hnd.
  { simpl. repeat constructor; simpl; intuition discriminate. }
  assert (disjoint ["Harry"%string] ["James"%string]) as Hd.
  { intros x [<-|[]] [E|[]]. discriminate. }
  split; [exact Hnd|]. split; [exact Hd|].
  exact (@joint_probability_product sample_family _ _ ["James"%string] Hnd Hd).
Defined.

(** The value on the family used in the course material. *)
Example joint_probability_family :
  exists q,
    joint_probability sample_family ["Harry"%string] ["James"%string]
      ["James"%string] = Ok q /\
    q == 0.0026643247488.
Proof. eexists. split; [reflexivity|]. vm_compute. reflexivity. Qed.

End HeredityFacts.

(** ** heredity.py: the enumeration of [main] *)

Module EnumerationFacts.
Import Heredity HeredityFacts.
Local Open Scope Q_scope.

(** *** Every joint probability is strictly positive *)

Lemma person_num_cases (one_gene two_genes : list string) (p : option string) :
  person_num_of_genes p one_gene two_genes = 0%nat \/
  person_num_of_genes p one_gene two_genes = 1%nat \/
  person_num_of_genes p one_gene two_genes = 2%nat.
Proof.
  destruct p as [x|]; simpl; [|auto].
  destruct (in_set x one_gene), (in_set x two_genes); auto.
Qed.

Ltac positive_product :=
  repeat first
    [ assumption
    | apply Qmult_lt_0_compat
    | reflexivity ].

Lemma jp_step_positive (one_gene two_genes have_trait : list string)
    (probability : Q) (person : string) (entry : Heredity.person) :
  0 < probability ->
  exists q,
    jp_step one_gene two_genes have_trait probability person entry = Ok q /\
    0 < q.
Proof.
  intros Hp. unfold jp_step.
  pose proof (person_num_cases one_gene two_genes (Some person)) as Hg.
  pose proof (person_num_cases one_gene two_genes (mother entry)) as Hm.
  pose proof (person_num_cases one_gene two_genes (father entry)) as Hf.
  remember (person_num_of_genes (Some person) one_gene two_genes) as g eqn:Eg.
  remember (person_num_of_genes (mother entry) one_gene two_genes) as gm eqn:Egm.
  remember (person_num_of_genes (father entry) one_gene two_genes) as gf eqn:Egf.
  clear Eg Egm Egf.
  destruct (in_set person have_trait);
    destruct (mother entry) as [m|], (father entry) as [f|];
    destruct Hg as [->|[->| ->]];
    destruct Hm as [->|[->| ->]];
    destruct Hf as [->|[->| ->]];
    simpl; eexists; (split; [reflexivity|]); positive_product.
Qed.

Lemma joint_probability_positive (people : population)
    (one_gene two_genes have_trait : list string) :
  exists q,
    joint_probability people one_gene two_genes have_trait = Ok q /\ 0 < q.
Proof.
  rewrite joint_probability_unfold.
  assert (forall ks acc, (forall k, In k ks -> In k (keys people)) -> 0 < acc ->
            exists q,
              for_each ks acc
                (fun probability person =>
                   entry <- lookup people person ;;
                   jp_step one_gene two_genes have_trait probability person entry)
              = Ok q /\ 0 < q) as Hloop.
  { induction ks as [|k t IH]; intros acc Hin Hacc.
    - exists acc. simpl. auto.
    - simpl.
      destruct (dict_get people k) as [e|] eqn:E.
      2:{ apply dict_get_None in E. exfalso. apply E. apply Hin. left; reflexivity. }
      unfold lookup. rewrite E. simpl.
      destruct (@jp_step_positive one_gene two_genes have_trait acc k e Hacc)
        as (q1 & Hq1 & Hpos).
      rewrite Hq1. simpl.
      apply IH; [intros; apply Hin; right; assumption | assumption]. }
  apply Hloop; [auto | reflexivity].
Qed.

(** *** [update] adds [p] to one gene value and one trait value of everyone *)

Lemma update_entry_ok (one_gene two_genes have_trait : list string) (p : Q)
    (person : string) (d : distribution) :
  exists d', update_entry one_gene two_genes have_trait p person d = Ok d' /\
    gene_sum d' == gene_sum d + p /\ trait_sum d' == trait_sum d + p.
Proof.
  unfold update_entry.
  destruct (person_num_cases one_gene two_genes (Some person)) as [E|[E|E]];
    rewrite E; clear E; destruct (in_set person have_trait);
    simpl; eexists; (split; [reflexivity|]);
    unfold gene_sum, trait_sum; simpl; split; ring.
Qed.

Lemma update_balanced (acc : accumulator)
    (one_gene two_genes have_trait : list string) (p s : Q) :
  NoDup (keys acc) -> balanced_at s acc ->
  exists acc', update acc one_gene two_genes have_trait p = Ok acc' /\
    keys acc' = keys acc /\ balanced_at (s + p) acc'.
Proof.
  intros Hnd Hb.
  destruct (for_each_keys (update_entry one_gene two_genes have_trait p)
              (fun probabilities person =>
                 let num_of_genes :=
                   person_num_of_genes (Some person) one_gene two_genes in
                 let has_trait := in_set person have_trait in
                 d <- lookup probabilities person ;;
                 g <- get_gene d num_of_genes ;;
                 d1 <- set_gene d num_of_genes (g + p) ;;
                 let d2 := set_trait d1 has_trait (get_trait d1 has_trait + p) in
                 Ok (dict_set probabilities person d2))) with (suf := acc)
         (pre := @nil (string * distribution))
    as (acc' & Hloop & HF).
  - intros a k v Hl. simpl. rewrite Hl. simpl. unfold update_entry.
    destruct (get_gene v _); simpl; [|reflexivity].
    destruct (set_gene v _ _); reflexivity.
  - exact Hnd.
  - intros k d _.
    destruct (update_entry_ok one_gene two_genes have_trait p k d) as (d' & H & _).
    eauto.
  - exists acc'. simpl in Hloop. split; [exact Hloop|].
    split; [exact (Forall2_keys
                     (fun k d d' =>
                        update_entry one_gene two_genes have_trait p k d = Ok d')
                     HF)|].
    intros k d' Hin'.
    assert (exists d, In (k, d) acc /\
              update_entry one_gene two_genes have_trait p k d = Ok d')
      as (d & Hin & Hd).
    { clear - HF Hin'. induction HF as [|[k0 v0] [k1 v1] t t' [E HR] _ IH];
        simpl in *; [tauto|].
      subst k1. destruct Hin' as [Heq|Hin'].
      - inversion Heq; subst. exists v0. auto.
      - destruct (IH Hin') as (d & ? & ?). exists d. auto. }
    destruct (update_entry_ok one_gene two_genes have_trait p k d)
      as (d'' & Hd'' & Hg & Ht).
    assert (d'' = d') as -> by congruence.
    destruct (Hb k d Hin) as [Hgs Hts].
    rewrite Hg, Ht, Hgs, Hts. split; reflexivity.
Qed.

(** *** Subsets enumerated by [powerset] *)

Lemma combinations_filter {A} (f : A -> bool) (l : list A) :
  In (filter f l) (combinations l (List.length (filter f l))).
Proof.
  induction l as [|x t IH]; simpl; [auto|].
  destruct (f x); simpl.
  - apply in_or_app. left. apply in_map. exact IH.
  - destruct (filter f t) as [|y u] eqn:E; simpl in *.
    + auto.
    + apply in_or_app. right. exact IH.
Qed.

Section Enumeration.

Variable set_list : list string -> list string.
Hypothesis set_list_perm : forall l, Permutation (set_list l) l.

Lemma in_set_list (l : list string) (x : string) : In x (set_list l) <-> In x l.
Proof.
  split; apply Permutation_in;
    [apply set_list_perm | apply Permutation_sym, set_list_perm].
Qed.

Lemma powerset_filter (f : string -> bool) (s : list string) :
  In (filter f (set_list s)) (powerset set_list s).
Proof.
  unfold powerset. apply in_flat_map.
  exists (List.length (filter f (set_list s))). split.
  - apply in_seq. pose proof (filter_length_le f (set_list s)). lia.
  - apply combinations_filter.
Qed.

Lemma powerset_nonempty (s : list string) : powerset set_list s <> [].
Proof.
  intros E. pose proof (powerset_filter (fun _ => false) s) as H.
  rewrite E in H. destruct H.
Qed.

Lemma pos_nonneg (ks : list string) (acc : accumulator) :
  pos_state ks acc -> nonneg_state ks acc.
Proof.
  intros (Hk & s & Hs & Hb). split; [assumption|].
  exists s. split; [apply Qlt_le_weak; assumption | assumption].
Qed.

Lemma loop_preserves {A} (Inv : accumulator -> Prop) (l : list A) body :
  (forall acc x, In x l -> Inv acc -> exists acc', body acc x = Ok acc' /\ Inv acc') ->
  forall acc, Inv acc -> exists acc', for_each l acc body = Ok acc' /\ Inv acc'.
Proof.
  induction l as [|x t IH]; intros Hb acc Hacc; simpl; [eauto|].
  destruct (Hb acc x (or_introl eq_refl) Hacc) as (acc1 & H1 & Hinv1).
  rewrite H1. simpl.
  apply IH; [intros; apply Hb; [right|]; assumption | assumption].
Qed.

(** If every pass keeps the state and one pass makes it positive, the loop
    ends in a positive state. *)
Lemma loop_reaches {A} (ks : list string) (l : list A) body (x0 : A) :
  In x0 l ->
  (forall acc x, In x l -> nonneg_state ks acc ->
     exists acc', body acc x = Ok acc' /\ nonneg_state ks acc') ->
  (forall acc x, In x l -> pos_state ks acc ->
     exists acc', body acc x = Ok acc' /\ pos_state ks acc') ->
  (forall acc, nonneg_state ks acc ->
     exists acc', body acc x0 = Ok acc' /\ pos_state ks acc') ->
  forall acc, nonneg_state ks acc ->
    exists acc', for_each l acc body = Ok acc' /\ pos_state ks acc'.
Proof.
  intros Hin Hn Hp H0 acc Hacc.
  destruct (in_split _ _ Hin) as (l1 & l2 & ->).
  rewrite for_each_app.
  destruct (@loop_preserves A (nonneg_state ks) l1 body) with (acc := acc)
    as (acc1 & H1 & Hinv1); [|assumption|].
  { intros a x Hx. apply Hn. apply in_or_app. left. assumption. }
  rewrite H1. simpl.
  destruct (H0 acc1 Hinv1) as (acc2 & H2 & Hinv2).
  rewrite H2. simpl.
  apply (@loop_preserves A (pos_state ks) l2 body); [|assumption].
  intros a x Hx. apply Hp. apply in_or_app. right. right. assumption.
Qed.

Lemma loop_all_positive {A} (ks : list string) (l : list A) body :
  l <> [] ->
  (forall acc x, In x l -> nonneg_state ks acc ->
     exists acc', body acc x = Ok acc' /\ pos_state ks acc') ->
  forall acc, nonneg_state ks acc ->
    exists acc', for_each l acc body = Ok acc' /\ pos_state ks acc'.
Proof.
  intros Hne Hb acc Hacc.
  destruct l as [|x0 t]; [congruence|].
  apply (@loop_reaches A ks (x0 :: t) body x0); auto.
  - left; reflexivity.
  - intros a x Hx Ha. destruct (Hb a x Hx Ha) as (a' & H & Hp).
    exists a'. split; [assumption | apply pos_nonneg; assumption].
  - intros a x Hx Ha. apply Hb; [assumption | apply pos_nonneg; assumption].
  - intros a Ha. apply Hb; [left; reflexivity | assumption].
Qed.

Variable people : population.
Hypothesis people_nodup : NoDup (keys people).

(** The innermost statement of [main]. *)
Lemma accumulate_step (acc : accumulator)
    (one_gene two_genes have_trait : list string) :
  nonneg_state (keys people) acc ->
  exists acc',
    (p <- joint_probability people one_gene two_genes have_trait ;;
     update acc one_gene two_genes have_trait p) = Ok acc' /\
    pos_state (keys people) acc'.
Proof.
  intros (Hk & s & Hs & Hb).
  destruct (joint_probability_positive people one_gene two_genes have_trait)
    as (q & Hq & Hpos).
  rewrite Hq. simpl.
  destruct (@update_balanced acc one_gene two_genes have_trait q s)
    as (acc' & Hu & Hk' & Hb'); [rewrite Hk; assumption | assumption |].
  exists acc'. split; [assumption|]. split; [congruence|].
  exists (s + q). split; [|assumption].
  apply Qlt_le_trans with (0 + q); [rewrite Qplus_0_l; assumption|].
  apply Qplus_le_l. assumption.
Qed.

(** The two loops over the gene assignments, for one set [have_trait]. *)
Lemma gene_loops (acc : accumulator) (have_trait : list string) :
  nonneg_state (keys people) acc ->
  exists acc',
    for_each (powerset set_list (keys people)) acc
      (fun probabilities one_gene =>
         for_each
           (powerset set_list
              (filter (fun x => negb (in_set x one_gene)) (keys people)))
           probabilities
           (fun probabilities two_genes =>
              p <- joint_probability people one_gene two_genes have_trait ;;
              update probabilities one_gene two_genes have_trait p)) = Ok acc' /\
    pos_state (keys people) acc'.
Proof.
  apply loop_all_positive; [apply powerset_nonempty|].
  intros acc1 one_gene _.
  apply loop_all_positive; [apply powerset_nonempty|].
  intros acc2 two_genes _. apply accumulate_step.
Qed.

Lemma lookup_key (k : string) :
  In k (keys people) -> exists e, lookup people k = Ok e.
Proof.
  intros Hin. unfold lookup.
  destruct (dict_get people k) as [e|] eqn:E; [eauto|].
  apply dict_get_None in E. contradiction.
Qed.

Lemma any_of_total (l : list string) (have_trait : list string) :
  (forall k, In k l -> In k (keys people)) ->
  exists r, any_of l (evidence_test people have_trait) = Ok r.
Proof.
  induction l as [|k t IH]; intros Hin; simpl; [eauto|].
  unfold evidence_test at 1.
  destruct (lookup_key k (Hin k (or_introl eq_refl))) as [e He].
  rewrite He. simpl.
  assert (exists r, any_of t (evidence_test people have_trait) = Ok r) as [r Hr]
    by (apply IH; intros; apply Hin; right; assumption).
  destruct (trait e) as [tr|]; simpl.
  - destruct (negb _); [eauto | rewrite Hr; eauto].
  - rewrite Hr; eauto.
Qed.

Lemma any_of_consistent (l : list string) (have_trait : list string) :
  (forall k, In k l -> In k (keys people)) ->
  (forall k, In k l -> in_set k have_trait = known_true people k) ->
  any_of l (evidence_test people have_trait) = Ok false.
Proof.
  induction l as [|k t IH]; intros Hin Hht; simpl; [reflexivity|].
  unfold evidence_test at 1.
  destruct (lookup_key k (Hin k (or_introl eq_refl))) as [e He].
  rewrite He. simpl.
  assert (any_of t (evidence_test people have_trait) = Ok false) as Hr.
  { apply IH; intros; [apply Hin | apply Hht]; right; assumption. }
  pose proof (Hht k (or_introl eq_refl)) as Hk.
  unfold known_true in Hk. unfold lookup in He.
  destruct (dict_get people k) as [e'|]; [|discriminate].
  inversion He; subst e'.
  destruct (trait e) as [[|]|]; rewrite ?Hk; simpl; exact Hr.
Qed.

Lemma in_set_filter (f : string -> bool) (l : list string) (k : string) :
  In k l -> in_set k (filter f l) = f k.
Proof.
  intros Hin. destruct (f k) eqn:E.
  - apply in_set_In. apply filter_In. auto.
  - destruct (in_set k (filter f l)) eqn:E'; [|reflexivity].
    apply in_set_In in E'. apply filter_In in E'. destruct E'; congruence.
Qed.

Lemma enumerate_unfold :
  enumerate set_list people =
  for_each (powerset set_list (keys people))
    (map (fun person => (person, zero_distribution)) (keys people))
    (fun probabilities have_trait =>
       fails_evidence <-
         any_of (set_list (keys people)) (evidence_test people have_trait) ;;
       if fails_evidence then Ok probabilities
       else
         for_each (powerset set_list (keys people)) probabilities
           (fun probabilities one_gene =>
              for_each
                (powerset set_list
                   (filter (fun x => negb (in_set x one_gene)) (keys people)))
                probabilities
                (fun probabilities two_genes =>
                   p <- joint_probability people one_gene two_genes have_trait ;;
                   update probabilities one_gene two_genes have_trait p))).
Proof. reflexivity. Qed.

Lemma enumerate_positive :
  exists acc, enumerate set_list people = Ok acc /\ pos_state (keys people) acc.
Proof.
  rewrite enumerate_unfold.
  apply (@loop_reaches (list string) (keys people) _ _
           (filter (known_true people) (set_list (keys people)))).
  - apply powerset_filter.
  - intros acc ht _ Hacc.
    destruct (any_of_total (set_list (keys people)) ht) as [r Hr].
    { intros k Hk. apply in_set_list. assumption. }
    rewrite Hr. simpl. destruct r; [eauto|].
    destruct (gene_loops ht Hacc) as (acc' & H & Hp).
    exists acc'. split; [assumption | apply pos_nonneg; assumption].
  - intros acc ht _ Hacc.
    destruct (any_of_total (set_list (keys people)) ht) as [r Hr].
    { intros k Hk. apply in_set_list. assumption. }
    rewrite Hr. simpl. destruct r; [eauto|].
    apply gene_loops. apply pos_nonneg. assumption.
  - intros acc Hacc.
    rewrite any_of_consistent.
    + simpl. apply gene_loops. assumption.
    + intros k Hk. apply in_set_list. assumption.
    + intros k Hk. apply in_set_filter. assumption.
  - split.
    + unfold keys. rewrite map_map. simpl. apply map_id.
    + exists 0. split; [apply Qle_refl|].
      intros k d Hin. apply in_map_iff in Hin. destruct Hin as (x & E & _).
      inversion E; subst. split; reflexivity.
Qed.

(** C10: after the enumeration loop of [main] every person's gene values and
    trait values have a strictly positive sum, so [normalize] divides by
    nonzero numbers and returns. *)
Theorem enumeration_sums_positive :
  exists acc,
    enumerate set_list people = Ok acc /\
    keys acc = keys people /\
    (forall k d, In (k, d) acc -> 0 < gene_sum d /\ 0 < trait_sum d) /\
    exists acc', normalize acc = Ok acc'.
Proof.
  destruct enumerate_positive as (acc & Hen & Hk & s & Hs & Hb).
  exists acc. split; [assumption|]. split; [assumption|].
  assert (forall k d, In (k, d) acc -> 0 < gene_sum d /\ 0 < trait_sum d) as Hpos.
  { intros k d Hin. destruct (Hb k d Hin) as [Hg Ht].
    rewrite Hg, Ht. auto. }
  split; [exact Hpos|].
  destruct (@normalize_entries acc) as (acc' & Hn & _).
  - rewrite Hk. assumption.
  - intros k d Hin. destruct (Hpos k d Hin) as [Hg Ht].
    split; intros E; rewrite E in *; [apply (Qlt_irrefl 0 Hg) | apply (Qlt_irrefl 0 Ht)].
  - eauto.
Qed.

End Enumeration.

Lemma enumeration_sums_positive_witness :
  (forall l : list string, Permutation ((fun l => l) l) l) /\
  NoDup (keys sample_family) /\
  exists acc,
    enumerate (fun l => l) sample_family = Ok acc /\
    keys acc = keys sample_family /\
    (forall k d, In (k, d) acc -> 0 < gene_sum d /\ 0 < trait_sum d) /\
    exists acc', normalize acc = Ok acc'.
Proof.
  assert (forall l : list string, Permutation ((fun l => l) l) l) as P
    by (intros l; apply Permutation_refl).
  assert (NoDup (keys sample_family)) as Hnd.
  { simpl. repeat constructor; simpl; intuition discriminate. }
  split; [exact P|]. split; [exact Hnd|].
  exact (@enumeration_sums_positive (fun l => l) P sample_family Hnd).
Defined.

End EnumerationFacts.

Unset Implicit Arguments.

(** ** Finite sums of rationals *)

Section SumFacts.

Local Open Scope Q_scope.
Context {A : Type}.

Lemma sumQ_map_ext (f g : A -> Q) (l : list A) :
  (forall a, In a l -> f a == g a) -> sumQ (map f l) == sumQ (map g l).
Proof.
  induction l as [|a t IH]; intros H; simpl; [reflexivity|].
  rewrite (H a (or_introl eq_refl)), IH; [reflexivity|].
  intros; apply H; right; assumption.
Qed.

Lemma sumQ_map_le (f g : A -> Q) (l : list A) :
  (forall a, In a l -> f a <= g a) -> sumQ (map f l) <= sumQ (map g l).
Proof.
  induction l as [|a t IH]; intros H; simpl; [apply Qle_refl|].
  apply Qplus_le_compat; [apply H; left; reflexivity|].
  apply IH. intros; apply H; right; assumption.
Qed.

Lemma sumQ_map_nonneg (f : A -> Q) (l : list A) :
  (forall a, In a l -> 0 <= f a) -> 0 <= sumQ (map f l).
Proof.
  induction l as [|a t IH]; intros H; simpl; [apply Qle_refl|].
  apply Qle_trans with (0 + 0); [apply Qle_refl|].
  apply Qplus_le_compat; [apply H; left; reflexivity|].
  apply IH. intros; apply H; right; assumption.
Qed.

Lemma sumQ_map_plus (f g : A -> Q) (l : list A) :
  sumQ (map (fun a => f a + g a) l) == sumQ (map f l) + sumQ (map g l).
Proof. induction l as [|a t IH]; simpl; [ring | rewrite IH; ring]. Qed.

Lemma sumQ_map_scal (c : Q) (f : A -> Q) (l : list A) :
  sumQ (map (fun a => c * f a) l) == c * sumQ (map f l).
Proof. induction l as [|a t IH]; simpl; [ring | rewrite IH; ring]. Qed.

Lemma sumQ_map_const (c : Q) (l : list A) :
  sumQ (map (fun _ => c) l) == inject_Z (Z.of_nat (List.length l)) * c.
Proof.
  induction l as [|a t IH]; [simpl; ring|].
  change (sumQ (map (fun _ => c) (a :: t))) with (c + sumQ (map (fun _ => c) t)).
  rewrite IH. change (List.length (a :: t)) with (S (List.length t)).
  rewrite Nat2Z.inj_succ. unfold Z.succ. rewrite inject_Z_plus. ring.
Qed.

Lemma sumQ_map_abs (f : A -> Q) (l : list A) :
  Qabs (sumQ (map f l)) <= sumQ (map (fun a => Qabs (f a)) l).
Proof.
  induction l as [|a t IH]; simpl; [apply Qle_refl|].
  eapply Qle_trans; [apply Qabs_triangle|].
  apply Qplus_le_compat; [apply Qle_refl | exact IH].
Qed.

Lemma sumQ_term_le (f : A -> Q) (l : list A) (a : A) :
  (forall b, In b l -> 0 <= f b) -> In a l -> f a <= sumQ (map f l).
Proof.
  induction l as [|b t IH]; intros Hn Hin; [destruct Hin|].
  simpl. destruct Hin as [->|Hin].
  - rewrite <- (Qplus_0_r (f a)) at 1.
    apply Qplus_le_compat; [apply Qle_refl|].
    apply sumQ_map_nonneg. intros; apply Hn; right; assumption.
  - rewrite <- (Qplus_0_l (f a)).
    apply Qplus_le_compat; [apply Hn; left; reflexivity|].
    apply IH; [intros; apply Hn; right; assumption | assumption].
Qed.

Lemma sumQ_map_if (b : A -> bool) (x y : Q) (l : list A) :
  sumQ (map (fun a => if b a then x else y) l) ==
  inject_Z (Z.of_nat (List.length (filter b l))) * x
  + inject_Z (Z.of_nat (List.length (filter (fun a => negb (b a)) l))) * y.
Proof.
  induction l as [|a t IH]; [simpl; ring|].
  change (sumQ (map (fun a => if b a then x else y) (a :: t)))
    with ((if b a then x else y) + sumQ (map (fun a => if b a then x else y) t)).
  rewrite IH. simpl filter. destruct (b a); simpl negb; cbv iota;
    change (List.length (a :: ?l)) with (S (List.length l));
    simpl List.length; rewrite Nat2Z.inj_succ; unfold Z.succ;
    rewrite inject_Z_plus; ring.
Qed.

End SumFacts.

Lemma sumQ_swap {A B} (f : A -> B -> Q) (la : list A) (lb : list B) :
  (sumQ (map (fun a => sumQ (map (fun b => f a b) lb)) la) ==
   sumQ (map (fun b => sumQ (map (fun a => f a b) la)) lb))%Q.
Proof.
  induction la as [|a t IH]; simpl.
  - induction lb as [|b u IHb]; simpl; [reflexivity|].
    rewrite <- IHb. ring.
  - rewrite IH. rewrite <- sumQ_map_plus. reflexivity.
Qed.

Lemma filter_in_set_length (l s : list string) :
  NoDup l -> NoDup s -> (forall x, In x s -> In x l) ->
  List.length (filter (fun k => in_set k s) l) = List.length s.
Proof.
  intros Hl Hs Hincl. apply Permutation_length.
  apply NoDup_Permutation; [apply NoDup_filter; assumption | assumption|].
  intros x. rewrite filter_In, in_set_In. split; [tauto|]. auto.
Qed.

Lemma filter_length_split {A} (b : A -> bool) (l : list A) :
  (List.length (filter b l) + List.length (filter (fun a => negb (b a)) l)
   = List.length l)%nat.
Proof.
  induction l as [|a t IH]; simpl; [reflexivity|].
  destruct (b a); simpl; lia.
Qed.

(** ** pagerank.py *)

Module PageRankFacts.
Import PageRank.
Local Open Scope Q_scope.

Lemma len_nonzero {A} (l : list A) : l <> [] -> ~ len l == 0.
Proof.
  intros Hne. destruct l as [|a t]; [congruence|].
  unfold len, Qeq. simpl. lia.
Qed.

Lemma len_positive {A} (l : list A) : l <> [] -> 0 < len l.
Proof.
  intros Hne. destruct l as [|a t]; [congruence|].
  unfold len, Qlt. simpl. lia.
Qed.

Lemma py_div_ok (a b : Q) : ~ b == 0 -> py_div a b = Ok (a / b).
Proof.
  intros H. unfold py_div.
  destruct (Qeq_bool b 0) eqn:E; [|reflexivity].
  apply Qeq_bool_eq in E. contradiction.
Qed.

Lemma dict_set_new {V} (d : dict V) (k : string) (v : V) :
  ~ In k (keys d) -> dict_set d k v = d ++ [(k, v)].
Proof.
  induction d as [|[k' v'] t IH]; simpl; intros H; [reflexivity|].
  destruct (String.eqb k' k) eqn:E.
  - apply String.eqb_eq in E. tauto.
  - rewrite IH by tauto. reflexivity.
Qed.

(** A loop that stores one value per key into a dictionary. *)
Lemma build_dict {V} (f : string -> V) (body : dict V -> string -> res (dict V))
    (ks : list string) :
  (forall r k, In k ks -> body r k = Ok (dict_set r k (f k))) ->
  NoDup ks ->
  forall acc, (forall k, In k ks -> ~ In k (keys acc)) ->
    for_each ks acc body = Ok (acc ++ map (fun k => (k, f k)) ks).
Proof.
  intros Hbody. induction ks as [|k t IH]; intros Hnd acc Hfresh; simpl.
  - rewrite app_nil_r. reflexivity.
  - inversion Hnd as [|? ? Hk Hnd']; subst.
    rewrite Hbody by (left; reflexivity). simpl.
    rewrite dict_set_new by (apply Hfresh; left; reflexivity).
    rewrite IH.
    + rewrite <- app_assoc. reflexivity.
    + intros; apply Hbody; right; assumption.
    + assumption.
    + intros k' Hk'. unfold keys. rewrite map_app. simpl.
      intros Hin. apply in_app_or in Hin. destruct Hin as [Hin|[<-|[]]].
      * apply (Hfresh k' (or_intror Hk')). exact Hin.
      * contradiction.
Qed.

Lemma keys_map_pair {V} (f : string -> V) (ks : list string) :
  keys (map (fun k => (k, f k)) ks) = ks.
Proof. unfold keys. rewrite map_map. simpl. apply map_id. Qed.

Lemma snd_map_pair {V} (f : string -> V) (ks : list string) :
  map snd (map (fun k => (k, f k)) ks) = map f ks.
Proof. rewrite map_map. reflexivity. Qed.

Lemma dict_get_map_pair {V} (f : string -> V) (ks : list string) (k : string) :
  In k ks -> dict_get (map (fun k => (k, f k)) ks) k = Some (f k).
Proof.
  induction ks as [|k0 t IH]; simpl; [tauto|].
  destruct (String.eqb k0 k) eqn:E.
  - apply String.eqb_eq in E. subst. reflexivity.
  - apply String.eqb_neq in E. intros [H|H]; [congruence | auto].
Qed.

Lemma lookup_corpus (c : corpus) (page : string) (links : list string) :
  NoDup (keys c) -> In (page, links) c -> lookup c page = Ok links.
Proof.
  intros Hnd Hin. unfold lookup.
  rewrite (@dict_get_in _ c page links Hnd Hin). reflexivity.
Qed.

(** *** [transition_model] *)

Lemma transition_model_value (c : corpus) (page : string) (links : list string)
    (d : Q) :
  NoDup (keys c) -> In (page, links) c ->
  exists f,
    transition_model c page d = Ok (map (fun k => (k, f k)) (keys c)) /\
    forall p, f p == transition_spec c links d p.
Proof.
  intros Hnd Hin.
  assert (c <> []) as Hne by (intros ->; destruct Hin).
  pose proof (len_nonzero c Hne) as HN.
  unfold transition_model. rewrite (lookup_corpus c page _ Hnd Hin).
  cbv beta iota delta [bind].
  destruct links as [|l0 lt].
  - change (Nat.eqb (List.length (@nil string)) 0) with true. cbv iota.
    exists (fun _ => 1 / len c). split; [|intros; reflexivity].
    rewrite (build_dict (fun _ => 1 / len c)); auto.
    intros r k _. rewrite (py_div_ok _ _ HN). reflexivity.
  - assert (~ len (l0 :: lt) == 0) as HL by (apply len_nonzero; discriminate).
    change (Nat.eqb (List.length (l0 :: lt)) 0) with false. cbv iota.
    rewrite (py_div_ok _ _ HN). rewrite (py_div_ok _ _ HL).
    exists (fun k => if in_set k (l0 :: lt)
                     then d * (1 / len (l0 :: lt)) + (1 - d) * (1 / len c)
                     else (1 - d) * (1 / len c)).
    split.
    + rewrite (build_dict
                 (fun k => if in_set k (l0 :: lt)
                           then d * (1 / len (l0 :: lt)) + (1 - d) * (1 / len c)
                           else (1 - d) * (1 / len c))); auto.
      intros r k _. destruct (in_set k (l0 :: lt)); reflexivity.
    + intros p. unfold transition_spec.
      destruct (in_set p (l0 :: lt)); field; auto.
Qed.

Lemma transition_spec_sum (c : corpus) (page : string) (links : list string)
    (d : Q) :
  wf_corpus c -> In (page, links) c ->
  sumQ (map (transition_spec c links d) (keys c)) == 1.
Proof.
  intros [Hnd Hwf] Hin.
  assert (c <> []) as Hne by (intros ->; destruct Hin).
  pose proof (len_nonzero c Hne) as HN.
  assert (len (keys c) == len c) as Hlen
    by (unfold len, keys; rewrite length_map; reflexivity).
  destruct links as [|l0 lt].
  - unfold transition_spec. rewrite sumQ_map_const.
    fold (len (keys c)). rewrite Hlen. field. assumption.
  - assert (~ len (l0 :: lt) == 0) as HL by (apply len_nonzero; discriminate).
    destruct (Hwf page (l0 :: lt) Hin) as [Hndl Hincl].
    unfold transition_spec.
    rewrite (sumQ_map_if (fun p => in_set p (l0 :: lt))).
    rewrite (filter_in_set_length _ _ Hnd Hndl Hincl).
    pose proof (filter_length_split (fun p => in_set p (l0 :: lt)) (keys c)) as Hs.
    rewrite (filter_in_set_length _ _ Hnd Hndl Hincl) in Hs.
    assert (inject_Z (Z.of_nat (List.length
              (filter (fun a => negb (in_set a (l0 :: lt))) (keys c))))
            == len c - len (l0 :: lt)) as ->.
    { assert (List.length (keys c) = List.length c) as Hk
        by (unfold keys; apply length_map).
      rewrite Hk in Hs. unfold len. rewrite <- Hs.
      rewrite Nat2Z.inj_add, inject_Z_plus. ring. }
    fold (len (l0 :: lt)). field. auto.
Qed.

(** C6: for a page of a well-formed corpus, [transition_model] returns a
    dictionary over all pages; a page without outbound links gives every page
    1/pageCount, otherwise linked pages get d/outDegree + (1 - d)/pageCount
    and the others (1 - d)/pageCount; for a damping factor between 0 and 1
    the values are non-negative and they sum to 1. *)
Theorem transition_model_distribution (c : corpus) (page : string)
    (links : list string) (d : Q) :
  wf_corpus c -> In (page, links) c -> 0 <= d <= 1 ->
  exists dist,
    transition_model c page d = Ok dist /\
    keys dist = keys c /\
    (forall p, In p (keys c) ->
       exists v, dict_get dist p = Some v /\
         (links = [] -> v == 1 / len c) /\
         (links <> [] -> In p links ->
            v == d / len links + (1 - d) / len c) /\
         (links <> [] -> ~ In p links -> v == (1 - d) / len c) /\
         0 <= v) /\
    sumQ (map snd dist) == 1.
Proof.
  intros Hwf Hin [Hd0 Hd1].
  pose proof Hwf as [Hnd _].
  assert (c <> []) as Hne by (intros ->; destruct Hin).
  pose proof (len_positive c Hne) as HN.
  destruct (transition_model_value c page links d Hnd Hin) as (f & Hf & Hspec).
  exists (map (fun k => (k, f k)) (keys c)).
  split; [exact Hf|]. split; [apply keys_map_pair|]. split.
  - intros p Hp. exists (f p). split; [apply dict_get_map_pair; assumption|].
    assert (0 <= (1 - d) / len c) as Hu.
    { apply Qle_shift_div_l; [assumption|]. rewrite Qmult_0_l.
      unfold Qminus. rewrite <- Qle_minus_iff. assumption. }
    split; [|split; [|split]].
    + intros ->. rewrite Hspec. reflexivity.
    + intros Hl Hpl. rewrite Hspec. unfold transition_spec.
      destruct links; [congruence|].
      rewrite (proj2 (in_set_In p _) Hpl). reflexivity.
    + intros Hl Hpl. rewrite Hspec. unfold transition_spec.
      destruct links; [congruence|].
      destruct (in_set p (s :: links)) eqn:E; [|reflexivity].
      apply in_set_In in E. contradiction.
    + rewrite Hspec. unfold transition_spec.
      destruct links as [|l0 lt].
      * apply Qle_shift_div_l; [assumption|]. rewrite Qmult_0_l. discriminate.
      * destruct (in_set p (l0 :: lt)); [|assumption].
        rewrite <- (Qplus_0_l 0). apply Qplus_le_compat; [|assumption].
        apply Qle_shift_div_l; [apply len_positive; discriminate|].
        rewrite Qmult_0_l. assumption.
  - rewrite snd_map_pair.
    rewrite (sumQ_map_ext f (transition_spec c links d))
      by (intros; apply Hspec).
    apply (transition_spec_sum c page links d Hwf Hin).
Qed.

Lemma wf_two_pages : wf_corpus two_pages.
Proof.
  split.
  - simpl. repeat constructor; simpl; intuition discriminate.
  - intros page links [E|[E|[]]]; inversion E; subst; split;
      try (repeat constructor; simpl; tauto);
      intros l [<-|[]]; simpl; tauto.
Qed.

Lemma transition_model_distribution_witness :
  wf_corpus two_pages /\
  In ("1.html"%string, ["2.html"%string]) two_pages /\
  0 <= DAMPING <= 1 /\
  exists dist,
    transition_model two_pages "1.html" DAMPING = Ok dist /\
    keys dist = keys two_pages /\
    (forall p, In p (keys two_pages) ->
       exists v, dict_get dist p = Some v /\
         (["2.html"%string] = [] -> v == 1 / len two_pages) /\
         (["2.html"%string] <> [] -> In p ["2.html"%string] ->
            v == DAMPING / len ["2.html"%string] + (1 - DAMPING) / len two_pages) /\
         (["2.html"%string] <> [] -> ~ In p ["2.html"%string] ->
            v == (1 - DAMPING) / len two_pages) /\
         0 <= v) /\
    sumQ (map snd dist) == 1.
Proof.
  assert (In ("1.html"%string, ["2.html"%string]) two_pages) as Hin
    by (left; reflexivity).
  assert (0 <= DAMPING <= 1) as Hd by (split; discriminate).
  split; [exact wf_two_pages|]. split; [exact Hin|]. split; [exact Hd|].
  exact (transition_model_distribution two_pages "1.html" ["2.html"%string]
           DAMPING wf_two_pages Hin Hd).
Defined.

(** *** [sample_pagerank] *)

(** C5, the code at a failing input: with draws that always pick the first
    page, the walk of three steps never leaves "1.html", and the returned
    dictionary has no entry for "2.html" instead of the frequency 0. *)
Theorem sample_pagerank_omits_unvisited :
  exists ranks,
    sample_pagerank (fun _ => 0) two_pages DAMPING 3 = Ok ranks /\
    keys ranks = ["1.html"%string] /\
    (exists v, dict_get ranks "1.html" = Some v /\ v == 1) /\
    dict_get ranks "2.html" = None /\
    lookup ranks "2.html" = Raise KeyError.
Proof.
  eexists. split; [vm_compute; reflexivity|].
  split; [reflexivity|]. split; [|split; reflexivity].
  eexists. split; [reflexivity|]. reflexivity.
Qed.

(** When the walk does visit both pages, the entries are the visit counts
    divided by [n]. *)
Example sample_pagerank_both_visited :
  exists ranks,
    sample_pagerank (fun k => if Nat.eqb k 1 then 1 # 2 else 0) two_pages DAMPING 3
    = Ok ranks /\
    (exists v, dict_get ranks "1.html" = Some v /\ v == 2 / 3) /\
    (exists v, dict_get ranks "2.html" = Some v /\ v == 1 / 3).
Proof.
  eexists. split; [vm_compute; reflexivity|].
  split; eexists; (split; [reflexivity|]); reflexivity.
Qed.

(** *** [iterate_pagerank]: the rank update as a linear map *)

Lemma in_set_nil_or (dest : string) (links : list string) :
  in_set dest links = true -> links <> [].
Proof. destruct links; [discriminate | discriminate]. Qed.

Lemma weight_nonneg (c : corpus) (links : list string) (dest : string) :
  c <> [] -> 0 <= weight c links dest.
Proof.
  intros Hne. unfold weight.
  destruct (in_set dest links) eqn:E.
  - apply Qle_shift_div_l;
      [apply len_positive; apply (in_set_nil_or dest); assumption|].
    rewrite Qmult_0_l. discriminate.
  - destruct (Nat.eqb (List.length links) 0).
    + apply Qle_shift_div_l; [apply len_positive; assumption|].
      rewrite Qmult_0_l. discriminate.
    + apply Qle_refl.
Qed.

Lemma len_keys (c : corpus) : len (keys c) == len c.
Proof. unfold len, keys. rewrite length_map. reflexivity. Qed.

Lemma weight_column (c : corpus) (src : string) (links : list string) :
  wf_corpus c -> In (src, links) c ->
  sumQ (map (weight c links) (keys c)) == 1.
Proof.
  intros [Hnd Hwf] Hin.
  assert (c <> []) as Hne by (intros ->; destruct Hin).
  pose proof (len_nonzero c Hne) as HN.
  destruct links as [|l0 lt].
  - unfold weight. simpl. rewrite sumQ_map_const.
    fold (len (keys c)). rewrite len_keys. field. assumption.
  - assert (~ len (l0 :: lt) == 0) as HL by (apply len_nonzero; discriminate).
    destruct (Hwf src (l0 :: lt) Hin) as [Hndl Hincl].
    unfold weight.
    change (Nat.eqb (List.length (l0 :: lt)) 0) with false. cbv iota.
    rewrite (sumQ_map_if (fun p => in_set p (l0 :: lt))).
    rewrite (filter_in_set_length _ _ Hnd Hndl Hincl).
    fold (len (l0 :: lt)). field. assumption.
Qed.

Lemma flow_total (c : corpus) (x : string -> Q) :
  wf_corpus c -> total c (flow c x) == total c x.
Proof.
  intros Hwf. unfold total, flow.
  rewrite (sumQ_swap (fun dest e => x (fst e) * weight c (snd e) dest) (keys c) c).
  unfold keys at 2. rewrite map_map.
  apply sumQ_map_ext. intros [src links] Hin. simpl.
  rewrite sumQ_map_scal. rewrite (weight_column c src links Hwf Hin). ring.
Qed.

Lemma step_total (c : corpus) (d : Q) (x : string -> Q) :
  wf_corpus c -> c <> [] ->
  total c (step c d x) == d * total c x + (1 - d).
Proof.
  intros Hwf Hne. unfold total at 1, step.
  rewrite (sumQ_map_plus (fun dest => flow c x dest * d)
             (fun _ => (1 - d) / len c)).
  rewrite sumQ_map_const. fold (len (keys c)). rewrite len_keys.
  rewrite (sumQ_map_ext (fun dest => flow c x dest * d)
             (fun dest => d * flow c x dest)) by (intros; ring).
  rewrite sumQ_map_scal.
  fold (total c (flow c x)). rewrite (flow_total c x Hwf).
  field. apply len_nonzero. assumption.
Qed.

Lemma flow_nonneg (c : corpus) (x : string -> Q) (dest : string) :
  c <> [] -> (forall k, In k (keys c) -> 0 <= x k) -> 0 <= flow c x dest.
Proof.
  intros Hne Hx. unfold flow. apply sumQ_map_nonneg.
  intros [src links] Hin. simpl.
  apply Qmult_le_0_compat; [|apply weight_nonneg; assumption].
  apply Hx. apply (in_map fst) in Hin. exact Hin.
Qed.

Lemma step_nonneg (c : corpus) (d : Q) (x : string -> Q) (dest : string) :
  c <> [] -> 0 <= d <= 1 -> (forall k, In k (keys c) -> 0 <= x k) ->
  0 <= step c d x dest.
Proof.
  intros Hne [Hd0 Hd1] Hx. unfold step.
  rewrite <- (Qplus_0_l 0). apply Qplus_le_compat.
  - apply Qmult_le_0_compat; [apply flow_nonneg; assumption | assumption].
  - apply Qle_shift_div_l; [apply len_positive; assumption|].
    rewrite Qmult_0_l. unfold Qminus. rewrite <- Qle_minus_iff. assumption.
Qed.

Lemma flow_ext (c : corpus) (x y : string -> Q) (dest : string) :
  (forall k, In k (keys c) -> x k == y k) -> flow c x dest == flow c y dest.
Proof.
  intros H. unfold flow. apply sumQ_map_ext. intros [src links] Hin. simpl.
  rewrite (H src); [reflexivity|]. apply (in_map fst) in Hin. exact Hin.
Qed.

Lemma step_ext (c : corpus) (d : Q) (x y : string -> Q) (dest : string) :
  (forall k, In k (keys c) -> x k == y k) -> step c d x dest == step c d y dest.
Proof. intros H. unfold step. rewrite (flow_ext c x y dest H). reflexivity. Qed.

Lemma step_difference (c : corpus) (d : Q) (x y : string -> Q) (dest : string) :
  step c d x dest - step c d y dest == d * flow c (fun k => x k - y k) dest.
Proof.
  unfold step, flow.
  rewrite <- sumQ_map_scal.
  assert (sumQ (map (fun e => x (fst e) * weight c (snd e) dest) c)
          == sumQ (map (fun e => (x (fst e) - y (fst e)) * weight c (snd e) dest
                                 + y (fst e) * weight c (snd e) dest) c)) as ->
    by (apply sumQ_map_ext; intros; ring).
  rewrite sumQ_map_plus. rewrite sumQ_map_scal. ring.
Qed.

Lemma flow_abs (c : corpus) (z : string -> Q) (dest : string) :
  c <> [] ->
  Qabs (flow c z dest) <= flow c (fun k => Qabs (z k)) dest.
Proof.
  intros Hne. unfold flow.
  eapply Qle_trans; [apply sumQ_map_abs|].
  apply sumQ_map_le. intros [src links] Hin. cbn [fst snd].
  rewrite Qabs_Qmult.
  rewrite (Qabs_pos (weight c links dest)) by (apply weight_nonneg; assumption).
  apply Qle_refl.
Qed.

Lemma Qmult_le_nonneg_l (z x y : Q) : 0 <= z -> x <= y -> z * x <= z * y.
Proof.
  intros Hz Hxy. rewrite (Qmult_comm z x), (Qmult_comm z y).
  apply Qmult_le_compat_r; assumption.
Qed.

(** The update contracts L1 distances by the damping factor. *)
Lemma step_contracts (c : corpus) (d : Q) (x y : string -> Q) :
  wf_corpus c -> c <> [] -> 0 <= d ->
  dist1 c (step c d x) (step c d y) <= d * dist1 c x y.
Proof.
  intros Hwf Hne Hd. unfold dist1.
  apply Qle_trans with
    (sumQ (map (fun dest => d * flow c (fun k => Qabs (x k - y k)) dest) (keys c))).
  - apply sumQ_map_le. intros dest _.
    rewrite step_difference. rewrite Qabs_Qmult. rewrite (Qabs_pos d Hd).
    apply Qmult_le_nonneg_l; [assumption|].
    apply flow_abs. assumption.
  - rewrite sumQ_map_scal.
    fold (total c (flow c (fun k => Qabs (x k - y k)))).
    rewrite (flow_total c _ Hwf). apply Qle_refl.
Qed.

End PageRankFacts.

(** *** [iterate_pagerank]: the loops compute the linear map *)

Module IterateFacts.
Import PageRank PageRankFacts.
Local Open Scope Q_scope.

Lemma lookup_val (d : dict Q) (k : string) :
  In k (keys d) -> lookup d k = Ok (val d k).
Proof.
  intros Hin. unfold lookup, val, get_default.
  destruct (dict_get d k) eqn:E; [reflexivity|].
  apply dict_get_None in E. contradiction.
Qed.

Lemma incoming_loop (c : corpus) (pre : dict Q) (dest : string) :
  c <> [] ->
  forall suf acc,
    (forall src links, In (src, links) suf -> lookup c src = Ok links) ->
    (forall src, In src (keys suf) -> In src (keys pre)) ->
    exists v,
      for_each (keys suf) acc
        (fun updated_value src_page =>
           links <- lookup c src_page ;;
           if in_set dest links then
             r <- lookup pre src_page ;;
             q <- py_div r (len links) ;;
             Ok (updated_value + q)
           else if Nat.eqb (List.length links) 0 then
             r <- lookup pre src_page ;;
             q <- py_div r (len c) ;;
             Ok (updated_value + q)
           else Ok updated_value) = Ok v /\
      v == acc + sumQ (map (fun e => val pre (fst e) * weight c (snd e) dest) suf).
Proof.
  intros Hne. pose proof (len_nonzero c Hne) as HN.
  induction suf as [|[src links] t IH]; intros acc Hl Hk.
  - exists acc. simpl. split; [reflexivity | ring].
  - cbn [keys map fst for_each].
    rewrite (Hl src links (or_introl eq_refl)). cbv beta iota delta [bind].
    assert (lookup pre src = Ok (val pre src)) as Hv
      by (apply lookup_val; apply Hk; left; reflexivity).
    assert (forall acc',
              exists v,
                for_each (keys t) acc'
                  (fun updated_value src_page =>
                     match lookup c src_page with
                     | Ok links =>
                         if in_set dest links then
                           match lookup pre src_page with
                           | Ok r =>
                               match py_div r (len links) with
                               | Ok q => Ok (updated_value + q)
                               | Raise e => Raise e
                               end
                           | Raise e => Raise e
                           end
                         else if Nat.eqb (List.length links) 0 then
                           match lookup pre src_page with
                           | Ok r =>
                               match py_div r (len c) with
                               | Ok q => Ok (updated_value + q)
                               | Raise e => Raise e
                               end
                           | Raise e => Raise e
                           end
                         else Ok updated_value
                     | Raise e => Raise e
                     end) = Ok v /\
                v == acc' + sumQ (map (fun e => val pre (fst e)
                                               * weight c (snd e) dest) t)) as IH'.
    { intros acc'. apply IH.
      - intros; apply Hl; right; assumption.
      - intros; apply Hk; right; assumption. }
    cbn [map sumQ fold_right fst snd]. unfold weight at 1.
    destruct (in_set dest links) eqn:E.
    + rewrite Hv.
      rewrite (py_div_ok _ _ (len_nonzero links (in_set_nil_or dest links E))).
      destruct (IH' (acc + val pre src / len links)) as (v & Hloop & Hval).
      exists v. split; [exact Hloop|]. rewrite Hval.
      fold (sumQ (map (fun e => val pre (fst e) * weight c (snd e) dest) t)).
      field. apply len_nonzero. apply (in_set_nil_or dest links E).
    + destruct (Nat.eqb (List.length links) 0).
      * rewrite Hv. rewrite (py_div_ok _ _ HN).
        destruct (IH' (acc + val pre src / len c)) as (v & Hloop & Hval).
        exists v. split; [exact Hloop|]. rewrite Hval.
        fold (sumQ (map (fun e => val pre (fst e) * weight c (snd e) dest) t)).
        field. assumption.
      * destruct (IH' acc) as (v & Hloop & Hval).
        exists v. split; [exact Hloop|]. rewrite Hval.
        fold (sumQ (map (fun e => val pre (fst e) * weight c (snd e) dest) t)).
        ring.
Qed.

Lemma incoming_flow (c : corpus) (pre : dict Q) (dest : string) :
  wf_corpus c -> c <> [] -> keys pre = keys c ->
  exists v, incoming c pre dest = Ok v /\ v == flow c (val pre) dest.
Proof.
  intros [Hnd _] Hne Hk.
  destruct (incoming_loop c pre dest Hne c 0) as (v & Hloop & Hval).
  - intros src links Hin. apply lookup_corpus; assumption.
  - intros src Hin. rewrite Hk. assumption.
  - exists v. split; [exact Hloop|]. rewrite Hval. unfold flow. ring.
Qed.

Lemma updated_step (c : corpus) (d : Q) (pre : dict Q) (dest : string) :
  wf_corpus c -> c <> [] -> keys pre = keys c ->
  updated c d pre dest == step c d (val pre) dest.
Proof.
  intros Hwf Hne Hk. unfold updated, step.
  destruct (incoming_flow c pre dest Hwf Hne Hk) as (v & Hv & E).
  rewrite Hv, E. reflexivity.
Qed.

Lemma sweep_body_spec (c : corpus) (d : Q) (pre cur : dict Q) (n : nat)
    (k : string) :
  wf_corpus c -> c <> [] -> keys pre = keys c -> In k (keys c) ->
  sweep_body c d pre (cur, n) k =
  Ok (dict_set cur k (updated c d pre k),
      if converged c d pre k then S n else n).
Proof.
  intros Hwf Hne Hk Hin. unfold sweep_body, converged.
  destruct (incoming_flow c pre k Hwf Hne Hk) as (v & Hv & _).
  assert (updated c d pre k = v * d + (1 - d) / len c) as Hu
    by (unfold updated; rewrite Hv; reflexivity).
  rewrite Hv. cbv beta iota delta [bind].
  rewrite (py_div_ok _ _ (len_nonzero c Hne)).
  rewrite (lookup_val pre k) by (rewrite Hk; assumption).
  rewrite <- Hu.
  destruct (negb _); reflexivity.
Qed.

Lemma sweep_loop (c : corpus) (d : Q) (pre : dict Q) :
  wf_corpus c -> c <> [] -> keys pre = keys c ->
  forall ks cur n,
    (forall k, In k ks -> In k (keys c)) ->
    for_each ks (cur, n) (sweep_body c d pre)
    = Ok (set_all c d pre ks cur,
          (n + List.length (filter (converged c d pre) ks))%nat).
Proof.
  intros Hwf Hne Hk.
  induction ks as [|k t IH]; intros cur n Hin.
  - simpl. rewrite Nat.add_0_r. reflexivity.
  - cbn [for_each].
    rewrite (sweep_body_spec c d pre cur n k Hwf Hne Hk (Hin k (or_introl eq_refl))).
    cbv beta iota delta [bind].
    rewrite IH by (intros; apply Hin; right; assumption).
    cbn [filter set_all fold_left].
    destruct (converged c d pre k); cbn [List.length]; f_equal; f_equal; lia.
Qed.

Lemma sweep_spec (c : corpus) (d : Q) (pre cur : dict Q) :
  wf_corpus c -> c <> [] -> keys pre = keys c ->
  sweep c d pre cur =
  Ok (set_all c d pre (keys c) cur,
      List.length (filter (converged c d pre) (keys c))).
Proof.
  intros Hwf Hne Hk.
  change (sweep c d pre cur) with (for_each (keys c) (cur, 0%nat) (sweep_body c d pre)).
  rewrite (sweep_loop c d pre Hwf Hne Hk (keys c) cur 0%nat); auto.
Qed.

Lemma set_all_get (c : corpus) (d : Q) (pre : dict Q) (ks : list string) :
  forall cur k,
    dict_get (set_all c d pre ks cur) k =
    if in_set k ks then Some (updated c d pre k) else dict_get cur k.
Proof.
  unfold set_all.
  induction ks as [|k0 t IH]; intros cur k; [reflexivity|].
  cbn [fold_left]. rewrite IH. unfold in_set. cbn [existsb].
  fold (in_set k t).
  destruct (in_set k t); [rewrite orb_true_r; reflexivity|].
  rewrite orb_false_r. rewrite dict_get_set. rewrite (String.eqb_sym k k0).
  destruct (String.eqb k0 k) eqn:E; [|reflexivity].
  apply String.eqb_eq in E. subst. reflexivity.
Qed.

Lemma set_all_keys (c : corpus) (d : Q) (pre : dict Q) (ks : list string) :
  forall cur, (forall k, In k ks -> In k (keys cur)) ->
    keys (set_all c d pre ks cur) = keys cur.
Proof.
  unfold set_all.
  induction ks as [|k0 t IH]; intros cur Hin; [reflexivity|].
  cbn [fold_left].
  assert (keys (dict_set cur k0 (updated c d pre k0)) = keys cur) as Hk.
  { rewrite keys_dict_set.
    rewrite (proj2 (in_set_In k0 (keys cur)) (Hin k0 (or_introl eq_refl))).
    reflexivity. }
  rewrite IH; [exact Hk|].
  intros k Hk'. rewrite Hk. apply Hin. right. assumption.
Qed.

Lemma set_all_val (c : corpus) (d : Q) (pre cur : dict Q) (k : string) :
  In k (keys c) -> val (set_all c d pre (keys c) cur) k = updated c d pre k.
Proof.
  intros Hin. unfold val, get_default. rewrite set_all_get.
  rewrite (proj2 (in_set_In k (keys c)) Hin). reflexivity.
Qed.

(** *** Convergence of the [while] loop *)

Lemma qpow_nonneg (d : Q) (j : nat) : 0 <= d -> 0 <= qpow d j.
Proof.
  intros Hd. induction j as [|j IH]; simpl; [discriminate|].
  apply Qmult_le_0_compat; assumption.
Qed.

Lemma dist1_ext (c : corpus) (x y x' y' : string -> Q) :
  (forall k, In k (keys c) -> x k == x' k) ->
  (forall k, In k (keys c) -> y k == y' k) ->
  dist1 c x y == dist1 c x' y'.
Proof.
  intros Hx Hy. unfold dist1. apply sumQ_map_ext. intros k Hk.
  rewrite (Hx k Hk), (Hy k Hk). reflexivity.
Qed.

Lemma dist1_le_totals (c : corpus) (x y : string -> Q) :
  (forall k, In k (keys c) -> 0 <= x k) ->
  (forall k, In k (keys c) -> 0 <= y k) ->
  dist1 c x y <= total c x + total c y.
Proof.
  intros Hx Hy. unfold dist1, total. rewrite <- sumQ_map_plus.
  apply sumQ_map_le. intros k Hk.
  unfold Qminus. eapply Qle_trans; [apply Qabs_triangle|].
  rewrite Qabs_opp.
  rewrite (Qabs_pos (x k)) by (apply Hx; assumption).
  rewrite (Qabs_pos (y k)) by (apply Hy; assumption).
  apply Qle_refl.
Qed.

Lemma filter_all {A} (f : A -> bool) (l : list A) :
  (forall a, In a l -> f a = true) -> filter f l = l.
Proof.
  induction l as [|a t IH]; intros H; simpl; [reflexivity|].
  rewrite (H a (or_introl eq_refl)). f_equal.
  apply IH. intros; apply H; right; assumption.
Qed.

Lemma iterate_loop_S (fuel : nat) (c : corpus) (d : Q) (pre cur : dict Q) :
  iterate_loop (S fuel) c d pre cur =
  (st <- sweep c d pre cur ;;
   let '(cur_result_dict, num_converged) := st in
   if Nat.eqb num_converged (List.length c) then Ok pre
   else iterate_loop fuel c d cur_result_dict cur_result_dict).
Proof. reflexivity. Qed.

Section Convergence.

Variable c : corpus.
Variable d : Q.
Hypothesis c_wf : wf_corpus c.
Hypothesis c_nonempty : c <> [].
Hypothesis d_range : 0 <= d <= 1.

Lemma good_next (pre cur : dict Q) :
  good c pre -> keys cur = keys c ->
  good c (set_all c d pre (keys c) cur) /\
  forall k, In k (keys c) ->
    val (set_all c d pre (keys c) cur) k == step c d (val pre) k.
Proof.
  intros (Hk & Hn & Ht) Hkc.
  assert (forall k, In k (keys c) ->
            val (set_all c d pre (keys c) cur) k == step c d (val pre) k) as Hv.
  { intros k Hin. rewrite (set_all_val c d pre cur k Hin).
    apply updated_step; assumption. }
  split; [|exact Hv].
  split; [|split].
  - rewrite set_all_keys; [assumption|]. intros k Hin. rewrite Hkc. assumption.
  - intros k Hin. rewrite (Hv k Hin). apply step_nonneg; assumption.
  - unfold total.
    rewrite (sumQ_map_ext _ (step c d (val pre)) (keys c) Hv).
    fold (total c (step c d (val pre))).
    rewrite (step_total c d (val pre) c_wf c_nonempty). rewrite Ht. ring.
Qed.

Lemma movement_next (pre cur : dict Q) :
  good c pre -> keys cur = keys c ->
  movement c d (set_all c d pre (keys c) cur) <= d * movement c d pre.
Proof.
  intros Hg Hkc. destruct (good_next pre cur Hg Hkc) as [_ Hv].
  unfold movement.
  rewrite (dist1_ext c _ _ (step c d (step c d (val pre))) (step c d (val pre))).
  - apply step_contracts; [assumption | assumption | apply d_range].
  - intros k Hk. apply step_ext. exact Hv.
  - exact Hv.
Qed.

Lemma small_movement_converged (pre : dict Q) :
  good c pre -> movement c d pre < margin ->
  List.length (filter (converged c d pre) (keys c)) = List.length c.
Proof.
  intros (Hk & Hn & Ht) Hm.
  rewrite filter_all; [unfold keys; apply length_map|].
  intros k Hin. unfold converged.
  destruct (Qle_bool margin (Qabs (updated c d pre k - val pre k))) eqn:E;
    [|reflexivity].
  exfalso. apply Qle_bool_iff in E.
  apply (Qlt_irrefl margin). eapply Qle_lt_trans; [exact E|].
  eapply Qle_lt_trans; [|exact Hm].
  rewrite (updated_step c d pre k c_wf c_nonempty Hk).
  unfold movement, dist1.
  apply (sumQ_term_le (fun k => Qabs (step c d (val pre) k - val pre k)) (keys c) k);
    [intros; apply Qabs_nonneg | assumption].
Qed.

Lemma loop_converges (j : nat) : forall fuel pre cur,
  (j < fuel)%nat -> good c pre -> keys cur = keys c ->
  movement c d pre * qpow d j < margin ->
  exists r, iterate_loop fuel c d pre cur = Ok r /\ good c r.
Proof.
  induction j as [|j IH]; intros fuel pre cur Hf Hg Hkc Hm;
    (destruct fuel as [|fuel]; [lia|]);
    rewrite iterate_loop_S;
    rewrite (sweep_spec c d pre cur c_wf c_nonempty (proj1 Hg));
    cbv beta iota delta [bind].
  - simpl qpow in Hm. rewrite Qmult_1_r in Hm.
    rewrite (small_movement_converged pre Hg Hm). rewrite Nat.eqb_refl.
    exists pre. split; [reflexivity | assumption].
  - destruct (Nat.eqb _ (List.length c)).
    + exists pre. split; [reflexivity | assumption].
    + destruct (good_next pre cur Hg Hkc) as [Hg' _].
      apply IH; [lia | assumption | apply (proj1 Hg') |].
      eapply Qle_lt_trans; [|exact Hm].
      simpl qpow. rewrite Qmult_assoc.
      apply Qmult_le_compat_r; [|apply qpow_nonneg; apply d_range].
      rewrite (Qmult_comm (movement c d pre) d).
      apply movement_next; assumption.
Qed.

Lemma initial_ranks :
  for_each (keys c) []
    (fun pre_result_dict page =>
       v <- py_div 1 (len c) ;; Ok (dict_set pre_result_dict page v))
  = Ok (map (fun k => (k, 1 / len c)) (keys c)).
Proof.
  rewrite (build_dict (fun _ => 1 / len c)); auto.
  - intros r k _. rewrite (py_div_ok _ _ (len_nonzero c c_nonempty)). reflexivity.
  - apply (proj1 c_wf).
Qed.

Lemma val_map_pair (f : string -> Q) (ks : list string) (k : string) :
  In k ks -> val (map (fun k => (k, f k)) ks) k = f k.
Proof.
  intros Hin. unfold val, get_default.
  rewrite dict_get_map_pair by assumption. reflexivity.
Qed.

Lemma good_initial : good c (map (fun k => (k, 1 / len c)) (keys c)).
Proof.
  pose proof (len_positive c c_nonempty) as HN.
  split; [apply keys_map_pair|]. split.
  - intros k Hk. rewrite val_map_pair by assumption.
    apply Qle_shift_div_l; [assumption|]. rewrite Qmult_0_l. discriminate.
  - unfold total.
    rewrite (sumQ_map_ext _ (fun _ => 1 / len c) (keys c)).
    + rewrite sumQ_map_const. fold (len (keys c)). rewrite len_keys.
      field. apply len_nonzero. assumption.
    + intros k Hk. rewrite val_map_pair by assumption. reflexivity.
Qed.

Lemma movement_le_2 (pre : dict Q) : good c pre -> movement c d pre <= 2.
Proof.
  intros (Hk & Hn & Ht). unfold movement.
  eapply Qle_trans.
  - apply dist1_le_totals; [|assumption].
    intros k Hin. apply step_nonneg; assumption.
  - rewrite (step_total c d (val pre) c_wf c_nonempty), Ht.
    assert (d * 1 + (1 - d) + 1 == 2) as -> by ring. apply Qle_refl.
Qed.

Lemma good_result (r : dict Q) :
  good c r ->
  keys r = keys c /\
  (forall p v, In (p, v) r -> 0 <= v) /\
  sumQ (map snd r) == 1.
Proof.
  intros (Hk & Hn & Ht).
  assert (NoDup (keys r)) as Hnd by (rewrite Hk; apply (proj1 c_wf)).
  assert (forall p v, In (p, v) r -> val r p = v) as Hval.
  { intros p v Hin. unfold val, get_default.
    rewrite (@dict_get_in _ r p v Hnd Hin). reflexivity. }
  split; [assumption|]. split.
  - intros p v Hin. rewrite <- (Hval p v Hin). apply Hn.
    rewrite <- Hk. apply (in_map fst) in Hin. exact Hin.
  - rewrite <- Ht. unfold total. rewrite <- Hk. unfold keys. rewrite map_map.
    apply sumQ_map_ext. intros [p v] Hin. simpl. rewrite (Hval p v Hin).
    reflexivity.
Qed.

End Convergence.

Lemma damping_power : 2 * qpow DAMPING 47 < margin.
Proof. vm_compute. reflexivity. Qed.

(** C3: on a non-empty well-formed corpus and with damping factor 0.85, the
    loop of [iterate_pagerank] stops within 48 passes, and the returned
    dictionary has an entry for every page, with non-negative values that sum
    to 1 within 0.001. *)
Theorem iterate_pagerank_converges (c : corpus) (fuel : nat) :
  wf_corpus c -> c <> [] -> (48 <= fuel)%nat ->
  exists ranks,
    iterate_pagerank fuel c DAMPING = Ok ranks /\
    keys ranks = keys c /\
    (forall p v, In (p, v) ranks -> 0 <= v) /\
    Qabs (sumQ (map snd ranks) - 1) <= 1 # 1000.
Proof.
  intros Hwf Hne Hfuel.
  assert (0 <= DAMPING <= 1) as Hd by (split; discriminate).
  unfold iterate_pagerank. rewrite (initial_ranks c Hwf Hne).
  cbv beta iota delta [bind].
  pose proof (good_initial c Hne) as Hg0.
  destruct (loop_converges c DAMPING Hwf Hne Hd 47 fuel
              (map (fun k => (k, 1 / len c)) (keys c))
              (map (fun k => (k, 1 / len c)) (keys c)))
    as (r & Hr & Hg); [lia | assumption | apply keys_map_pair | |].
  - eapply Qle_lt_trans; [|apply damping_power].
    apply Qmult_le_compat_r;
      [apply (movement_le_2 c DAMPING Hwf Hne Hd); assumption | apply qpow_nonneg; apply Hd].
  - exists r. split; [exact Hr|].
    destruct (good_result c Hwf r Hg) as (Hk & Hn & Hs).
    split; [assumption|]. split; [assumption|].
    rewrite Hs. discriminate.
Qed.

Lemma iterate_pagerank_converges_witness :
  wf_corpus two_pages /\ two_pages <> [] /\ (48 <= 48)%nat /\
  exists ranks,
    iterate_pagerank 48 two_pages DAMPING = Ok ranks /\
    keys ranks = keys two_pages /\
    (forall p v, In (p, v) ranks -> 0 <= v) /\
    Qabs (sumQ (map snd ranks) - 1) <= 1 # 1000.
Proof.
  assert (two_pages <> []) as Hne by discriminate.
  split; [exact wf_two_pages|]. split; [exact Hne|]. split; [lia|].
  exact (iterate_pagerank_converges two_pages 48 wf_two_pages Hne (le_n 48)).
Defined.

End IterateFacts.

(** ** pagerank.py: what [sample_pagerank] does return *)

Module WalkFacts.
Import PageRank PageRankFacts.
Local Open Scope Q_scope.

Lemma py_div_inv (a b q : Q) : py_div a b = Ok q -> q = a / b.
Proof.
  unfold py_div. destruct (Qeq_bool b 0); [discriminate|].
  intros H; inversion H; reflexivity.
Qed.

Lemma counts_walk_step (inc : Q) (ranks : dict Q) (walk : list string)
    (cur : string) :
  counts_walk inc ranks walk ->
  counts_walk inc (dict_set ranks cur (get_default ranks cur 0 + inc))
    (cur :: walk).
Proof.
  intros Hc p. rewrite dict_get_set. unfold visits. cbn [filter].
  rewrite (String.eqb_sym p cur).
  specialize (Hc p). unfold visits in Hc.
  destruct (String.eqb cur p) eqn:E.
  - apply String.eqb_eq in E. subst p.
    cbn [List.length]. split; [discriminate|].
    rewrite Nat2Z.inj_succ. unfold Z.succ. rewrite inject_Z_plus.
    unfold get_default.
    destruct (dict_get ranks cur) as [v|].
    + destruct Hc as [_ Hv]. rewrite Hv. ring.
    + rewrite Hc. simpl. ring.
  - exact Hc.
Qed.

Lemma walk_loop (rng : nat -> Q) (c : corpus) (d : Q) (n : Z) (l : list nat) :
  forall ranks walk cur ranks' cur',
    counts_walk (1 / inject_Z n) ranks walk ->
    for_each l (ranks, cur)
      (fun '(result_dict, cur_page) i =>
         trans <- transition_model c cur_page d ;;
         cur_page <- random_choices (rng (S i)) (keys trans) (map snd trans) ;;
         v <- py_div 1 (inject_Z n) ;;
         Ok (dict_set result_dict cur_page
               (get_default result_dict cur_page 0 + v), cur_page))
    = Ok (ranks', cur') ->
    exists walk',
      for_each l (walk, cur)
        (fun '(walk, cur_page) i =>
           trans <- transition_model c cur_page d ;;
           cur_page <- random_choices (rng (S i)) (keys trans) (map snd trans) ;;
           v <- py_div 1 (inject_Z n) ;;
           Ok (cur_page :: walk, cur_page))
      = Ok (walk', cur') /\
      counts_walk (1 / inject_Z n) ranks' walk'.
Proof.
  induction l as [|i t IH]; intros ranks walk cur ranks' cur' Hc Hloop.
  - simpl in Hloop. inversion Hloop; subst. exists walk. simpl. auto.
  - cbn [for_each] in *. cbv beta iota in *.
    destruct (transition_model c cur d) as [trans|e]; [|discriminate].
    cbv beta iota delta [bind] in Hloop. cbv beta iota delta [bind].
    destruct (random_choices (rng (S i)) (keys trans) (map snd trans))
      as [next|e]; [|discriminate].
    destruct (py_div 1 (inject_Z n)) as [v|e] eqn:Ev; [|discriminate].
    apply py_div_inv in Ev. subst v.
    apply (IH _ (next :: walk) _ _ _ (counts_walk_step _ _ _ next Hc) Hloop).
Qed.

(** Whenever [sample_pagerank] returns, its entries are the visit counts of
    the walk divided by [n]; pages the walk never reached have no entry. *)
Lemma sample_pagerank_counts (rng : nat -> Q) (c : corpus) (d : Q) (n : Z)
    (ranks : dict Q) :
  sample_pagerank rng c d n = Ok ranks ->
  exists walk,
    sample_walk rng c d n = Ok walk /\
    forall p,
      match dict_get ranks p with
      | Some v => visits p walk <> 0%nat /\
                  v == inject_Z (Z.of_nat (visits p walk)) / inject_Z n
      | None => visits p walk = 0%nat
      end.
Proof.
  unfold sample_pagerank, sample_walk. intros H.
  apply bind_Ok_inv in H. destruct H as (init & Hi & H).
  apply bind_Ok_inv in H. destruct H as (v & Ev & H).
  apply bind_Ok_inv in H. destruct H as ([ranks' cur'] & Hloop & H).
  inversion H; subst ranks'. clear H.
  assert (~ inject_Z n == 0) as Hn.
  { unfold py_div in Ev.
    destruct (Qeq_bool (inject_Z n) 0) eqn:E; [discriminate|].
    intros E'. apply Qeq_eq_bool in E'. congruence. }
  pose proof (py_div_inv _ _ _ Ev) as Hv. subst v.
  assert (counts_walk (1 / inject_Z n)
            (dict_set [] init (1 / inject_Z n)) [init]) as Hinit.
  { intros p. cbn [dict_set dict_get]. unfold visits. cbn [filter].
    rewrite (String.eqb_sym p init).
    destruct (String.eqb init p); cbn [List.length];
      [split; [discriminate | simpl; ring] | reflexivity]. }
  destruct (walk_loop rng c d n _ _ [init] _ _ _ Hinit Hloop)
    as (walk' & Hw & Hc).
  exists walk'. split.
  { rewrite Hi. unfold bind at 1. rewrite Hw, Ev. reflexivity. }
  intros p. specialize (Hc p).
  destruct (dict_get ranks p) as [v|]; [|assumption].
  destruct Hc as [Hv Hq]. split; [assumption|].
  rewrite Hq. field. assumption.
Qed.

End WalkFacts.

(* ================================================================= *)
(** ** tictactoe.py: the rules of the game *)

Module GameFacts.
Import TicTacToe TicTacToeFacts.
Local Open Scope Z_scope.

Lemma getitem_out {A} (l : list A) (i : Z) :
  ~ (- Z.of_nat (List.length l) <= i < Z.of_nat (List.length l)) ->
  getitem l i = Raise IndexError.
Proof.
  intros H. unfold getitem.
  destruct (i <? 0) eqn:Ei;
    [apply Z.ltb_lt in Ei | apply Z.ltb_ge in Ei];
    match goal with
    | |- (if ?c then _ else _) = _ => destruct c eqn:Ec; [|reflexivity]
    end;
    apply andb_prop in Ec; destruct Ec as [E1 E2];
    apply Z.leb_le in E1; apply Z.ltb_lt in E2; lia.
Qed.

Lemma getitem_neg {A} (l : list A) (k : Z) :
  0 <= k < Z.of_nat (List.length l) ->
  getitem l (k - Z.of_nat (List.length l)) = getitem l k.
Proof.
  intros H. unfold getitem.
  replace (k - Z.of_nat (List.length l) <? 0) with true
    by (symmetry; apply Z.ltb_lt; lia).
  replace (k <? 0) with false by (symmetry; apply Z.ltb_ge; lia).
  replace (k - Z.of_nat (List.length l) + Z.of_nat (List.length l)) with k by lia.
  reflexivity.
Qed.

Lemma setitem_neg {A} (l : list A) (k : Z) (x : A) :
  0 <= k < Z.of_nat (List.length l) ->
  setitem l (k - Z.of_nat (List.length l)) x = setitem l k x.
Proof.
  intros H. unfold setitem.
  replace (k - Z.of_nat (List.length l) <? 0) with true
    by (symmetry; apply Z.ltb_lt; lia).
  replace (k <? 0) with false by (symmetry; apply Z.ltb_ge; lia).
  replace (k - Z.of_nat (List.length l) + Z.of_nat (List.length l)) with k by lia.
  reflexivity.
Qed.

Lemma getitem_row (b : board) (i : Z) :
  wf_board b -> 0 <= i < 3 ->
  exists row, getitem b i = Ok row /\ List.length row = 3%nat.
Proof.
  intros Hwf Hi. explicit_board b Hwf.
  assert (i = 0 \/ i = 1 \/ i = 2) as [->|[->| ->]] by lia;
    eexists; split; reflexivity.
Qed.

Lemma at_neg_row (b : board) (i j : Z) :
  wf_board b -> 0 <= i < 3 -> at_ b (i - 3) j = at_ b i j.
Proof.
  intros Hwf Hi. unfold at_.
  replace 3 with (Z.of_nat (List.length b)) by (destruct Hwf as [-> _]; reflexivity).
  rewrite getitem_neg; [reflexivity|].
  destruct Hwf as [-> _]. simpl. lia.
Qed.

Lemma at_neg_col (b : board) (i j : Z) :
  wf_board b -> 0 <= i < 3 -> 0 <= j < 3 -> at_ b i (j - 3) = at_ b i j.
Proof.
  intros Hwf Hi Hj. unfold at_.
  destruct (getitem_row b i Hwf Hi) as (row & -> & Hl). simpl.
  replace 3 with (Z.of_nat (List.length row)) by (rewrite Hl; reflexivity).
  apply getitem_neg. rewrite Hl. simpl. lia.
Qed.

Lemma set_cell_neg_row (b : board) (i j : Z) (v : cell) :
  wf_board b -> 0 <= i < 3 -> set_cell b (i - 3, j) v = set_cell b (i, j) v.
Proof.
  intros Hwf Hi. unfold set_cell. cbn [fst snd].
  assert (Z.of_nat (List.length b) = 3) as Hl
    by (destruct Hwf as [-> _]; reflexivity).
  rewrite <- Hl at 1. rewrite getitem_neg by lia.
  destruct (getitem b i) as [row|e]; [|reflexivity]. simpl.
  destruct (setitem row j v) as [row'|e]; [|reflexivity]. simpl.
  rewrite <- Hl. apply setitem_neg. lia.
Qed.

Lemma set_cell_neg_col (b : board) (i j : Z) (v : cell) :
  wf_board b -> 0 <= i < 3 -> 0 <= j < 3 ->
  set_cell b (i, j - 3) v = set_cell b (i, j) v.
Proof.
  intros Hwf Hi Hj. unfold set_cell. cbn [fst snd].
  destruct (getitem_row b i Hwf Hi) as (row & -> & Hl). simpl.
  assert (Z.of_nat (List.length row) = 3) as Hl' by (rewrite Hl; reflexivity).
  rewrite <- Hl'. rewrite setitem_neg by lia. reflexivity.
Qed.

(** X1: Python's negative indices are accepted by [result]: on a 3x3 board
    the action [(i - 3, j)], [(i, j - 3)] or [(i - 3, j - 3)] behaves exactly
    as [(i, j)], for an occupied cell (the exception) as for an empty one. *)
Theorem result_negative_index (b : board) (i j : Z) :
  wf_board b -> 0 <= i < 3 -> 0 <= j < 3 ->
  result b (i - 3, j) = result b (i, j) /\
  result b (i, j - 3) = result b (i, j) /\
  result b (i - 3, j - 3) = result b (i, j).
Proof.
  intros Hwf Hi Hj. unfold result. cbn [fst snd].
  rewrite (at_neg_row b i (j - 3) Hwf Hi), (at_neg_row b i j Hwf Hi),
    (at_neg_col b i j Hwf Hi Hj).
  repeat split.
  - destruct (at_ b i j) as [x|e]; [|reflexivity]. simpl.
    destruct (negb (is_empty x)); [reflexivity|].
    destruct (player b) as [p|e]; [|reflexivity]. simpl.
    apply set_cell_neg_row; assumption.
  - destruct (at_ b i j) as [x|e]; [|reflexivity]. simpl.
    destruct (negb (is_empty x)); [reflexivity|].
    destruct (player b) as [p|e]; [|reflexivity]. simpl.
    apply set_cell_neg_col; assumption.
  - destruct (at_ b i j) as [x|e]; [|reflexivity]. simpl.
    destruct (negb (is_empty x)); [reflexivity|].
    destruct (player b) as [p|e]; [|reflexivity]. simpl.
    rewrite set_cell_neg_row by assumption.
    apply set_cell_neg_col; assumption.
Qed.

Lemma result_negative_index_witness :
  wf_board initial_state /\ 0 <= 2 < 3 /\ 0 <= 2 < 3 /\
  result initial_state (2 - 3, 2) = result initial_state (2, 2) /\
  result initial_state (2, 2 - 3) = result initial_state (2, 2) /\
  result initial_state (2 - 3, 2 - 3) = result initial_state (2, 2).
Proof.
  split; [exact wf_initial|]. split; [lia|]. split; [lia|].
  apply (result_negative_index initial_state 2 2 wf_initial); lia.
Defined.

(** X2: an index outside [-3, 3) makes [result] raise [IndexError]; no cell
    is written. *)
Theorem result_index_error (b : board) (i j : Z) :
  wf_board b -> ~ (-3 <= i < 3 /\ -3 <= j < 3) ->
  result b (i, j) = Raise IndexError.
Proof.
  intros Hwf Hout. unfold result, at_. cbn [fst snd].
  destruct (Z_lt_dec i (-3)) as [Hlo|Hlo];
    [rewrite getitem_out; [reflexivity | destruct Hwf as [-> _]; simpl; lia]|].
  destruct (Z_lt_dec i 3) as [Hhi|Hhi];
    [|rewrite getitem_out; [reflexivity | destruct Hwf as [-> _]; simpl; lia]].
  assert (exists row, getitem b i = Ok row /\ List.length row = 3%nat)
    as (row & -> & Hl).
  { destruct (Z_lt_dec i 0) as [Hn|Hn].
    - destruct (getitem_row b (i + 3) Hwf) as (row & Hr & Hl); [lia|].
      exists row. split; [|assumption].
      rewrite <- Hr.
      assert (Z.of_nat (List.length b) = 3) as Hb
        by (destruct Hwf as [-> _]; reflexivity).
      replace i with (i + 3 - Z.of_nat (List.length b)) at 1 by lia.
      apply getitem_neg. lia.
    - apply getitem_row; [assumption | lia]. }
  simpl. rewrite getitem_out; [reflexivity|]. rewrite Hl. simpl. lia.
Qed.

Lemma result_index_error_witness :
  wf_board initial_state /\ ~ (-3 <= 3 < 3 /\ -3 <= 0 < 3) /\
  result initial_state (3, 0) = Raise IndexError.
Proof.
  assert (~ (-3 <= 3 < 3 /\ -3 <= 0 < 3)) as H by lia.
  split; [exact wf_initial|]. split; [exact H|].
  exact (result_index_error initial_state 3 0 wf_initial H).
Defined.

Lemma NoDup_grid : NoDup grid.
Proof.
  unfold grid, range3. simpl.
  repeat constructor; simpl; intuition congruence.
Qed.

Lemma filter_map_length {A B} (p : B -> bool) (f : A -> B) (l : list A) :
  List.length (filter (fun a => p (f a)) l) = List.length (filter p (map f l)).
Proof.
  induction l as [|x t IH]; simpl; [reflexivity|].
  destruct (p (f x)); simpl; congruence.
Qed.

Lemma at_cell (b : board) (i j : Z) :
  wf_board b -> 0 <= i < 3 -> 0 <= j < 3 -> at_ b i j = Ok (cell_of b (i, j)).
Proof.
  intros Hwf Hi Hj.
  apply (@at_cell_of b (i, j) Hwf). apply in_grid. simpl. lia.
Qed.

Lemma actions_length (b : board) :
  wf_board b ->
  List.length (filter (fun a => is_empty (cell_of b a)) grid) = empties b.
Proof.
  intros Hwf. unfold empties, count_cells. rewrite <- (cells_of_grid Hwf).
  apply filter_map_length.
Qed.

(** X3: on a 3x3 board [actions] returns exactly the coordinates of the
    empty cells, each once; their number is the number of empty cells. *)
Theorem actions_empty_cells (b : board) :
  wf_board b ->
  exists acts,
    actions b = Ok acts /\ NoDup acts /\
    List.length acts = empties b /\
    forall i j, In (i, j) acts <->
                (0 <= i < 3 /\ 0 <= j < 3 /\ at_ b i j = Ok EMPTY).
Proof.
  intros Hwf. exists (filter (fun a => is_empty (cell_of b a)) grid).
  split; [apply actions_spec; assumption|].
  split; [apply NoDup_filter, NoDup_grid|].
  split.
  - apply actions_length; assumption.
  - intros i j. rewrite filter_In. split.
    + intros [Hg He]. pose proof (proj1 (in_grid (i, j)) Hg) as [Hi Hj].
      simpl in Hi, Hj. split; [assumption|]. split; [assumption|].
      rewrite (at_cell b i j Hwf Hi Hj).
      destruct (cell_of b (i, j)); [discriminate | reflexivity].
    + intros (Hi & Hj & Hat).
      assert (In (i, j) grid) as Hg by (apply in_grid; simpl; lia).
      split; [assumption|].
      rewrite (at_cell b i j Hwf Hi Hj) in Hat.
      inversion Hat as [E]. rewrite E. reflexivity.
Qed.

Lemma actions_empty_cells_witness :
  wf_board initial_state /\
  exists acts,
    actions initial_state = Ok acts /\ NoDup acts /\
    List.length acts = empties initial_state /\
    forall i j, In (i, j) acts <->
                (0 <= i < 3 /\ 0 <= j < 3 /\ at_ initial_state i j = Ok EMPTY).
Proof.
  split; [exact wf_initial|].
  exact (actions_empty_cells initial_state wf_initial).
Defined.

(** X4: [result] and [actions] agree: for coordinates on the board the move
    is carried out exactly when it belongs to [actions(board)], and the
    exception for an illegal move is raised exactly when it does not. *)
Theorem result_succeeds_on_actions (b : board) (i j : Z) :
  wf_board b -> 0 <= i < 3 -> 0 <= j < 3 ->
  exists acts,
    actions b = Ok acts /\
    (In (i, j) acts -> exists b', result b (i, j) = Ok b') /\
    (~ In (i, j) acts -> result b (i, j) = Raise IllegalAction).
Proof.
  intros Hwf Hi Hj.
  exists (filter (fun a => is_empty (cell_of b a)) grid).
  split; [apply actions_spec; assumption|].
  assert (In (i, j) grid) as Hg by (apply in_grid; simpl; lia).
  split.
  - intros Hin. apply filter_In in Hin. destruct Hin as [_ He].
    apply (@result_legal b (i, j) Hwf Hg).
    destruct (cell_of b (i, j)); [discriminate | reflexivity].
  - intros Hnot. unfold result. cbn [fst snd].
    rewrite (at_cell b i j Hwf Hi Hj). simpl.
    destruct (cell_of b (i, j)) as [m|] eqn:E; [reflexivity|].
    exfalso. apply Hnot. apply filter_In. split; [assumption|].
    rewrite E. reflexivity.
Qed.

Lemma result_succeeds_on_actions_witness :
  wf_board initial_state /\ 0 <= 1 < 3 /\ 0 <= 1 < 3 /\
  exists acts,
    actions initial_state = Ok acts /\
    (In (1, 1) acts -> exists b', result initial_state (1, 1) = Ok b') /\
    (~ In (1, 1) acts -> result initial_state (1, 1) = Raise IllegalAction).
Proof.
  split; [exact wf_initial|]. split; [lia|]. split; [lia|].
  apply (result_succeeds_on_actions initial_state 1 1 wf_initial); lia.
Defined.

Lemma all3_cells (b : board) (p : mark) (c1 c2 c3 : Z * Z) :
  wf_board b -> In c1 grid -> In c2 grid -> In c3 grid ->
  all3 b p c1 c2 c3 =
  Ok (cell_is (cell_of b c1) p && cell_is (cell_of b c2) p
      && cell_is (cell_of b c3) p).
Proof.
  intros Hwf H1 H2 H3. unfold all3.
  rewrite (@at_cell_of b c1 Hwf H1), (@at_cell_of b c2 Hwf H2),
    (@at_cell_of b c3 Hwf H3). simpl.
  destruct (cell_is (cell_of b c1) p); [|reflexivity]. simpl.
  destruct (cell_is (cell_of b c2) p); reflexivity.
Qed.

Lemma wins_lines (b : board) (p : mark) :
  wf_board b -> wins b p = Ok (has_line b p).
Proof.
  intros Hwf. unfold wins, range3. cbn [first_hit].
  rewrite !all3_cells by (assumption || (apply in_grid; simpl; lia)).
  unfold has_line, lines. cbn [existsb].
  repeat match goal with
         | |- context [cell_is (cell_of b ?c) p] =>
             destruct (cell_is (cell_of b c) p)
         end; reflexivity.
Qed.

Lemma winner_lines (b : board) :
  wf_board b ->
  winner b = Ok (if has_line b O then Some O
                 else if has_line b X then Some X else None).
Proof.
  intros Hwf. unfold winner. rewrite !wins_lines by assumption. simpl.
  destruct (has_line b O); [reflexivity|]. simpl.
  destruct (has_line b X); reflexivity.
Qed.

Lemma utility_lines (b : board) :
  wf_board b ->
  utility b = Ok (if has_line b O then -1 else if has_line b X then 1 else 0).
Proof.
  intros Hwf. unfold utility. rewrite winner_lines by assumption. simpl.
  destruct (has_line b O); [reflexivity|].
  destruct (has_line b X); reflexivity.
Qed.

(** X5: on a 3x3 board [winner] returns [O] when three O's fill one of the
    eight lines, else [X] when three X's do, else [None]: a line of O's is
    found first, also on a board where both marks fill a line.  [utility] is
    -1, 1 or 0 accordingly. *)
Theorem winner_by_lines (b : board) :
  wf_board b ->
  winner b = Ok (if has_line b O then Some O
                 else if has_line b X then Some X else None) /\
  utility b = Ok (if has_line b O then -1 else if has_line b X then 1 else 0).
Proof.
  intros Hwf. split; [apply winner_lines | apply utility_lines]; assumption.
Qed.

Lemma winner_by_lines_witness :
  wf_board [[Some X; Some X; Some X]; [Some O; Some O; Some O];
            [None; None; None]] /\
  winner [[Some X; Some X; Some X]; [Some O; Some O; Some O];
          [None; None; None]]
  = Ok (if has_line [[Some X; Some X; Some X]; [Some O; Some O; Some O];
                     [None; None; None]] O then Some O
        else if has_line [[Some X; Some X; Some X]; [Some O; Some O; Some O];
                          [None; None; None]] X then Some X else None) /\
  utility [[Some X; Some X; Some X]; [Some O; Some O; Some O];
           [None; None; None]]
  = Ok (if has_line [[Some X; Some X; Some X]; [Some O; Some O; Some O];
                     [None; None; None]] O then -1
        else if has_line [[Some X; Some X; Some X]; [Some O; Some O; Some O];
                          [None; None; None]] X then 1 else 0).
Proof.
  split; [apply explicit_wf|].
  apply winner_by_lines. apply explicit_wf.
Defined.

Lemma scan_empties (b : board) :
  wf_board b ->
  for_each range3 true (fun end_ r => row_scan b r range3 end_)
  = Ok (Nat.eqb (empties b) 0).
Proof.
  intros Hwf. explicit_board b Hwf.
  destruct c00, c01, c02, c10, c11, c12, c20, c21, c22; reflexivity.
Qed.

Lemma terminal_lines (b : board) :
  wf_board b ->
  terminal b = Ok (has_line b O || has_line b X || Nat.eqb (empties b) 0).
Proof.
  intros Hwf. unfold terminal. rewrite winner_lines by assumption. simpl.
  destruct (has_line b O); [reflexivity|].
  destruct (has_line b X); [reflexivity|]. simpl.
  apply scan_empties; assumption.
Qed.

(** X6: on a 3x3 board [terminal] is [True] exactly when some mark fills a
    line or no cell is empty. *)
Theorem terminal_iff_line_or_full (b : board) :
  wf_board b ->
  terminal b = Ok (has_line b O || has_line b X || Nat.eqb (empties b) 0).
Proof. exact (terminal_lines b). Qed.

Lemma terminal_iff_line_or_full_witness :
  wf_board initial_state /\
  terminal initial_state
  = Ok (has_line initial_state O || has_line initial_state X
        || Nat.eqb (empties initial_state) 0).
Proof.
  split; [exact wf_initial|].
  exact (terminal_iff_line_or_full initial_state wf_initial).
Defined.

Lemma cells_partition (l : list cell) :
  (List.length (filter (fun c => cell_is c X) l)
   + List.length (filter (fun c => cell_is c O) l)
   + List.length (filter is_empty l) = List.length l)%nat.
Proof.
  induction l as [|c t IH]; [reflexivity|].
  destruct c as [[|]|]; simpl; lia.
Qed.

Lemma counts_total (b : board) :
  wf_board b -> (count X b + count O b + empties b = 9)%nat.
Proof.
  intros Hwf. unfold count, empties, count_cells.
  rewrite cells_partition. explicit_board b Hwf. reflexivity.
Qed.

(** X7: on every board reachable from the initial state the marks and the
    empty cells add up to nine, and [player] returns X exactly when the
    number of empty cells is odd. *)
Theorem player_by_parity (b : board) :
  reachable b ->
  (count X b + count O b + empties b = 9)%nat /\
  player b = Ok (if Nat.odd (empties b) then X else O).
Proof.
  intros Hr. destruct (reachable_invariant Hr) as [Hwf Hbal].
  pose proof (counts_total b Hwf) as Ht. split; [assumption|].
  rewrite (player_spec Hwf).
  destruct Hbal as [E|E].
  - rewrite E, Nat.eqb_refl.
    assert (empties b = 1 + 2 * (4 - count O b))%nat as -> by lia.
    rewrite Nat.odd_add_mul_2. reflexivity.
  - assert (Nat.eqb (count X b) (count O b) = false) as ->
      by (apply Nat.eqb_neq; lia).
    assert (empties b = 0 + 2 * (4 - count O b))%nat as -> by lia.
    rewrite Nat.odd_add_mul_2. reflexivity.
Qed.

Lemma player_by_parity_witness :
  reachable [[Some X; None; None]; [None; None; None]; [None; None; None]] /\
  (count X [[Some X; None; None]; [None; None; None]; [None; None; None]]
   + count O [[Some X; None; None]; [None; None; None]; [None; None; None]]
   + empties [[Some X; None; None]; [None; None; None]; [None; None; None]]
   = 9)%nat /\
  player [[Some X; None; None]; [None; None; None]; [None; None; None]]
  = Ok (if Nat.odd (empties [[Some X; None; None]; [None; None; None];
                             [None; None; None]]) then X else O).
Proof.
  assert (reachable [[Some X; None; None]; [None; None; None]; [None; None; None]])
    as R.
  { apply (@reach_step initial_state (0, 0)); [apply reach_init | reflexivity]. }
  split; [exact R|]. exact (player_by_parity _ R).
Defined.

Lemma ext_le_antisym (a b : ext) : ext_le a b -> ext_le b a -> a = b.
Proof.
  unfold ext_le. destruct a as [|x|], b as [|y|]; simpl;
    try discriminate; try reflexivity.
  intros H1 H2. apply Z.ltb_ge in H1, H2. f_equal. lia.
Qed.

Lemma ext_ge_antisym (a b : ext) : ext_ge a b -> ext_ge b a -> a = b.
Proof. unfold ext_ge. intros H1 H2. apply ext_le_antisym; assumption. Qed.

Section FoldOrder.

Context {A B : Type}.
Variable r : A -> res B.
Variable leq : ext -> ext -> Prop.
Variable better : ext -> ext -> bool.
Hypothesis leq_refl : forall a, leq a a.
Hypothesis leq_trans : forall a b c, leq a b -> leq b c -> leq a c.
Hypothesis leq_antisym : forall a b, leq a b -> leq b a -> a = b.
Hypothesis better_true : forall v x, better v x = true -> leq v x.
Hypothesis better_false : forall v x, better v x = false -> leq x v.

(** The result of the loop does not depend on the order of the actions. *)
Lemma best_perm (h : B -> res ext) (l l' : list A) (s v : ext) :
  Permutation l l' ->
  for_each l s (fold_body r better h) = Ok v ->
  for_each l' s (fold_body r better h) = Ok v.
Proof.
  intros Hp Hl.
  destruct (best_lower r leq better leq_refl leq_trans better_true better_false
              h l s Hl) as [Hs Hall].
  destruct (best_total r better h l' s) as [v' Hl'].
  { intros a Hin. apply (Permutation_in _ (Permutation_sym Hp)) in Hin.
    destruct (Hall a Hin) as (b' & x & Hr & Hx & _). eauto. }
  destruct (best_lower r leq better leq_refl leq_trans better_true better_false
              h l' s Hl') as [Hs' Hall'].
  rewrite Hl'. f_equal. apply leq_antisym.
  - apply (best_upper r leq better h l' v s Hl' Hs).
    intros a b' x Hin Hr Hx.
    apply (Permutation_in _ (Permutation_sym Hp)) in Hin.
    destruct (Hall a Hin) as (b'' & x' & Hr' & Hx' & Hle).
    assert (b'' = b') as -> by congruence.
    assert (x' = x) as -> by congruence. assumption.
  - apply (best_upper r leq better h l v' s Hl Hs').
    intros a b' x Hin Hr Hx.
    apply (Permutation_in _ Hp) in Hin.
    destruct (Hall' a Hin) as (b'' & x' & Hr' & Hx' & Hle).
    assert (b'' = b') as -> by congruence.
    assert (x' = x) as -> by congruence. assumption.
Qed.

End FoldOrder.

Lemma utility_range (b : board) (u : Z) :
  wf_board b -> utility b = Ok u -> -1 <= u <= 1.
Proof.
  intros Hwf Hu. rewrite (utility_lines b Hwf) in Hu.
  destruct (has_line b O); [inversion Hu; lia|].
  destruct (has_line b X); inversion Hu; lia.
Qed.

Lemma actions_nonempty (b : board) (acts : list action) :
  wf_board b -> terminal b = Ok false -> actions b = Ok acts -> acts <> [].
Proof.
  intros Hwf Ht Ha. rewrite (terminal_lines b Hwf) in Ht.
  assert (acts = filter (fun a => is_empty (cell_of b a)) grid) as E
    by (rewrite (actions_spec Hwf) in Ha; congruence).
  pose proof (actions_length b Hwf) as Hlen. rewrite <- E in Hlen.
  intros ->. simpl in Hlen. rewrite <- Hlen in Ht.
  rewrite !orb_true_r in Ht. discriminate.
Qed.

Section ValueFacts.

Variable so : list action -> list action.
Hypothesis so_perm : forall l, Permutation (so l) l.

(** The loop of a node, for the side to move. *)
Lemma node_loop (turn : mark) (k : nat) (b : board) (v : ext) :
  wf_board b ->
  value_at so turn (S k) b = Ok v ->
  (terminal b = Ok true /\ exists u, utility b = Ok u /\ v = Fin u) \/
  (terminal b = Ok false /\ exists acts, actions b = Ok acts /\ acts <> [] /\
     for_each (so acts) (match turn with X => NegInf | O => PosInf end)
       (match turn with
        | X => fold_body (result b) ext_ltb (min_value so k)
        | O => fold_body (result b) min_better (max_value so k)
        end) = Ok v).
Proof.
  intros Hwf Hv. rewrite value_at_S in Hv. apply node_inv in Hv.
  destruct Hv as [H|(Ht & acts & Ha & Hl)]; [left; assumption|].
  right. split; [assumption|]. exists acts. split; [assumption|].
  split; [|assumption]. apply (actions_nonempty b acts Hwf Ht Ha).
Qed.

(** What the loop of a node says about the children. *)
Lemma node_children (turn : mark) (k : nat) (b : board) (acts : list action)
    (v : ext) :
  for_each (so acts) (match turn with X => NegInf | O => PosInf end)
    (match turn with
     | X => fold_body (result b) ext_ltb (min_value so k)
     | O => fold_body (result b) min_better (max_value so k)
     end) = Ok v ->
  forall a, In a acts ->
    exists b' x, result b a = Ok b' /\
      value_at so (other turn) k b' = Ok x /\
      match turn with X => ext_le x v | O => ext_le v x end.
Proof.
  intros Hl a Hin. apply (proj2 (in_so so so_perm acts a)) in Hin.
  destruct turn; simpl.
  - destruct (best_lower (result b) ext_le ext_ltb ext_le_refl ext_le_trans
                ext_ltb_le max_better_false _ _ _ Hl) as [_ Hall].
    destruct (Hall a Hin) as (b' & x & Hr & Hx & Hle). eauto.
  - destruct (best_lower (result b) ext_ge min_better ext_ge_refl ext_ge_trans
                min_better_true min_better_false _ _ _ Hl) as [_ Hall].
    destruct (Hall a Hin) as (b' & x & Hr & Hx & Hle). eauto.
Qed.

Lemma value_fin (n : nat) : forall b turn v,
  wf_board b -> value_at so turn n b = Ok v ->
  exists z, v = Fin z /\ -1 <= z <= 1.
Proof.
  induction n as [|n IH]; intros b turn v Hwf Hv.
  { destruct turn; discriminate. }
  destruct (node_loop turn n b v Hwf Hv)
    as [(Ht & u & Hu & ->)|(Ht & acts & Ha & Hne & Hl)].
  - exists u. split; [reflexivity|]. apply (utility_range b u Hwf Hu).
  - pose proof (node_children turn n b acts v Hl) as Hch.
    assert (exists a b', In a (so acts) /\ result b a = Ok b' /\
              value_at so (other turn) n b' = Ok v) as (a & b' & _ & Hr & Hx).
    { destruct turn.
      - destruct (best_arg (result b) ext_ltb _ _ _ (@None action) Hl)
          as (om' & _ & [[_ E]|(a & b' & Hin & _ & Hr & Hx)]).
        + exfalso. destruct acts as [|a0 t]; [congruence|].
          destruct (Hch a0 (or_introl eq_refl)) as (b' & x & Hr & Hx & Hle).
          destruct (result_facts a0 Hwf Hr) as (p & _ & Hwf' & _).
          destruct (IH b' O x Hwf' Hx) as (z & -> & _).
          subst v. discriminate.
        + exists a, b'. auto.
      - destruct (best_arg (result b) min_better _ _ _ (@None action) Hl)
          as (om' & _ & [[_ E]|(a & b' & Hin & _ & Hr & Hx)]).
        + exfalso. destruct acts as [|a0 t]; [congruence|].
          destruct (Hch a0 (or_introl eq_refl)) as (b' & x & Hr & Hx & Hle).
          destruct (result_facts a0 Hwf Hr) as (p & _ & Hwf' & _).
          destruct (IH b' X x Hwf' Hx) as (z & -> & _).
          subst v. discriminate.
        + exists a, b'. auto. }
    destruct (result_facts a Hwf Hr) as (p & _ & Hwf' & _).
    apply (IH b' (other turn) v Hwf' Hx).
Qed.

Lemma value_at_total (turn : mark) (n : nat) (b : board) :
  wf_board b -> (empties b < n)%nat ->
  exists z, value_at so turn n b = Ok (Fin z) /\ -1 <= z <= 1.
Proof.
  intros Hwf Hn.
  destruct (@value_total so so_perm n b Hwf Hn) as [[v1 H1] [v2 H2]].
  destruct turn; simpl.
  - destruct (value_fin n b X v1 Hwf H1) as (z & -> & Hz). eauto.
  - destruct (value_fin n b O v2 Hwf H2) as (z & -> & Hz). eauto.
Qed.

(** X8: with a sufficient recursion budget [max_value] and [min_value]
    return -1, 0 or 1 on every 3x3 board: the infinities they start from
    never come out. *)
Theorem value_range (n : nat) (b : board) :
  wf_board b -> (empties b < n)%nat ->
  (exists z, max_value so n b = Ok (Fin z) /\ -1 <= z <= 1) /\
  (exists z, min_value so n b = Ok (Fin z) /\ -1 <= z <= 1).
Proof.
  intros Hwf Hn. split.
  - apply (value_at_total X n b Hwf Hn).
  - apply (value_at_total O n b Hwf Hn).
Qed.

Lemma value_at_mono (turn : mark) (n m : nat) (b : board) (v : ext) :
  (n <= m)%nat -> value_at so turn n b = Ok v -> value_at so turn m b = Ok v.
Proof.
  intros Hle Hv. destruct turn; simpl in *;
    eapply value_mono_le; eauto.
Qed.

(** X9: on a 3x3 board that is not terminal [minimax] returns an empty
    cell, and the move is optimal: the board it leads to has, for the
    opponent, the value of the current board, and no other legal move leads
    to a better one for the player to move. *)
Theorem minimax_optimal_move (fuel : nat) (b : board) :
  wf_board b -> terminal b = Ok false -> (empties b <= fuel)%nat ->
  exists turn a b' z acts,
    player b = Ok turn /\ actions b = Ok acts /\
    minimax so fuel b = Ok (Some a) /\
    In a acts /\ result b a = Ok b' /\
    value_at so turn (S fuel) b = Ok (Fin z) /\
    value_at so (other turn) fuel b' = Ok (Fin z) /\
    forall a2, In a2 acts ->
      exists b2 z2, result b a2 = Ok b2 /\
        value_at so (other turn) fuel b2 = Ok (Fin z2) /\
        match turn with X => z2 <= z | O => z <= z2 end.
Proof.
  intros Hwf Ht Hfuel.
  exists (if Nat.eqb (count X b) (count O b) then X else O).
  set (turn := if Nat.eqb (count X b) (count O b) then X else O).
  assert (player b = Ok turn) as Hp by (apply player_spec; assumption).
  destruct (value_at_total turn (S fuel) b Hwf) as (z & Hv & _); [lia|].
  destruct (node_loop turn fuel b (Fin z) Hwf Hv)
    as [(Ht' & _)|(_ & acts & Ha & Hne & Hl)]; [congruence|].
  destruct (@minimax_attains so fuel b turn acts z Ht Hp Ha Hl)
    as (a & b' & Hmm & Hin & Hr & Hv').
  exists a, b', z, acts.
  split; [assumption|]. split; [assumption|]. split; [assumption|].
  split; [apply (proj1 (in_so so so_perm acts a)); assumption|].
  split; [assumption|]. split; [assumption|].
  split; [destruct turn; exact Hv'|].
  intros a2 Hin2.
  destruct (node_children turn fuel b acts (Fin z) Hl a2 Hin2)
    as (b2 & x & Hr2 & Hx & Hle).
  destruct (result_facts a2 Hwf Hr2) as (p & _ & Hwf2 & _).
  destruct (value_fin fuel b2 (other turn) x Hwf2 Hx) as (z2 & -> & _).
  exists b2, z2. split; [assumption|]. split; [assumption|].
  destruct turn; unfold ext_le in Hle; simpl in Hle;
    apply Z.ltb_ge in Hle; assumption.
Qed.

(** From a board of value [z], optimal play by both sides ends on a board of
    utility [z]. *)
Lemma play_value (k : nat) : forall b turn fuel moves z,
  wf_board b -> balanced b -> player b = Ok turn ->
  value_at so turn k b = Ok (Fin z) ->
  (k <= S fuel)%nat -> (k <= S moves)%nat ->
  exists b', self_play so fuel moves b = Ok b' /\
    terminal b' = Ok true /\ utility b' = Ok z.
Proof.
  induction k as [|k IH]; intros b turn fuel moves z Hwf Hbal Hp Hv Hf Hm.
  { destruct turn; discriminate. }
  destruct (node_loop turn k b (Fin z) Hwf Hv)
    as [(Ht & u & Hu & E)|(Ht & acts & Ha & Hne & Hl)].
  - inversion E; subst u. exists b.
    rewrite (@self_play_terminal so fuel moves b Ht). auto.
  - assert (k <= fuel)%nat as Hkf by lia.
    assert (for_each (so acts) (match turn with X => NegInf | O => PosInf end)
              (match turn with
               | X => fold_body (result b) ext_ltb (min_value so fuel)
               | O => fold_body (result b) min_better (max_value so fuel)
               end) = Ok (Fin z)) as Hl'.
    { destruct turn;
        (eapply best_mono; [|exact Hl]);
        intros a b' x _ Hr Hx; eapply value_mono_le; eauto. }
    destruct (@minimax_attains so fuel b turn acts z Ht Hp Ha Hl')
      as (a & b' & Hmm & Hin & Hr & Hv').
    apply (proj1 (in_so so so_perm acts a)) in Hin.
    destruct (node_children turn k b acts (Fin z) Hl a Hin)
      as (b'' & x & Hr' & Hx & _).
    assert (b'' = b') as -> by congruence.
    assert (x = Fin z) as ->.
    { pose proof (value_at_mono (other turn) k fuel b' x Hkf Hx) as Hx'.
      destruct turn; simpl in *; congruence. }
    destruct (balanced_step a Hwf Hbal Hr) as (Hwf' & Hbal' & p & Hp1 & Hp2).
    assert (p = turn) as -> by congruence.
    destruct moves as [|moves].
    { assert (k = 0)%nat as -> by lia. destruct turn; discriminate. }
    rewrite (@self_play_step so fuel moves b b' a Ht Hmm Hr).
    apply (IH b' (other turn) fuel moves z); auto; lia.
Qed.

(** X10: from every board reachable from the initial state, play in which
    both sides apply the action returned by [minimax] ends, after at most as
    many moves as there are empty cells, on a terminal board whose utility is
    the minimax value of the starting board. *)
Theorem self_play_reaches_value (fuel moves : nat) (b : board) :
  reachable b -> (empties b <= fuel)%nat -> (empties b <= moves)%nat ->
  exists turn z b',
    player b = Ok turn /\
    value_at so turn (S fuel) b = Ok (Fin z) /\
    self_play so fuel moves b = Ok b' /\
    terminal b' = Ok true /\ utility b' = Ok z.
Proof.
  intros Hr Hf Hm. destruct (reachable_invariant Hr) as [Hwf Hbal].
  exists (if Nat.eqb (count X b) (count O b) then X else O).
  set (turn := if Nat.eqb (count X b) (count O b) then X else O).
  assert (player b = Ok turn) as Hp by (apply player_spec; assumption).
  destruct (value_at_total turn (S (empties b)) b Hwf) as (z & Hv & _); [lia|].
  destruct (play_value (S (empties b)) b turn fuel moves z Hwf Hbal Hp Hv)
    as (b' & Hs & Ht & Hu); [lia | lia |].
  exists z, b'. split; [assumption|].
  split; [apply (value_at_mono turn (S (empties b)) (S fuel) b); [lia | assumption]|].
  auto.
Qed.

End ValueFacts.

Lemma value_range_witness :
  (forall l : list action, Permutation ((fun l => l) l) l) /\
  wf_board [[Some X; Some O; Some X]; [Some O; Some X; Some O];
            [None; None; None]] /\
  (empties [[Some X; Some O; Some X]; [Some O; Some X; Some O];
            [None; None; None]] < 4)%nat /\
  (exists z, max_value (fun l => l) 4
               [[Some X; Some O; Some X]; [Some O; Some X; Some O];
                [None; None; None]] = Ok (Fin z) /\ -1 <= z <= 1) /\
  (exists z, min_value (fun l => l) 4
               [[Some X; Some O; Some X]; [Some O; Some X; Some O];
                [None; None; None]] = Ok (Fin z) /\ -1 <= z <= 1).
Proof.
  assert (forall l : list action, Permutation ((fun l => l) l) l) as P
    by (intros l; apply Permutation_refl).
  split; [exact P|]. split; [apply explicit_wf|].
  split; [vm_compute; lia|].
  apply (value_range (fun l => l) P 4); [apply explicit_wf | vm_compute; lia].
Defined.

Lemma minimax_optimal_move_witness :
  (forall l : list action, Permutation ((fun l => l) l) l) /\
  wf_board [[Some X; Some O; Some X]; [Some O; Some X; Some O];
            [None; None; None]] /\
  terminal [[Some X; Some O; Some X]; [Some O; Some X; Some O];
            [None; None; None]] = Ok false /\
  (empties [[Some X; Some O; Some X]; [Some O; Some X; Some O];
            [None; None; None]] <= 3)%nat /\
  exists turn a b' z acts,
    player [[Some X; Some O; Some X]; [Some O; Some X; Some O];
            [None; None; None]] = Ok turn /\
    actions [[Some X; Some O; Some X]; [Some O; Some X; Some O];
             [None; None; None]] = Ok acts /\
    minimax (fun l => l) 3
      [[Some X; Some O; Some X]; [Some O; Some X; Some O];
       [None; None; None]] = Ok (Some a) /\
    In a acts /\
    result [[Some X; Some O; Some X]; [Some O; Some X; Some O];
            [None; None; None]] a = Ok b' /\
    value_at (fun l => l) turn 4
      [[Some X; Some O; Some X]; [Some O; Some X; Some O];
       [None; None; None]] = Ok (Fin z) /\
    value_at (fun l => l) (other turn) 3 b' = Ok (Fin z) /\
    forall a2, In a2 acts ->
      exists b2 z2,
        result [[Some X; Some O; Some X]; [Some O; Some X; Some O];
                [None; None; None]] a2 = Ok b2 /\
        value_at (fun l => l) (other turn) 3 b2 = Ok (Fin z2) /\
        match turn with X => z2 <= z | O => z <= z2 end.
Proof.
  assert (forall l : list action, Permutation ((fun l => l) l) l) as P
    by (intros l; apply Permutation_refl).
  split; [exact P|]. split; [apply explicit_wf|].
  split; [reflexivity|]. split; [vm_compute; lia|].
  apply (minimax_optimal_move (fun l => l) P 3);
    [apply explicit_wf | reflexivity | vm_compute; lia].
Defined.

Lemma self_play_reaches_value_witness :
  (forall l : list action, Permutation ((fun l => l) l) l) /\
  reachable initial_state /\
  (empties initial_state <= 9)%nat /\ (empties initial_state <= 9)%nat /\
  exists turn z b',
    player initial_state = Ok turn /\
    value_at (fun l => l) turn 10 initial_state = Ok (Fin z) /\
    self_play (fun l => l) 9 9 initial_state = Ok b' /\
    terminal b' = Ok true /\ utility b' = Ok z.
Proof.
  assert (forall l : list action, Permutation ((fun l => l) l) l) as P
    by (intros l; apply Permutation_refl).
  split; [exact P|]. split; [apply reach_init|].
  split; [vm_compute; lia|]. split; [vm_compute; lia|].
  apply (self_play_reaches_value (fun l => l) P 9 9 initial_state);
    [apply reach_init | vm_compute; lia | vm_compute; lia].
Defined.

Section OrderIndependence.

Variable so1 so2 : list action -> list action.
Hypothesis so1_perm : forall l, Permutation (so1 l) l.
Hypothesis so2_perm : forall l, Permutation (so2 l) l.

Lemma value_transfer (n : nat) : forall b turn v,
  value_at so1 turn n b = Ok v -> value_at so2 turn n b = Ok v.
Proof.
  induction n as [|n IH]; intros b turn v Hv.
  { destruct turn; discriminate. }
  rewrite value_at_S in Hv. rewrite value_at_S. apply node_inv in Hv.
  destruct Hv as [(Ht & u & Hu & ->)|(Ht & acts & Ha & Hl)];
    rewrite Ht; simpl; [rewrite Hu; reflexivity|].
  rewrite Ha; simpl.
  assert (Permutation (so1 acts) (so2 acts)) as Hp
    by (eapply Permutation_trans; [apply so1_perm | apply Permutation_sym, so2_perm]).
  destruct turn.
  - apply (best_perm (result b) ext_le ext_ltb ext_le_refl ext_le_trans
             ext_le_antisym ext_ltb_le max_better_false _ _ _ _ _ Hp).
    apply (best_mono (result b) ext_ltb (min_value so1 n)); [|assumption].
    intros a b' x _ _ Hx. apply (IH b' O x Hx).
  - apply (best_perm (result b) ext_ge min_better ext_ge_refl ext_ge_trans
             ext_ge_antisym min_better_true min_better_false _ _ _ _ _ Hp).
    apply (best_mono (result b) min_better (max_value so1 n)); [|assumption].
    intros a b' x _ _ Hx. apply (IH b' X x Hx).
Qed.

(** X11: the values computed by [max_value] and [min_value] do not depend on
    the order in which Python iterates over the set of actions. *)
Theorem value_order_independent (n : nat) (b : board) :
  wf_board b -> (empties b < n)%nat ->
  max_value so1 n b = max_value so2 n b /\
  min_value so1 n b = min_value so2 n b.
Proof.
  intros Hwf Hn.
  destruct (@value_total so1 so1_perm n b Hwf Hn) as [[v1 H1] [v2 H2]].
  split.
  - rewrite H1. symmetry. apply (value_transfer n b X v1 H1).
  - rewrite H2. symmetry. apply (value_transfer n b O v2 H2).
Qed.

End OrderIndependence.

Lemma value_order_independent_witness :
  (forall l : list action, Permutation ((fun l => l) l) l) /\
  (forall l : list action, Permutation ((fun l => rev l) l) l) /\
  wf_board [[Some X; Some O; Some X]; [Some O; Some X; Some O];
            [None; None; None]] /\
  (empties [[Some X; Some O; Some X]; [Some O; Some X; Some O];
            [None; None; None]] < 4)%nat /\
  max_value (fun l => l) 4
    [[Some X; Some O; Some X]; [Some O; Some X; Some O]; [None; None; None]]
  = max_value (fun l => rev l) 4
      [[Some X; Some O; Some X]; [Some O; Some X; Some O]; [None; None; None]] /\
  min_value (fun l => l) 4
    [[Some X; Some O; Some X]; [Some O; Some X; Some O]; [None; None; None]]
  = min_value (fun l => rev l) 4
      [[Some X; Some O; Some X]; [Some O; Some X; Some O]; [None; None; None]].
Proof.
  assert (forall l : list action, Permutation ((fun l => l) l) l) as P1
    by (intros l; apply Permutation_refl).
  assert (forall l : list action, Permutation ((fun l => rev l) l) l) as P2
    by (intros l; apply Permutation_sym, Permutation_rev).
  split; [exact P1|]. split; [exact P2|]. split; [apply explicit_wf|].
  split; [vm_compute; lia|].
  apply (value_order_independent (fun l => l) (fun l => rev l) P1 P2 4);
    [apply explicit_wf | vm_compute; lia].
Defined.

End GameFacts.

(* ================================================================= *)
(** ** heredity.py: loading, enumeration and the accumulator *)

Module PedigreeFacts.
Import Heredity HeredityFacts EnumerationFacts.
Local Open Scope Q_scope.

(** *** [load_data] *)

Lemma load_data_body (data : population) (row : csv_row) :
  (nm <- lookup row "name" ;;
   m <- lookup row "mother" ;;
   f <- lookup row "father" ;;
   t <- lookup row "trait" ;;
   Ok (dict_set data nm
         {| name := nm;
            mother := or_None m;
            father := or_None f;
            trait := if String.eqb t "1" then Some true
                     else if String.eqb t "0" then Some false
                     else None |}))
  = match person_of_row row with
    | Some p => Ok (dict_set data (name p) p)
    | None => Raise KeyError
    end.
Proof.
  unfold person_of_row, lookup.
  destruct (dict_get row "name") as [nm|]; [|reflexivity].
  destruct (dict_get row "mother") as [m|]; [|reflexivity].
  destruct (dict_get row "father") as [f|]; [|reflexivity].
  destruct (dict_get row "trait") as [t|]; reflexivity.
Qed.

Lemma person_of_row_name (row : csv_row) (p : person) :
  person_of_row row = Some p -> dict_get row "name" = Some (name p).
Proof.
  unfold person_of_row.
  destruct (dict_get row "name") as [nm|]; [|discriminate].
  destruct (dict_get row "mother") as [m|]; [|discriminate].
  destruct (dict_get row "father") as [f|]; [|discriminate].
  destruct (dict_get row "trait") as [t|]; [|discriminate].
  intros H. inversion H. reflexivity.
Qed.

Lemma person_of_row_None (row : csv_row) :
  dict_get row "name" = None \/ dict_get row "mother" = None \/
  dict_get row "father" = None \/ dict_get row "trait" = None ->
  person_of_row row = None.
Proof.
  unfold person_of_row.
  destruct (dict_get row "name"), (dict_get row "mother"),
    (dict_get row "father"), (dict_get row "trait");
    intros [H|[H|[H|H]]]; try discriminate; reflexivity.
Qed.

Lemma NoDup_keys_dict_set {V} (d : dict V) (k : string) (v : V) :
  NoDup (keys d) -> NoDup (keys (dict_set d k v)).
Proof.
  intros Hnd. rewrite keys_dict_set.
  destruct (in_set k (keys d)) eqn:E; [assumption|].
  apply NoDup_app; [assumption | repeat constructor; auto |].
  intros x Hx [<-|[]].
  apply in_set_In in Hx. congruence.
Qed.

Lemma in_dict_set {V} (d : dict V) (k k' : string) (v v' : V) :
  In (k', v') (dict_set d k v) -> (k' = k /\ v' = v) \/ In (k', v') d.
Proof.
  induction d as [|[k0 v0] t IH]; simpl.
  - intros [E|[]]. inversion E. auto.
  - destruct (String.eqb k0 k) eqn:E; simpl.
    + apply String.eqb_eq in E. subst k0.
      intros [H|H]; [inversion H; auto | auto].
    + intros [H|H]; [auto|]. destruct (IH H); auto.
Qed.

Lemma in_keys_dict_set {V} (d : dict V) (k k' : string) (v : V) :
  In k' (keys (dict_set d k v)) <-> k' = k \/ In k' (keys d).
Proof.
  rewrite keys_dict_set. destruct (in_set k (keys d)) eqn:E.
  - apply in_set_In in E. split; [auto|]. intros [->|H]; assumption.
  - rewrite in_app_iff. simpl. intuition.
Qed.

Lemma load_data_state (rows : list csv_row) : forall data,
  (forall row, In row rows -> complete row) ->
  NoDup (keys data) ->
  (forall k p, In (k, p) data -> name p = k) ->
  exists pop,
    for_each rows data
      (fun data row =>
         nm <- lookup row "name" ;;
         m <- lookup row "mother" ;;
         f <- lookup row "father" ;;
         t <- lookup row "trait" ;;
         Ok (dict_set data nm
               {| name := nm;
                  mother := or_None m;
                  father := or_None f;
                  trait := if String.eqb t "1" then Some true
                           else if String.eqb t "0" then Some false
                           else None |})) = Ok pop /\
    NoDup (keys pop) /\
    (forall k p, In (k, p) pop -> name p = k) /\
    (forall n, In n (keys pop) <->
               In n (keys data) \/
               exists row, In row rows /\ dict_get row "name" = Some n).
Proof.
  induction rows as [|row t IH]; intros data Hc Hnd Hname.
  - exists data. simpl. repeat split; auto.
    + intros [H|(row & [] & _)]. assumption.
  - simpl. rewrite load_data_body.
    destruct (Hc row (or_introl eq_refl)) as [p Hp]. rewrite Hp. simpl.
    destruct (IH (dict_set data (name p) p)) as (pop & Hl & Hnd' & Hname' & Hk).
    + intros; apply Hc; right; assumption.
    + apply NoDup_keys_dict_set; assumption.
    + intros k q Hin. apply in_dict_set in Hin.
      destruct Hin as [[-> ->]|Hin]; [reflexivity | apply Hname; assumption].
    + exists pop. split; [exact Hl|]. split; [assumption|].
      split; [assumption|].
      intros n. rewrite Hk, in_keys_dict_set. split.
      * intros [[->|H]|(r & Hr & Hn)].
        -- right. exists row. split; [left; reflexivity|].
           apply person_of_row_name; assumption.
        -- left; assumption.
        -- right. exists r. split; [right; assumption | assumption].
      * intros [H|(r & [<-|Hr] & Hn)].
        -- left; right; assumption.
        -- left; left. apply person_of_row_name in Hp. congruence.
        -- right. exists r. auto.
Qed.

(** X12: when every row has the four columns, the dictionary returned by
    [load_data] has one entry for each name that occurs in the file and for
    no other, and the record stored under a key carries that key as its
    [name]. *)
Theorem load_data_keys (rows : list csv_row) :
  (forall row, In row rows -> complete row) ->
  exists pop,
    load_data rows = Ok pop /\
    NoDup (keys pop) /\
    (forall k p, In (k, p) pop -> name p = k) /\
    (forall n, In n (keys pop) <->
               exists row, In row rows /\ dict_get row "name" = Some n).
Proof.
  intros Hc.
  destruct (load_data_state rows [] Hc) as (pop & Hl & Hnd & Hname & Hk).
  - constructor.
  - intros k p [].
  - exists pop. split; [exact Hl|]. split; [assumption|].
    split; [assumption|].
    intros n. rewrite Hk. simpl. tauto.
Qed.

Lemma load_data_keys_witness :
  (forall row, In row dangling_rows -> complete row) /\
  exists pop,
    load_data dangling_rows = Ok pop /\
    NoDup (keys pop) /\
    (forall k p, In (k, p) pop -> name p = k) /\
    (forall n, In n (keys pop) <->
               exists row, In row dangling_rows /\ dict_get row "name" = Some n).
Proof.
  assert (forall row, In row dangling_rows -> complete row) as Hc.
  { intros row [<-|[]]. eexists. reflexivity. }
  split; [exact Hc|]. exact (load_data_keys dangling_rows Hc).
Defined.

(** X13: when the header line of the file lacks one of the columns [name],
    [mother], [father], [trait] and the file has at least one row,
    [load_data] raises [KeyError].  ([csv.DictReader] gives every row the
    keys of the header, so the column is then absent from every row; a row
    that is merely shorter than the header raises nothing.) *)
Theorem load_data_missing_column (header : list string)
    (rows : list csv_row) (column : string) :
  rows <> [] ->
  (forall row, In row rows -> keys row = header) ->
  In column ["name"; "mother"; "father"; "trait"]%string ->
  ~ In column header ->
  load_data rows = Raise KeyError.
Proof.
  intros Hne Hkeys Hcol Hmiss.
  destruct rows as [|row t]; [contradiction|].
  assert (dict_get row column = None) as Hnone.
  { apply dict_get_None. rewrite (Hkeys row (or_introl eq_refl)). exact Hmiss. }
  assert (person_of_row row = None) as Hrow.
  { apply person_of_row_None.
    destruct Hcol as [<-|[<-|[<-|[<-|[]]]]]; tauto. }
  unfold load_data. cbn [for_each]. rewrite load_data_body, Hrow. reflexivity.
Qed.

Lemma load_data_missing_column_witness :
  [[("name", "Harry"); ("mother", "Lily"); ("trait", "1")]%string] <> [] /\
  (forall row,
     In row [[("name", "Harry"); ("mother", "Lily"); ("trait", "1")]%string] ->
     keys row = ["name"; "mother"; "trait"]%string) /\
  In "father"%string ["name"; "mother"; "father"; "trait"]%string /\
  ~ In "father"%string ["name"; "mother"; "trait"]%string /\
  load_data [[("name", "Harry"); ("mother", "Lily"); ("trait", "1")]%string]
  = Raise KeyError.
Proof.
  assert ([[("name", "Harry"); ("mother", "Lily"); ("trait", "1")]%string] <> [])
    as Hne by discriminate.
  assert (forall row,
            In row [[("name", "Harry"); ("mother", "Lily"); ("trait", "1")]%string] ->
            keys row = ["name"; "mother"; "trait"]%string) as Hk.
  { intros row [<-|[]]. reflexivity. }
  assert (In "father"%string ["name"; "mother"; "father"; "trait"]%string) as Hc
    by (right; right; left; reflexivity).
  assert (~ In "father"%string ["name"; "mother"; "trait"]%string) as Hm.
  { intros [E|[E|[E|[]]]]; discriminate. }
  split; [exact Hne|]. split; [exact Hk|]. split; [exact Hc|].
  split; [exact Hm|].
  exact (load_data_missing_column ["name"; "mother"; "trait"]%string
           [[("name", "Harry"); ("mother", "Lily"); ("trait", "1")]%string]
           "father"%string Hne Hk Hc Hm).
Defined.

(** *** [powerset] *)

Lemma combinations_nil_S {A} (r : nat) : @combinations A [] (S r) = [].
Proof. reflexivity. Qed.

Lemma combinations_0 {A} (l : list A) : combinations l 0 = [[]].
Proof. destruct l; reflexivity. Qed.

Lemma combinations_long {A} (l : list A) : forall r,
  (List.length l < r)%nat -> combinations l r = [].
Proof.
  induction l as [|x t IH]; intros r Hr.
  - destruct r; [simpl in Hr; lia | reflexivity].
  - destruct r as [|r]; [lia|]. simpl in *.
    rewrite (IH r) by lia. rewrite (IH (S r)) by lia. reflexivity.
Qed.

Lemma count_upto_S {A} (l : list A) (n : nat) :
  count_upto l (S n) =
  (count_upto l n + List.length (combinations l (S n)))%nat.
Proof.
  unfold count_upto.
  rewrite (seq_S (S n) 0). rewrite map_app, list_sum_app. simpl. lia.
Qed.

Lemma count_upto_cons {A} (x : A) (t : list A) (n : nat) :
  count_upto (x :: t) (S n) = (count_upto t n + count_upto t (S n))%nat.
Proof.
  induction n as [|n IH].
  - unfold count_upto. cbn [seq map list_sum].
    change (combinations (x :: t) 1)
      with (map (cons x) (combinations t 0) ++ combinations t 1).
    rewrite length_app, length_map.
    rewrite !combinations_0. simpl List.length. unfold list_sum. cbn [fold_right]. lia.
  - rewrite (count_upto_S (x :: t) (S n)), IH.
    rewrite (count_upto_S t (S n)), (count_upto_S t n).
    change (combinations (x :: t) (S (S n)))
      with (map (cons x) (combinations t (S n)) ++ combinations t (S (S n))).
    rewrite length_app, length_map. lia.
Qed.

Lemma count_upto_total {A} (l : list A) : forall n,
  (List.length l <= n)%nat -> count_upto l n = (2 ^ List.length l)%nat.
Proof.
  induction l as [|x t IH]; intros n Hn.
  - induction n as [|n IHn]; [reflexivity|].
    rewrite count_upto_S, IHn by (simpl; lia). reflexivity.
  - destruct n as [|n]; [simpl in Hn; lia|].
    rewrite count_upto_cons. simpl in Hn.
    rewrite (IH n), (IH (S n)) by lia.
    simpl. lia.
Qed.

Lemma combinations_sub {A} (l : list A) : forall r t,
  In t (combinations l r) ->
  List.length t = r /\ (forall x, In x t -> In x l) /\ (NoDup l -> NoDup t).
Proof.
  induction l as [|x u IH]; intros r t Hin.
  - destruct r; simpl in Hin; [|destruct Hin].
    destruct Hin as [<-|[]].
    repeat split; auto; try (intros y []); try (intros; constructor).
  - destruct r as [|r]; simpl in Hin.
    + destruct Hin as [<-|[]].
      repeat split; auto; try (intros y []); try (intros; constructor).
    + apply in_app_or in Hin. destruct Hin as [Hin|Hin].
      * apply in_map_iff in Hin. destruct Hin as (t' & <- & Hin).
        destruct (IH r t' Hin) as (Hl & Hs & Hn).
        split; [simpl; congruence|]. split.
        -- intros y [<-|Hy]; [left; reflexivity | right; auto].
        -- intros Hnd. inversion Hnd; subst. constructor; auto.
      * destruct (IH (S r) t Hin) as (Hl & Hs & Hn).
        split; [assumption|]. split.
        -- intros y Hy. right. auto.
        -- intros Hnd. inversion Hnd; subst. auto.
Qed.

Section Powerset.

Variable set_list : list string -> list string.
Hypothesis set_list_perm : forall l, Permutation (set_list l) l.

(** X14: [powerset] of a collection of [n] names returns [2 ^ n] lists; each
    of them only holds names of the collection, without repetition when the
    collection has none, and every sub-collection occurs among them. *)
Theorem powerset_size (s : list string) :
  List.length (powerset set_list s) = (2 ^ List.length s)%nat /\
  (forall t, In t (powerset set_list s) ->
     (forall x, In x t -> In x s) /\ (NoDup s -> NoDup t)) /\
  (forall f : string -> bool,
     In (filter f (set_list s)) (powerset set_list s)).
Proof.
  split; [|split].
  - unfold powerset. rewrite length_flat_map.
    replace (List.length (set_list s) + 1)%nat
      with (S (List.length (set_list s))) by lia.
    fold (count_upto (set_list s) (List.length (set_list s))).
    rewrite count_upto_total by lia.
    rewrite (Permutation_length (set_list_perm s)). reflexivity.
  - intros t Hin. unfold powerset in Hin.
    apply in_flat_map in Hin. destruct Hin as (r & _ & Hin).
    destruct (combinations_sub _ _ _ Hin) as (_ & Hs & Hn).
    split.
    + intros x Hx. apply (Permutation_in _ (set_list_perm s)). auto.
    + intros Hnd. apply Hn.
      apply (Permutation_NoDup (Permutation_sym (set_list_perm s))). assumption.
  - intros f. apply powerset_filter.
Qed.

End Powerset.

Lemma powerset_size_witness :
  (forall l : list string, Permutation ((fun l => l) l) l) /\
  List.length (powerset (fun l => l) ["Harry"; "James"; "Lily"]%string)
  = (2 ^ List.length ["Harry"; "James"; "Lily"]%string)%nat /\
  (forall t, In t (powerset (fun l => l) ["Harry"; "James"; "Lily"]%string) ->
     (forall x, In x t -> In x ["Harry"; "James"; "Lily"]%string) /\
     (NoDup ["Harry"; "James"; "Lily"]%string -> NoDup t)) /\
  (forall f : string -> bool,
     In (filter f ((fun l => l) ["Harry"; "James"; "Lily"]%string))
        (powerset (fun l => l) ["Harry"; "James"; "Lily"]%string)).
Proof.
  assert (forall l : list string, Permutation ((fun l => l) l) l) as P
    by (intros l; apply Permutation_refl).
  split; [exact P|].
  exact (powerset_size (fun l => l) P ["Harry"; "James"; "Lily"]%string).
Defined.

(** *** [joint_probability] is a probability *)

Lemma jp_step_bounds (one_gene two_genes have_trait : list string)
    (probability : Q) (person : string) (entry : Heredity.person) :
  0 < probability ->
  exists q,
    jp_step one_gene two_genes have_trait probability person entry = Ok q /\
    0 < q /\ q <= probability.
Proof.
  intros Hp. unfold jp_step.
  pose proof (person_num_cases one_gene two_genes (Some person)) as Hg.
  pose proof (person_num_cases one_gene two_genes (mother entry)) as Hm.
  pose proof (person_num_cases one_gene two_genes (father entry)) as Hf.
  remember (person_num_of_genes (Some person) one_gene two_genes) as g eqn:Eg.
  remember (person_num_of_genes (mother entry) one_gene two_genes) as gm eqn:Egm.
  remember (person_num_of_genes (father entry) one_gene two_genes) as gf eqn:Egf.
  clear Eg Egm Egf.
  destruct (in_set person have_trait);
    destruct (mother entry) as [m|], (father entry) as [f|];
    destruct Hg as [->|[->| ->]];
    destruct Hm as [->|[->| ->]];
    destruct Hf as [->|[->| ->]];
    simpl; eexists; (split; [reflexivity|]);
    unfold PROBS_mutation; split; lra.
Qed.

(** X15: for any population and any three sets of names,
    [joint_probability] returns a number between 0 and 1; no input makes it
    raise.  (The number is a product of factors in (0, 1], one or two for
    each person.  As an exact number it is positive, which is how the loop
    below is shown to stay in range, but only [0 <= q] is stated: in binary64
    the product of the factors of some 140 people underflows to 0.0.) *)
Theorem joint_probability_bounds (people : population)
    (one_gene two_genes have_trait : list string) :
  exists q,
    joint_probability people one_gene two_genes have_trait = Ok q /\
    0 <= q <= 1.
Proof.
  rewrite joint_probability_unfold.
  assert (forall ks acc, (forall k, In k ks -> In k (keys people)) ->
            0 < acc -> acc <= 1 ->
            exists q,
              for_each ks acc
                (fun probability person =>
                   entry <- lookup people person ;;
                   jp_step one_gene two_genes have_trait probability person entry)
              = Ok q /\ 0 < q /\ q <= 1) as Hloop.
  { induction ks as [|k t IH]; intros acc Hin Hacc Hle.
    - exists acc. simpl. auto.
    - simpl.
      destruct (dict_get people k) as [e|] eqn:E.
      2:{ apply dict_get_None in E. exfalso. apply E. apply Hin. left; reflexivity. }
      unfold lookup. rewrite E. simpl.
      destruct (jp_step_bounds one_gene two_genes have_trait acc k e Hacc)
        as (q1 & Hq1 & Hpos & Hle1).
      rewrite Hq1. simpl.
      apply IH; [intros; apply Hin; right; assumption | assumption |].
      apply (Qle_trans _ acc); assumption. }
  destruct (Hloop (keys people) 1) as (q & Hq & Hpos & Hle);
    [auto | reflexivity | apply Qle_refl |].
  exists q. split; [exact Hq|]. split; [apply Qlt_le_weak; exact Hpos | exact Hle].
Qed.

(** *** [update] *)

Lemma update_body (one_gene two_genes have_trait : list string) (p : Q)
    (acc : accumulator) (k : string) (v : distribution) :
  lookup acc k = Ok v ->
  (let num_of_genes := person_num_of_genes (Some k) one_gene two_genes in
   let has_trait := in_set k have_trait in
   d <- lookup acc k ;;
   g <- get_gene d num_of_genes ;;
   d1 <- set_gene d num_of_genes (g + p) ;;
   let d2 := set_trait d1 has_trait (get_trait d1 has_trait + p) in
   Ok (dict_set acc k d2))
  = (v' <- update_entry one_gene two_genes have_trait p k v ;;
     Ok (dict_set acc k v')).
Proof.
  intros Hl. simpl. rewrite Hl. simpl. unfold update_entry.
  destruct (get_gene v _); simpl; [|reflexivity].
  destruct (set_gene v _ _); reflexivity.
Qed.

Lemma update_entries (acc : accumulator)
    (one_gene two_genes have_trait : list string) (p : Q) :
  NoDup (keys acc) ->
  exists acc',
    update acc one_gene two_genes have_trait p = Ok acc' /\
    keys acc' = keys acc /\
    Forall2 (fun e e' =>
               fst e' = fst e /\
               update_entry one_gene two_genes have_trait p (fst e) (snd e)
               = Ok (snd e')) acc acc'.
Proof.
  intros Hnd.
  destruct (for_each_keys (update_entry one_gene two_genes have_trait p)
              (fun probabilities person =>
                 let num_of_genes :=
                   person_num_of_genes (Some person) one_gene two_genes in
                 let has_trait := in_set person have_trait in
                 d <- lookup probabilities person ;;
                 g <- get_gene d num_of_genes ;;
                 d1 <- set_gene d num_of_genes (g + p) ;;
                 let d2 := set_trait d1 has_trait (get_trait d1 has_trait + p) in
                 Ok (dict_set probabilities person d2))
              (update_body one_gene two_genes have_trait p) acc [])
    as (acc' & Hloop & HF).
  - exact Hnd.
  - intros k d _.
    destruct (update_entry_ok one_gene two_genes have_trait p k d) as (d' & H & _).
    eauto.
  - exists acc'. split; [exact Hloop|]. split; [|exact HF].
    exact (Forall2_keys
             (fun k d d' =>
                update_entry one_gene two_genes have_trait p k d = Ok d') HF).
Qed.

Lemma Forall2_entry_rev {V} (R : string -> V -> V -> Prop) (d d' : dict V)
    (k : string) (v' : V) :
  Forall2 (fun e e' => fst e' = fst e /\ R (fst e) (snd e) (snd e')) d d' ->
  In (k, v') d' -> exists v, In (k, v) d /\ R k v v'.
Proof.
  induction 1 as [|[k0 v0] [k1 v1] t t' [E HR] _ IH]; simpl; [tauto|].
  simpl in E, HR. subst k1.
  intros [Heq|Hin].
  - inversion Heq; subst. exists v0. auto.
  - destruct (IH Hin) as (v & Hin' & HR'). exists v. auto.
Qed.

Lemma update_entry_fields (one_gene two_genes have_trait : list string) (p : Q)
    (k : string) (d d' : distribution) :
  update_entry one_gene two_genes have_trait p k d = Ok d' ->
  gene0 d' = (if Nat.eqb (person_num_of_genes (Some k) one_gene two_genes) 0
              then gene0 d + p else gene0 d) /\
  gene1 d' = (if Nat.eqb (person_num_of_genes (Some k) one_gene two_genes) 1
              then gene1 d + p else gene1 d) /\
  gene2 d' = (if Nat.eqb (person_num_of_genes (Some k) one_gene two_genes) 2
              then gene2 d + p else gene2 d) /\
  trait_true d' = (if in_set k have_trait then trait_true d + p
                   else trait_true d) /\
  trait_false d' = (if in_set k have_trait then trait_false d
                    else trait_false d + p).
Proof.
  unfold update_entry.
  destruct (person_num_cases one_gene two_genes (Some k)) as [E|[E|E]];
    rewrite E; clear E; destruct (in_set k have_trait);
    simpl; intros H; inversion H; subst d'; simpl; repeat split; reflexivity.
Qed.

(** X16: [update] keeps the people of the accumulator and adds [p] to
    exactly one gene value of each person, the one for the person's number of
    copies, and to exactly one trait value, the one for membership in
    [have_trait]; the other values are unchanged. *)
Theorem update_adds_p (acc : accumulator)
    (one_gene two_genes have_trait : list string) (p : Q) :
  NoDup (keys acc) ->
  exists acc',
    update acc one_gene two_genes have_trait p = Ok acc' /\
    keys acc' = keys acc /\
    forall k d, In (k, d) acc ->
      exists d', dict_get acc' k = Some d' /\
        gene0 d' = (if Nat.eqb (person_num_of_genes (Some k) one_gene two_genes) 0
                    then gene0 d + p else gene0 d) /\
        gene1 d' = (if Nat.eqb (person_num_of_genes (Some k) one_gene two_genes) 1
                    then gene1 d + p else gene1 d) /\
        gene2 d' = (if Nat.eqb (person_num_of_genes (Some k) one_gene two_genes) 2
                    then gene2 d + p else gene2 d) /\
        trait_true d' = (if in_set k have_trait then trait_true d + p
                         else trait_true d) /\
        trait_false d' = (if in_set k have_trait then trait_false d
                          else trait_false d + p).
Proof.
  intros Hnd.
  destruct (update_entries acc one_gene two_genes have_trait p Hnd)
    as (acc' & Hu & Hk & HF).
  exists acc'. split; [exact Hu|]. split; [exact Hk|].
  intros k d Hin.
  destruct (Forall2_entry
              (fun k d d' =>
                 update_entry one_gene two_genes have_trait p k d = Ok d')
              k d HF Hin) as (d' & Hin' & Hd').
  exists d'. split.
  - apply dict_get_in; [rewrite Hk; assumption | assumption].
  - apply (update_entry_fields one_gene two_genes have_trait p k d d' Hd').
Qed.

Lemma update_adds_p_witness :
  NoDup (keys sample_accumulator) /\
  exists acc',
    update sample_accumulator ["Harry"%string] [] [] (1 # 2) = Ok acc' /\
    keys acc' = keys sample_accumulator /\
    forall k d, In (k, d) sample_accumulator ->
      exists d', dict_get acc' k = Some d' /\
        gene0 d' = (if Nat.eqb (person_num_of_genes (Some k) ["Harry"%string] []) 0
                    then gene0 d + (1 # 2) else gene0 d) /\
        gene1 d' = (if Nat.eqb (person_num_of_genes (Some k) ["Harry"%string] []) 1
                    then gene1 d + (1 # 2) else gene1 d) /\
        gene2 d' = (if Nat.eqb (person_num_of_genes (Some k) ["Harry"%string] []) 2
                    then gene2 d + (1 # 2) else gene2 d) /\
        trait_true d' = (if in_set k [] then trait_true d + (1 # 2)
                         else trait_true d) /\
        trait_false d' = (if in_set k [] then trait_false d
                          else trait_false d + (1 # 2)).
Proof.
  assert (NoDup (keys sample_accumulator)) as Hnd
    by (repeat constructor; simpl; intuition).
  split; [exact Hnd|].
  exact (update_adds_p sample_accumulator ["Harry"%string] [] [] (1 # 2) Hnd).
Defined.

(** *** [normalize]: division by zero, and a second call *)

Lemma for_each_keys_raise {V} (f : string -> V -> res V)
    (body : dict V -> string -> res (dict V)) (e : exn) :
  (forall acc k v, lookup acc k = Ok v ->
     body acc k = (v' <- f k v ;; Ok (dict_set acc k v'))) ->
  forall suf pre,
    NoDup (keys (pre ++ suf)) ->
    (forall k v, In (k, v) suf -> (exists v', f k v = Ok v') \/ f k v = Raise e) ->
    (exists k v, In (k, v) suf /\ f k v = Raise e) ->
    for_each (keys suf) (pre ++ suf) body = Raise e.
Proof.
  intros Hbody. induction suf as [|[k v] t IH]; intros pre Hnd Hf Hbad.
  - destruct Hbad as (k & v & [] & _).
  - assert (~ In k (keys pre)) as Hk.
    { unfold keys in Hnd. rewrite map_app in Hnd. simpl in Hnd.
      apply NoDup_remove_2 in Hnd. intros H. apply Hnd.
      apply in_or_app. left. assumption. }
    simpl. rewrite (Hbody (pre ++ (k, v) :: t) k v).
    2:{ unfold lookup. rewrite dict_get_app_notin by assumption.
        simpl. rewrite String.eqb_refl. reflexivity. }
    destruct (Hf k v (or_introl eq_refl)) as [[v' Hv']|Hv'];
      [|rewrite Hv'; reflexivity].
    rewrite Hv'. simpl.
    rewrite dict_set_app_notin by assumption. simpl.
    rewrite String.eqb_refl.
    replace (pre ++ (k, v') :: t) with ((pre ++ [(k, v')]) ++ t)
      by (rewrite <- app_assoc; reflexivity).
    apply IH.
    + rewrite <- app_assoc. simpl.
      unfold keys in *. rewrite !map_app in *. simpl in *. assumption.
    + intros; apply Hf; right; assumption.
    + destruct Hbad as (k2 & v2 & [E|Hin] & Hr).
      * inversion E; subst. congruence.
      * exists k2, v2. auto.
Qed.

Lemma py_div_cases (a b : Q) :
  (exists q, py_div a b = Ok q) \/ py_div a b = Raise ZeroDivisionError.
Proof. unfold py_div. destruct (Qeq_bool b 0); eauto. Qed.

Lemma py_div_zero (a b : Q) : b == 0 -> py_div a b = Raise ZeroDivisionError.
Proof.
  intros H. unfold py_div. apply Qeq_bool_iff in H. rewrite H. reflexivity.
Qed.

Lemma normalize_entry_cases (d : distribution) :
  (exists d', normalize_entry d = Ok d') \/
  normalize_entry d = Raise ZeroDivisionError.
Proof.
  unfold normalize_entry.
  destruct (py_div_cases 1 (0 + gene0 d + gene1 d + gene2 d)) as [[q ->]| ->];
    [|right; reflexivity].
  destruct (py_div_cases 1 (0 + trait_true d + trait_false d)) as [[q' ->]| ->];
    [|right; reflexivity].
  left. simpl. eauto.
Qed.

Lemma normalize_entry_zero (d : distribution) :
  gene_sum d == 0 \/ trait_sum d == 0 ->
  normalize_entry d = Raise ZeroDivisionError.
Proof.
  intros H. unfold normalize_entry.
  destruct (py_div_cases 1 (0 + gene0 d + gene1 d + gene2 d)) as [[q Hq]|Hq];
    rewrite Hq; [|reflexivity].
  simpl. destruct H as [H|H].
  - rewrite py_div_zero in Hq; [discriminate|].
    unfold gene_sum in H.
    setoid_replace (0 + gene0 d + gene1 d + gene2 d)
      with (gene0 d + gene1 d + gene2 d) by ring.
    exact H.
  - rewrite py_div_zero; [reflexivity|].
    unfold trait_sum in H.
    setoid_replace (0 + trait_true d + trait_false d)
      with (trait_true d + trait_false d) by ring.
    exact H.
Qed.

(** X17: [normalize] raises [ZeroDivisionError] as soon as the gene values
    or the trait values of one person sum to zero, whoever the person is. *)
Theorem normalize_zero_division (probabilities : accumulator) (k : string)
    (d : distribution) :
  NoDup (keys probabilities) ->
  In (k, d) probabilities ->
  gene_sum d == 0 \/ trait_sum d == 0 ->
  normalize probabilities = Raise ZeroDivisionError.
Proof.
  intros Hnd Hin Hz.
  apply (for_each_keys_raise (fun _ d => normalize_entry d)
           (fun acc k =>
              d <- lookup acc k ;;
              g0 <- get_gene d 0 ;;
              g1 <- get_gene d 1 ;;
              g2 <- get_gene d 2 ;;
              let gene_probabilities_sum := 0 + g0 + g1 + g2 in
              gene_factor <- py_div 1 gene_probabilities_sum ;;
              g0 <- get_gene d 0 ;;
              d <- set_gene d 0 (gene_factor * g0) ;;
              g1 <- get_gene d 1 ;;
              d <- set_gene d 1 (gene_factor * g1) ;;
              g2 <- get_gene d 2 ;;
              d <- set_gene d 2 (gene_factor * g2) ;;
              let trait_probabilities_sum :=
                0 + get_trait d true + get_trait d false in
              trait_factor <- py_div 1 trait_probabilities_sum ;;
              let d := set_trait d true (trait_factor * get_trait d true) in
              let d := set_trait d false (trait_factor * get_trait d false) in
              Ok (dict_set acc k d))
           ZeroDivisionError normalize_body probabilities []).
  - exact Hnd.
  - intros k' d' _. apply normalize_entry_cases.
  - exists k, d. split; [assumption|]. apply normalize_entry_zero; assumption.
Qed.

Lemma normalize_zero_division_witness :
  NoDup (keys [("Harry"%string, zero_distribution)]) /\
  In ("Harry"%string, zero_distribution) [("Harry"%string, zero_distribution)] /\
  (gene_sum zero_distribution == 0 \/ trait_sum zero_distribution == 0) /\
  normalize [("Harry"%string, zero_distribution)] = Raise ZeroDivisionError.
Proof.
  assert (NoDup (keys [("Harry"%string, zero_distribution)])) as Hnd
    by (repeat constructor; simpl; intuition).
  assert (gene_sum zero_distribution == 0 \/ trait_sum zero_distribution == 0)
    as Hz by (left; reflexivity).
  split; [exact Hnd|]. split; [left; reflexivity|]. split; [exact Hz|].
  exact (normalize_zero_division [("Harry"%string, zero_distribution)]
           "Harry" zero_distribution Hnd (or_introl eq_refl) Hz).
Defined.

Lemma in_keys_entry {V} (d : dict V) (k : string) :
  In k (keys d) -> exists v, In (k, v) d.
Proof.
  unfold keys. intros H. apply in_map_iff in H.
  destruct H as ([k' v] & E & Hin). simpl in E. subst. eauto.
Qed.

(** X18: [normalize] is idempotent: applied to its own result it returns
    the same values again. *)
Theorem normalize_idempotent (probabilities : accumulator) :
  NoDup (keys probabilities) ->
  (forall k d, In (k, d) probabilities ->
     ~ gene_sum d == 0 /\ ~ trait_sum d == 0) ->
  exists once twice,
    normalize probabilities = Ok once /\
    normalize once = Ok twice /\
    keys twice = keys once /\
    forall k d, In (k, d) once ->
      exists d', dict_get twice k = Some d' /\
        gene0 d' == gene0 d /\ gene1 d' == gene1 d /\ gene2 d' == gene2 d /\
        trait_true d' == trait_true d /\ trait_false d' == trait_false d.
Proof.
  intros Hnd Hsum.
  destruct (normalize_entries probabilities Hnd Hsum) as (once & Hn & Hk & He).
  assert (NoDup (keys once)) as Hnd1 by (rewrite Hk; assumption).
  assert (forall k d, In (k, d) once -> gene_sum d == 1 /\ trait_sum d == 1)
    as Hone.
  { intros k d Hin.
    assert (In k (keys probabilities)) as Hkin.
    { rewrite <- Hk. unfold keys. apply in_map_iff. exists (k, d). auto. }
    destruct (in_keys_entry probabilities k Hkin) as [d0 Hin0].
    destruct (He k d0 Hin0) as (d1 & Hg & Hgs & Hts & _).
    rewrite (dict_get_in once k d Hnd1 Hin) in Hg. inversion Hg; subst d1.
    auto. }
  destruct (normalize_entries once Hnd1) as (twice & Hn2 & Hk2 & He2).
  { intros k d Hin. destruct (Hone k d Hin) as [Hg Ht].
    split; intros E; [rewrite E in Hg | rewrite E in Ht]; discriminate. }
  exists once, twice. split; [exact Hn|]. split; [exact Hn2|].
  split; [exact Hk2|].
  intros k d Hin. destruct (Hone k d Hin) as [Hg Ht].
  destruct (He2 k d Hin) as (d' & Hd' & _ & _ & H0 & H1 & H2 & H3 & H4).
  exists d'. split; [assumption|].
  rewrite H0, H1, H2, H3, H4, Hg, Ht.
  repeat split; field.
Qed.

Lemma normalize_idempotent_witness :
  NoDup (keys sample_accumulator) /\
  (forall k d, In (k, d) sample_accumulator ->
     ~ gene_sum d == 0 /\ ~ trait_sum d == 0) /\
  exists once twice,
    normalize sample_accumulator = Ok once /\
    normalize once = Ok twice /\
    keys twice = keys once /\
    forall k d, In (k, d) once ->
      exists d', dict_get twice k = Some d' /\
        gene0 d' == gene0 d /\ gene1 d' == gene1 d /\ gene2 d' == gene2 d /\
        trait_true d' == trait_true d /\ trait_false d' == trait_false d.
Proof.
  assert (NoDup (keys sample_accumulator)) as Hnd
    by (repeat constructor; simpl; intuition).
  assert (forall k d, In (k, d) sample_accumulator ->
            ~ gene_sum d == 0 /\ ~ trait_sum d == 0) as Hsum.
  { intros k d [E|[]]. inversion E; subst. split; discriminate. }
  split; [exact Hnd|]. split; [exact Hsum|].
  exact (normalize_idempotent sample_accumulator Hnd Hsum).
Defined.

(** *** The result of [main] *)

Lemma for_each_inv {A S} (Inv : S -> Prop) (l : list A)
    (body : S -> A -> res S) :
  (forall s x s', In x l -> Inv s -> body s x = Ok s' -> Inv s') ->
  forall s s', Inv s -> for_each l s body = Ok s' -> Inv s'.
Proof.
  induction l as [|x t IH]; intros Hstep s s' Hs Hl; simpl in Hl.
  - inversion Hl; subst; assumption.
  - apply bind_Ok_inv in Hl. destruct Hl as (s1 & H1 & Hl).
    apply (IH (fun s x s' Hin => Hstep s x s' (or_intror Hin)) s1 s');
      [|assumption].
    apply (Hstep s x s1 (or_introl eq_refl) Hs H1).
Qed.

Lemma any_of_false (l : list string) (test : string -> res bool) :
  any_of l test = Ok false -> forall k, In k l -> test k = Ok false.
Proof.
  induction l as [|x t IH]; simpl; intros H k Hin; [destruct Hin|].
  apply bind_Ok_inv in H. destruct H as (h & Hh & H).
  destruct h; [discriminate|].
  destruct Hin as [<-|Hin]; [assumption | apply IH; assumption].
Qed.

Lemma update_sound (people : population) (acc acc' : accumulator)
    (one_gene two_genes have_trait : list string) (p : Q) :
  NoDup (keys people) -> 0 <= p -> agrees people have_trait ->
  sound_state people acc ->
  update acc one_gene two_genes have_trait p = Ok acc' ->
  sound_state people acc'.
Proof.
  intros Hnd Hp Hag (Hk & Hnn & Hev) Hu.
  destruct (update_entries acc one_gene two_genes have_trait p) as
    (acc1 & Hu1 & Hk1 & HF); [rewrite Hk; assumption|].
  assert (acc1 = acc') as -> by congruence.
  split; [congruence|]. split.
  - intros k d' Hin'.
    destruct (Forall2_entry_rev
                (fun k d d' =>
                   update_entry one_gene two_genes have_trait p k d = Ok d')
                acc acc' k d' HF Hin') as (d & Hin & Hd).
    destruct (update_entry_fields _ _ _ _ _ _ _ Hd) as (E0 & E1 & E2 & E3 & E4).
    destruct (Hnn k d Hin) as (N0 & N1 & N2 & N3 & N4).
    unfold nonneg_entry. rewrite E0, E1, E2, E3, E4.
    repeat split;
      match goal with
      | |- _ <= (if ?c then _ else _) => destruct c
      end; lra.
  - intros k d' e t Hin' He Ht.
    destruct (Forall2_entry_rev
                (fun k d d' =>
                   update_entry one_gene two_genes have_trait p k d = Ok d')
                acc acc' k d' HF Hin') as (d & Hin & Hd).
    destruct (update_entry_fields _ _ _ _ _ _ _ Hd) as (_ & _ & _ & E3 & E4).
    pose proof (Hev k d e t Hin He Ht) as Hz.
    pose proof (Hag k e t He Ht) as Hin_t.
    destruct t; simpl in *.
    + rewrite E4, Hin_t. assumption.
    + rewrite E3, Hin_t. assumption.
Qed.

Section Posteriors.

Variable set_list : list string -> list string.
Hypothesis set_list_perm : forall l, Permutation (set_list l) l.
Variable people : population.
Hypothesis people_nodup : NoDup (keys people).

Lemma evidence_agrees (have_trait : list string) :
  any_of (set_list (keys people)) (evidence_test people have_trait) = Ok false ->
  agrees people have_trait.
Proof.
  intros Hany k e t He Ht.
  assert (In k (set_list (keys people))) as Hin.
  { apply (in_set_list set_list set_list_perm).
    destruct (in_dec string_dec k (keys people)) as [H|H]; [assumption|].
    apply dict_get_None in H. congruence. }
  pose proof (any_of_false _ _ Hany k Hin) as Hk.
  unfold evidence_test, lookup in Hk. rewrite He in Hk. simpl in Hk.
  rewrite Ht in Hk. inversion Hk as [E].
  apply negb_false_iff in E. apply Bool.eqb_prop in E. congruence.
Qed.

Lemma enumerate_sound (acc : accumulator) :
  enumerate set_list people = Ok acc -> sound_state people acc.
Proof.
  rewrite enumerate_unfold.
  apply for_each_inv.
  - intros s ht s' _ Hs Hbody.
    apply bind_Ok_inv in Hbody. destruct Hbody as (fails & Hany & Hbody).
    destruct fails; [inversion Hbody; subst; assumption|].
    pose proof (evidence_agrees ht Hany) as Hag.
    revert Hbody. apply for_each_inv; [|assumption].
    intros s1 og s1' _ Hs1. apply for_each_inv; [|assumption].
    intros s2 tg s2' _ Hs2 Hstep.
    apply bind_Ok_inv in Hstep. destruct Hstep as (p & Hp & Hu).
    destruct (joint_probability_positive people og tg ht) as (q & Hq & Hpos).
    assert (q = p) as -> by congruence.
    apply (update_sound people s2 s2' og tg ht p people_nodup
             (Qlt_le_weak _ _ Hpos) Hag Hs2 Hu).
  - split; [|split].
    + unfold keys. rewrite map_map. simpl. apply map_id.
    + intros k d Hin. apply in_map_iff in Hin. destruct Hin as (x & E & _).
      inversion E; subst. unfold nonneg_entry. simpl. repeat split; lra.
    + intros k d e t Hin _ _. apply in_map_iff in Hin.
      destruct Hin as (x & E & _). inversion E; subst.
      destruct t; reflexivity.
Qed.

Lemma div_unit (a s : Q) : 0 <= a -> 0 < s -> 0 <= a / s.
Proof.
  intros Ha Hs. apply Qle_shift_div_l; [assumption|]. lra.
Qed.

(** What [main] computes for every person. *)
Lemma posteriors_entries :
  exists acc,
    posteriors set_list people = Ok acc /\
    keys acc = keys people /\
    forall k d, In (k, d) acc ->
      gene_sum d == 1 /\ trait_sum d == 1 /\ nonneg_entry d /\
      forall e t, dict_get people k = Some e -> trait e = Some t ->
                  get_trait d (negb t) == 0.
Proof.
  destruct (enumerate_positive set_list set_list_perm people people_nodup)
    as (acc & Hen & Hk & s & Hs & Hb).
  destruct (enumerate_sound acc Hen) as (_ & Hnn & Hev).
  assert (NoDup (keys acc)) as Hnd by (rewrite Hk; assumption).
  destruct (normalize_entries acc Hnd) as (acc' & Hn & Hk' & He).
  { intros k d Hin. destruct (Hb k d Hin) as [Hg Ht].
    split; intros E.
    - rewrite <- Hg, E in Hs. apply (Qlt_irrefl 0 Hs).
    - rewrite <- Ht, E in Hs. apply (Qlt_irrefl 0 Hs). }
  exists acc'. unfold posteriors. rewrite Hen. simpl.
  split; [exact Hn|]. split; [congruence|].
  intros k d' Hin'.
  assert (In k (keys acc)) as Hkin.
  { rewrite <- Hk'. unfold keys. apply in_map_iff. exists (k, d'). auto. }
  destruct (in_keys_entry acc k Hkin) as [d Hin].
  destruct (He k d Hin) as (d1 & Hg1 & Hgs & Hts & H0 & H1 & H2 & H3 & H4).
  assert (NoDup (keys acc')) as Hnd' by (rewrite Hk'; assumption).
  rewrite (dict_get_in acc' k d' Hnd' Hin') in Hg1. inversion Hg1; subst d1.
  destruct (Hb k d Hin) as [Hg Ht].
  destruct (Hnn k d Hin) as (N0 & N1 & N2 & N3 & N4).
  assert (0 < gene_sum d) as Hgpos by (rewrite Hg; assumption).
  assert (0 < trait_sum d) as Htpos by (rewrite Ht; assumption).
  split; [assumption|]. split; [assumption|]. split.
  - unfold nonneg_entry. rewrite H0, H1, H2, H3, H4.
    repeat split; apply div_unit; assumption.
  - intros e t Hpe Htr. pose proof (Hev k d e t Hin Hpe Htr) as Hz.
    destruct t; simpl in *.
    + rewrite H4, Hz. field. intros E. rewrite E in Htpos.
      apply (Qlt_irrefl 0 Htpos).
    + rewrite H3, Hz. field. intros E. rewrite E in Htpos.
      apply (Qlt_irrefl 0 Htpos).
Qed.

(** X19: for a population with distinct names, [main] computes, for every
    person, gene values and trait values that are probability distributions:
    each value lies between 0 and 1 and each distribution sums to 1. *)
Theorem posteriors_are_distributions :
  exists acc,
    posteriors set_list people = Ok acc /\
    keys acc = keys people /\
    forall k d, In (k, d) acc ->
      gene_sum d == 1 /\ trait_sum d == 1 /\
      0 <= gene0 d <= 1 /\ 0 <= gene1 d <= 1 /\ 0 <= gene2 d <= 1 /\
      0 <= trait_true d <= 1 /\ 0 <= trait_false d <= 1.
Proof.
  destruct posteriors_entries as (acc & Hp & Hk & He).
  exists acc. split; [exact Hp|]. split; [exact Hk|].
  intros k d Hin.
  destruct (He k d Hin) as (Hg & Ht & (N0 & N1 & N2 & N3 & N4) & _).
  split; [assumption|]. split; [assumption|].
  unfold gene_sum in Hg. unfold trait_sum in Ht.
  repeat split; lra.
Qed.

(** X20: a person whose trait is recorded in the data gets probability 1
    for the recorded value and 0 for the other one. *)
Theorem posteriors_known_trait :
  exists acc,
    posteriors set_list people = Ok acc /\
    forall k e t, dict_get people k = Some e -> trait e = Some t ->
      exists d, dict_get acc k = Some d /\
        get_trait d t == 1 /\ get_trait d (negb t) == 0.
Proof.
  destruct posteriors_entries as (acc & Hp & Hk & He).
  exists acc. split; [exact Hp|].
  intros k e t Hpe Htr.
  assert (In k (keys acc)) as Hkin.
  { rewrite Hk. destruct (in_dec string_dec k (keys people)) as [H|H];
      [assumption|].
    apply dict_get_None in H. congruence. }
  destruct (in_keys_entry acc k Hkin) as [d Hin].
  exists d. split.
  - apply dict_get_in; [rewrite Hk; assumption | assumption].
  - destruct (He k d Hin) as (_ & Ht & _ & Hz).
    pose proof (Hz e t Hpe Htr) as Hz'.
    split; [|assumption].
    unfold trait_sum in Ht. destruct t; simpl in *; lra.
Qed.

End Posteriors.

Lemma posteriors_are_distributions_witness :
  (forall l : list string, Permutation ((fun l => l) l) l) /\
  NoDup (keys sample_family) /\
  exists acc,
    posteriors (fun l => l) sample_family = Ok acc /\
    keys acc = keys sample_family /\
    forall k d, In (k, d) acc ->
      gene_sum d == 1 /\ trait_sum d == 1 /\
      0 <= gene0 d <= 1 /\ 0 <= gene1 d <= 1 /\ 0 <= gene2 d <= 1 /\
      0 <= trait_true d <= 1 /\ 0 <= trait_false d <= 1.
Proof.
  assert (forall l : list string, Permutation ((fun l => l) l) l) as P
    by (intros l; apply Permutation_refl).
  assert (NoDup (keys sample_family)) as Hnd.
  { simpl. repeat constructor; simpl; intuition discriminate. }
  split; [exact P|]. split; [exact Hnd|].
  exact (posteriors_are_distributions (fun l => l) P sample_family Hnd).
Defined.

Lemma posteriors_known_trait_witness :
  (forall l : list string, Permutation ((fun l => l) l) l) /\
  NoDup (keys sample_family) /\
  exists acc,
    posteriors (fun l => l) sample_family = Ok acc /\
    forall k e t, dict_get sample_family k = Some e -> trait e = Some t ->
      exists d, dict_get acc k = Some d /\
        get_trait d t == 1 /\ get_trait d (negb t) == 0.
Proof.
  assert (forall l : list string, Permutation ((fun l => l) l) l) as P
    by (intros l; apply Permutation_refl).
  assert (NoDup (keys sample_family)) as Hnd.
  { simpl. repeat constructor; simpl; intuition discriminate. }
  split; [exact P|]. split; [exact Hnd|].
  exact (posteriors_known_trait (fun l => l) P sample_family Hnd).
Defined.

End PedigreeFacts.

(* ================================================================= *)
(** ** pagerank.py: the corpus, the fixed point and the walk *)

Module CorpusFacts.
Import PageRank PageRankFacts IterateFacts.
Local Open Scope Q_scope.

(** *** [crawl] builds a well-formed corpus *)

(** The pages after the first loop of [crawl]. *)
Lemma crawl_collect (listing : list (string * list string)) : forall pages,
  NoDup (keys pages) ->
  (forall page links, In (page, links) pages ->
     endswith page ".html" = true /\ NoDup links /\ ~ In page links) ->
  exists pages',
    for_each listing pages
      (fun pages '(filename, links) =>
         if negb (endswith filename ".html") then Ok pages
         else Ok (dict_set pages filename (set_remove filename (set_of links))))
    = Ok pages' /\
    NoDup (keys pages') /\
    (forall page links, In (page, links) pages' ->
       endswith page ".html" = true /\ NoDup links /\ ~ In page links) /\
    (forall page, In page (keys pages') <->
       In page (keys pages) \/
       (In page (map fst listing) /\ endswith page ".html" = true)).
Proof.
  induction listing as [|[filename links] t IH]; intros pages Hnd Hp.
  - exists pages. split; [reflexivity|]. split; [assumption|].
    split; [assumption|]. intros page. simpl. tauto.
  - simpl. destruct (endswith filename ".html") eqn:E; simpl.
    + destruct (IH (dict_set pages filename (set_remove filename (set_of links))))
        as (pages' & Hl & Hnd' & Hp' & Hk).
      * apply PedigreeFacts.NoDup_keys_dict_set. assumption.
      * intros page ls Hin. apply PedigreeFacts.in_dict_set in Hin.
        destruct Hin as [[-> ->]|Hin]; [|apply (Hp page ls Hin)].
        split; [assumption|]. split.
        -- apply NoDup_filter. apply NoDup_nodup.
        -- intros H. apply filter_In in H. destruct H as [_ H].
           rewrite String.eqb_refl in H. discriminate.
      * exists pages'. split; [exact Hl|]. split; [assumption|].
        split; [assumption|].
        intros page. rewrite Hk, PedigreeFacts.in_keys_dict_set. split.
        -- intros [[->|H]|[H1 H2]]; auto.
        -- intros [H|[[<-|H1] H2]]; auto.
    + destruct (IH pages Hnd Hp) as (pages' & Hl & Hnd' & Hp' & Hk).
      exists pages'. split; [exact Hl|]. split; [assumption|].
      split; [assumption|].
      intros page. rewrite Hk. split.
      * intros [H|[H1 H2]]; auto.
      * intros [H|[[<-|H1] H2]]; auto. congruence.
Qed.

(** The second loop of [crawl] filters every link set. *)
Lemma crawl_filter (suf : corpus) : forall pre,
  NoDup (keys (pre ++ suf)) ->
  for_each (keys suf) (pre ++ suf)
    (fun pages filename =>
       links <- lookup pages filename ;;
       Ok (dict_set pages filename
             (filter (fun link => in_set link (keys pages)) links)))
  = Ok (pre ++ map (fun e => (fst e,
                              filter (fun link => in_set link (keys (pre ++ suf)))
                                (snd e))) suf).
Proof.
  induction suf as [|[k v] t IH]; intros pre Hnd.
  - reflexivity.
  - assert (~ In k (keys pre)) as Hk.
    { unfold keys in Hnd. rewrite map_app in Hnd. simpl in Hnd.
      apply NoDup_remove_2 in Hnd. intros H. apply Hnd.
      apply in_or_app. left. assumption. }
    simpl. unfold lookup at 1.
    rewrite dict_get_app_notin by assumption.
    simpl. rewrite String.eqb_refl. simpl.
    rewrite dict_set_app_notin by assumption. simpl.
    rewrite String.eqb_refl.
    set (v' := filter (fun link => in_set link (keys (pre ++ (k, v) :: t))) v).
    assert (keys ((pre ++ [(k, v')]) ++ t) = keys (pre ++ (k, v) :: t)) as Hkeys.
    { unfold keys. rewrite !map_app. simpl. rewrite <- app_assoc. reflexivity. }
    replace (pre ++ (k, v') :: t) with ((pre ++ [(k, v')]) ++ t)
      by (rewrite <- app_assoc; reflexivity).
    rewrite IH by (rewrite Hkeys; assumption).
    rewrite Hkeys. rewrite <- app_assoc. reflexivity.
Qed.

(** The corpus returned by [crawl], in terms of the pages collected by its
    first loop. *)
Lemma crawl_value (listing : list (string * list string)) :
  exists pages,
    for_each listing []
      (fun pages '(filename, links) =>
         if negb (endswith filename ".html") then Ok pages
         else Ok (dict_set pages filename (set_remove filename (set_of links))))
    = Ok pages /\
    NoDup (keys pages) /\
    (forall page links, In (page, links) pages ->
       endswith page ".html" = true /\ NoDup links /\ ~ In page links) /\
    (forall page, In page (keys pages) <->
       (In page (map fst listing) /\ endswith page ".html" = true)) /\
    crawl listing
    = Ok (map (fun e : string * list string =>
                 (fst e, filter (fun link => in_set link (keys pages)) (snd e)))
            pages).
Proof.
  destruct (crawl_collect listing []) as (pages & Hl & Hnd & Hp & Hk).
  - constructor.
  - intros page links [].
  - exists pages. split; [exact Hl|]. split; [assumption|].
    split; [assumption|]. split.
    + intros page. rewrite Hk. simpl. tauto.
    + unfold crawl.
      match goal with
      | |- context [bind ?m _] =>
          replace m with (@Ok corpus pages) by (symmetry; exact Hl)
      end.
      cbv beta iota delta [bind].
      exact (crawl_filter pages [] Hnd).
Qed.

Lemma keys_filtered (pages : corpus) (f : list string -> list string) :
  keys (map (fun e : string * list string => (fst e, f (snd e))) pages)
  = keys pages.
Proof. unfold keys. rewrite map_map. reflexivity. Qed.

(** X21: whatever the directory holds, [crawl] returns a corpus whose pages
    are the entries named [*.html], each once, and in which every link set
    is free of duplicates, does not contain the page itself and only
    contains pages of the corpus. *)
Theorem crawl_well_formed (listing : list (string * list string)) :
  exists c,
    crawl listing = Ok c /\
    wf_corpus c /\
    (forall page, In page (keys c) <->
       (In page (map fst listing) /\ endswith page ".html" = true)) /\
    (forall page links, In (page, links) c -> ~ In page links).
Proof.
  destruct (crawl_value listing) as (pages & _ & Hnd & Hp & Hk & Hc).
  eexists. split; [exact Hc|].
  pose proof (keys_filtered pages
                (filter (fun link => in_set link (keys pages)))) as Hkeys.
  split; [|split].
  - split; [rewrite Hkeys; assumption|].
    intros page links Hin. apply in_map_iff in Hin.
    destruct Hin as ([p ls] & E & Hin). simpl in E.
    injection E as E1 E2. subst page links.
    destruct (Hp p ls Hin) as (_ & Hnl & _).
    split; [apply NoDup_filter; assumption|].
    intros l Hl'. apply filter_In in Hl'. destruct Hl' as [_ Hl'].
    rewrite Hkeys. apply in_set_In. assumption.
  - intros page. rewrite Hkeys. apply Hk.
  - intros page links Hin. apply in_map_iff in Hin.
    destruct Hin as ([p ls] & E & Hin). simpl in E.
    injection E as E1 E2. subst page links.
    destruct (Hp p ls Hin) as (_ & _ & Hself).
    intros H. apply filter_In in H. tauto.
Qed.

Lemma crawl_collect_get (listing : list (string * list string)) :
  forall pages pages',
    NoDup (map fst listing) ->
    for_each listing pages
      (fun pages '(filename, links) =>
         if negb (endswith filename ".html") then Ok pages
         else Ok (dict_set pages filename (set_remove filename (set_of links))))
    = Ok pages' ->
    (forall page raw, In (page, raw) listing -> endswith page ".html" = true ->
       dict_get pages' page = Some (set_remove page (set_of raw))) /\
    (forall page, ~ In page (map fst listing) ->
       dict_get pages' page = dict_get pages page).
Proof.
  induction listing as [|[f r] t IH]; intros pages pages' Hnd Hl.
  - simpl in Hl. inversion Hl; subst. split; [intros page raw []|auto].
  - simpl in Hnd. inversion Hnd as [|? ? Hf Hnd']; subst.
    cbn [for_each] in Hl. cbv beta iota in Hl.
    destruct (endswith f ".html") eqn:E; simpl in Hl.
    + destruct (IH _ _ Hnd' Hl) as [HA HB]. split.
      * intros page raw [Heq|Hin] He.
        -- inversion Heq; subst page raw.
           rewrite (HB f Hf), dict_get_set, String.eqb_refl. reflexivity.
        -- apply (HA page raw Hin He).
      * intros page Hnot. simpl in Hnot.
        rewrite (HB page) by tauto.
        rewrite dict_get_set.
        destruct (String.eqb f page) eqn:Ef; [|reflexivity].
        apply String.eqb_eq in Ef. tauto.
    + destruct (IH _ _ Hnd' Hl) as [HA HB]. split.
      * intros page raw [Heq|Hin] He.
        -- inversion Heq; subst page raw. congruence.
        -- apply (HA page raw Hin He).
      * intros page Hnot. simpl in Hnot. apply HB. tauto.
Qed.

Lemma dict_get_filtered (pages : corpus) (f : list string -> list string)
    (page : string) :
  dict_get (map (fun e : string * list string => (fst e, f (snd e))) pages) page
  = option_map f (dict_get pages page).
Proof.
  induction pages as [|[k v] t IH]; simpl; [reflexivity|].
  destruct (String.eqb k page); [reflexivity | assumption].
Qed.

(** X22: when the names of the directory are distinct, the link set that
    [crawl] gives to a page holds exactly the links found in the file that
    differ from the page itself and name a page of the corpus. *)
Theorem crawl_links (listing : list (string * list string)) :
  NoDup (map fst listing) ->
  exists c,
    crawl listing = Ok c /\
    forall page raw, In (page, raw) listing -> endswith page ".html" = true ->
      exists links,
        dict_get c page = Some links /\
        forall l, In l links <-> (In l raw /\ l <> page /\ In l (keys c)).
Proof.
  intros Hnames.
  destruct (crawl_value listing) as (pages & Hl & Hnd & Hp & Hk & Hc).
  eexists. split; [exact Hc|].
  intros page raw Hin He.
  destruct (crawl_collect_get listing [] pages Hnames Hl) as [HA _].
  rewrite dict_get_filtered, (HA page raw Hin He). simpl.
  eexists. split; [reflexivity|].
  intros l. rewrite keys_filtered. unfold set_remove, set_of.
  rewrite !filter_In, nodup_In, in_set_In, negb_true_iff.
  split.
  - intros [[H1 H2] H3]. split; [assumption|]. split; [|assumption].
    intros ->. rewrite String.eqb_refl in H2. discriminate.
  - intros (H1 & H2 & H3). split; [|assumption]. split; [assumption|].
    apply String.eqb_neq. assumption.
Qed.

Lemma crawl_links_witness :
  NoDup (map fst sample_listing) /\
  exists c,
    crawl sample_listing = Ok c /\
    forall page raw, In (page, raw) sample_listing ->
      endswith page ".html" = true ->
      exists links,
        dict_get c page = Some links /\
        forall l, In l links <-> (In l raw /\ l <> page /\ In l (keys c)).
Proof.
  assert (NoDup (map fst sample_listing)) as Hn
    by (simpl; repeat constructor; simpl; intuition discriminate).
  split; [exact Hn|]. exact (crawl_links sample_listing Hn).
Defined.

(** The corpus built from the sample directory. *)
Example crawl_sample :
  crawl sample_listing
  = Ok [("1.html", ["2.html"]); ("2.html", ["1.html"])]%string.
Proof. reflexivity. Qed.

(** *** Errors of [transition_model] *)

(** X23: on a corpus, [transition_model] raises [KeyError] for a page that
    is not in the corpus and returns a dictionary over all pages for a page
    that is, also when the page has no links: it never divides by zero. *)
Theorem transition_model_errors (c : corpus) (page : string) (d : Q) :
  NoDup (keys c) ->
  (In page (keys c) ->
   exists dist, transition_model c page d = Ok dist /\ keys dist = keys c) /\
  (~ In page (keys c) -> transition_model c page d = Raise KeyError).
Proof.
  intros Hnd. split.
  - intros Hin.
    destruct (PedigreeFacts.in_keys_entry c page Hin) as [links Hl].
    destruct (transition_model_value c page links d Hnd Hl) as (f & Hf & _).
    eexists. split; [exact Hf|]. apply keys_map_pair.
  - intros Hnot. unfold transition_model, lookup.
    rewrite (proj2 (dict_get_None c page) Hnot). reflexivity.
Qed.

Lemma transition_model_errors_witness :
  NoDup (keys two_pages) /\
  (In "3.html"%string (keys two_pages) ->
   exists dist, transition_model two_pages "3.html" DAMPING = Ok dist /\
                keys dist = keys two_pages) /\
  (~ In "3.html"%string (keys two_pages) ->
   transition_model two_pages "3.html" DAMPING = Raise KeyError).
Proof.
  split; [exact (proj1 wf_two_pages)|].
  exact (transition_model_errors two_pages "3.html" DAMPING (proj1 wf_two_pages)).
Defined.

(** *** The ranks returned by [iterate_pagerank] *)

Lemma filter_length_all {A} (f : A -> bool) (l : list A) :
  List.length (filter f l) = List.length l ->
  forall a, In a l -> f a = true.
Proof.
  induction l as [|x t IH]; simpl; intros H a Hin; [destruct Hin|].
  destruct (f x) eqn:E.
  - simpl in H. destruct Hin as [<-|Hin]; [assumption|].
    apply IH; [lia | assumption].
  - pose proof (filter_length_le f t). lia.
Qed.

Lemma converged_small (c : corpus) (d : Q) (pre : dict Q) (k : string) :
  wf_corpus c -> c <> [] -> keys pre = keys c ->
  converged c d pre k = true ->
  Qabs (step c d (val pre) k - val pre k) < margin.
Proof.
  intros Hwf Hne Hk Hc. unfold converged in Hc.
  apply negb_true_iff in Hc.
  rewrite <- (updated_step c d pre k Hwf Hne Hk).
  apply Qnot_le_lt. intros Hle. apply Qle_bool_iff in Hle. congruence.
Qed.

Section Exit.

Variable c : corpus.
Variable d : Q.
Hypothesis c_wf : wf_corpus c.
Hypothesis c_nonempty : c <> [].
Hypothesis d_range : 0 <= d <= 1.

(** When the loop stops, every page passed the convergence test against the
    ranks that are returned. *)
Lemma loop_exit (fuel : nat) : forall pre cur r,
  good c pre -> keys cur = keys c ->
  iterate_loop fuel c d pre cur = Ok r ->
  good c r /\
  forall k, In k (keys c) -> Qabs (step c d (val r) k - val r k) < margin.
Proof.
  induction fuel as [|fuel IH]; intros pre cur r Hg Hk Hl; [discriminate|].
  rewrite iterate_loop_S in Hl.
  rewrite (sweep_spec c d pre cur c_wf c_nonempty (proj1 Hg)) in Hl.
  simpl in Hl.
  destruct (Nat.eqb (List.length (filter (converged c d pre) (keys c)))
              (List.length c)) eqn:E.
  - inversion Hl; subst r. split; [assumption|].
    intros k Hin. apply (converged_small c d pre k c_wf c_nonempty (proj1 Hg)).
    apply Nat.eqb_eq in E.
    apply (filter_length_all (converged c d pre) (keys c)); [|assumption].
    unfold keys at 2. rewrite length_map. assumption.
  - apply (IH _ _ r) in Hl; [assumption | |].
    + apply (good_next c d c_wf c_nonempty d_range pre cur Hg Hk).
    + rewrite set_all_keys; [assumption|].
      intros k Hin. rewrite Hk. assumption.
Qed.

End Exit.

(** The loop of [iterate_pagerank] stops within 48 passes. *)
Lemma iterate_pagerank_good (c : corpus) (fuel : nat) :
  wf_corpus c -> c <> [] -> (48 <= fuel)%nat ->
  exists ranks,
    iterate_loop fuel c DAMPING (map (fun k => (k, 1 / len c)) (keys c))
      (map (fun k => (k, 1 / len c)) (keys c)) = Ok ranks /\
    good c ranks.
Proof.
  intros Hwf Hne Hfuel.
  assert (0 <= DAMPING <= 1) as Hd by (split; discriminate).
  apply (loop_converges c DAMPING Hwf Hne Hd 47 fuel);
    [lia | apply good_initial; assumption | apply keys_map_pair |].
  eapply Qle_lt_trans; [|apply damping_power].
  apply Qmult_le_compat_r;
    [apply (movement_le_2 c DAMPING Hwf Hne Hd); apply good_initial; assumption
    | apply qpow_nonneg; apply Hd].
Qed.

(** A dangling page is treated as linking to every page: the three-page
    corpus below converges, all ranks positive. *)
Example iterate_pagerank_dangling :
  exists ranks,
    iterate_pagerank 48
      [("a", ["b"]); ("b", ["a"; "c"]); ("c", [])]%string DAMPING = Ok ranks /\
    Qabs (sumQ (map snd ranks) - 1) <= 1 # 1000.
Proof.
  assert (wf_corpus [("a", ["b"]); ("b", ["a"; "c"]); ("c", [])]%string) as Hwf.
  { split.
    - simpl. repeat constructor; simpl; intuition discriminate.
    - intros page links [E|[E|[E|[]]]]; inversion E; subst; split;
        try (repeat constructor; simpl; intuition discriminate);
        simpl; intuition. }
  assert ([("a", ["b"]); ("b", ["a"; "c"]); ("c", [])]%string <> []) as Hne
    by discriminate.
  destruct (iterate_pagerank_good _ 48 Hwf Hne (le_n 48)) as (r & Hr & Hg).
  exists r. split.
  - unfold iterate_pagerank. rewrite (initial_ranks _ Hwf Hne).
    cbv beta iota delta [bind]. exact Hr.
  - destruct (good_result _ Hwf r Hg) as (_ & _ & Hs).
    rewrite Hs. discriminate.
Qed.

(** X24: the ranks returned by [iterate_pagerank] satisfy the PageRank
    equation up to the margin: for every page the rank differs by less than
    0.001 from (1 - d) / N plus d times the rank flowing in from the pages
    that link to it, a page without links counting as linking to all. *)
Theorem iterate_pagerank_fixed_point (c : corpus) (fuel : nat) :
  wf_corpus c -> c <> [] -> (48 <= fuel)%nat ->
  exists ranks,
    iterate_pagerank fuel c DAMPING = Ok ranks /\
    forall p, In p (keys c) ->
      Qabs (flow c (val ranks) p * DAMPING + (1 - DAMPING) / len c
            - val ranks p) < 1 # 1000.
Proof.
  intros Hwf Hne Hfuel.
  assert (0 <= DAMPING <= 1) as Hd by (split; discriminate).
  destruct (iterate_pagerank_good c fuel Hwf Hne Hfuel) as (r & Hr & Hg).
  exists r. unfold iterate_pagerank. rewrite (initial_ranks c Hwf Hne).
  cbv beta iota delta [bind]. split; [exact Hr|].
  apply (loop_exit c DAMPING Hwf Hne Hd fuel _ _ r
           (good_initial c Hne) (keys_map_pair _ _) Hr).
Qed.

Lemma iterate_pagerank_fixed_point_witness :
  wf_corpus two_pages /\ two_pages <> [] /\ (48 <= 48)%nat /\
  exists ranks,
    iterate_pagerank 48 two_pages DAMPING = Ok ranks /\
    forall p, In p (keys two_pages) ->
      Qabs (flow two_pages (val ranks) p * DAMPING
            + (1 - DAMPING) / len two_pages - val ranks p) < 1 # 1000.
Proof.
  assert (two_pages <> []) as Hne by discriminate.
  split; [exact wf_two_pages|]. split; [exact Hne|]. split; [lia|].
  exact (iterate_pagerank_fixed_point two_pages 48 wf_two_pages Hne (le_n 48)).
Defined.

Lemma no_links_wf (c : corpus) :
  NoDup (keys c) -> (forall page links, In (page, links) c -> links = []) ->
  wf_corpus c.
Proof.
  intros Hnd Hno. split; [assumption|].
  intros page links Hin. rewrite (Hno page links Hin).
  split; [constructor | intros l []].
Qed.

Lemma no_links_flow (c : corpus) (x : Q) (dest : string) :
  c <> [] -> (forall page links, In (page, links) c -> links = []) ->
  flow c (fun _ => x) dest == x.
Proof.
  intros Hne Hno. unfold flow.
  rewrite (sumQ_map_ext (fun e => x * weight c (snd e) dest)
             (fun _ => x * (1 / len c)) c).
  - rewrite sumQ_map_const. fold (len c). field. apply len_nonzero; assumption.
  - intros [page links] Hin. simpl. rewrite (Hno page links Hin).
    unfold weight. simpl. reflexivity.
Qed.

(** X25: on a corpus in which no page has a link, and for a damping factor
    between 0 and 1 (a probability, as the function expects),
    [iterate_pagerank] returns after the first pass with rank 1 / N for
    every page. *)
Theorem iterate_pagerank_no_links (c : corpus) (d : Q) (fuel : nat) :
  NoDup (keys c) -> c <> [] ->
  (forall page links, In (page, links) c -> links = []) ->
  0 <= d <= 1 ->
  (1 <= fuel)%nat ->
  iterate_pagerank fuel c d = Ok (map (fun k => (k, 1 / len c)) (keys c)).
Proof.
  intros Hnd Hne Hno Hd Hfuel.
  pose proof (no_links_wf c Hnd Hno) as Hwf.
  destruct fuel as [|fuel]; [lia|].
  unfold iterate_pagerank. rewrite (initial_ranks c Hwf Hne).
  cbv beta iota delta [bind].
  set (pre := map (fun k => (k, 1 / len c)) (keys c)).
  assert (keys pre = keys c) as Hk by apply keys_map_pair.
  rewrite iterate_loop_S, (sweep_spec c d pre pre Hwf Hne Hk). simpl.
  rewrite (filter_all (converged c d pre) (keys c)).
  - unfold keys at 1. rewrite length_map, Nat.eqb_refl. reflexivity.
  - intros k Hin. unfold converged. apply negb_true_iff.
    destruct (Qle_bool margin (Qabs (updated c d pre k - val pre k))) eqn:E;
      [|reflexivity].
    apply Qle_bool_iff in E. exfalso.
    assert (updated c d pre k - val pre k == 0) as Hz.
    { rewrite (updated_step c d pre k Hwf Hne Hk). unfold step.
      rewrite (flow_ext c (val pre) (fun _ => 1 / len c) k).
      - rewrite (no_links_flow c (1 / len c) k Hne Hno).
        unfold pre. rewrite (val_map_pair _ _ _ Hin).
        field. apply len_nonzero; assumption.
      - intros k' Hin'. unfold pre. rewrite (val_map_pair _ _ _ Hin').
        reflexivity. }
    rewrite Hz in E. apply (Qle_not_lt _ _ E). reflexivity.
Qed.

Lemma iterate_pagerank_no_links_witness :
  NoDup (keys isolated_pages) /\ isolated_pages <> [] /\
  (forall page links, In (page, links) isolated_pages -> links = []) /\
  0 <= DAMPING <= 1 /\
  (1 <= 1)%nat /\
  iterate_pagerank 1 isolated_pages DAMPING
  = Ok (map (fun k => (k, 1 / len isolated_pages)) (keys isolated_pages)).
Proof.
  assert (NoDup (keys isolated_pages)) as Hnd
    by (repeat constructor; simpl; intuition discriminate).
  assert (isolated_pages <> []) as Hne by discriminate.
  assert (forall page links, In (page, links) isolated_pages -> links = [])
    as Hno.
  { intros page links [E|[E|[]]]; inversion E; reflexivity. }
  assert (0 <= DAMPING <= 1) as Hd by (split; discriminate).
  split; [exact Hnd|]. split; [exact Hne|]. split; [exact Hno|].
  split; [exact Hd|]. split; [lia|].
  exact (iterate_pagerank_no_links isolated_pages DAMPING 1
           Hnd Hne Hno Hd (le_n 1)).
Defined.

End CorpusFacts.

(* ================================================================= *)
(** ** pagerank.py: the sampling walk *)

Module SamplingFacts.
Import PageRank PageRankFacts WalkFacts.
Local Open Scope Q_scope.

(** *** Indexing and the random draws *)

Lemma getitem_in_range {A} (l : list A) (i : Z) :
  (0 <= i < Z.of_nat (List.length l))%Z ->
  exists x, getitem l i = Ok x /\ In x l.
Proof.
  intros Hi. unfold getitem.
  replace (i <? 0)%Z with false by (symmetry; apply Z.ltb_ge; lia).
  replace ((0 <=? i)%Z && (i <? Z.of_nat (List.length l))%Z) with true.
  2:{ symmetry. apply andb_true_intro. split;
        [apply Z.leb_le | apply Z.ltb_lt]; lia. }
  destruct (nth_error l (Z.to_nat i)) as [x|] eqn:E.
  - exists x. split; [reflexivity|]. apply (nth_error_In _ _ E).
  - apply nth_error_None in E. lia.
Qed.

Lemma getitem_cons_last {A} (h : A) (l : list A) :
  l <> [] -> getitem (h :: l) (-1) = getitem l (-1).
Proof.
  intros Hne. destruct l as [|y t]; [congruence|].
  unfold getitem.
  change (-1 <? 0)%Z with true. cbv iota.
  set (n := List.length t).
  replace (List.length (h :: y :: t)) with (S (S n)) by reflexivity.
  replace (List.length (y :: t)) with (S n) by reflexivity.
  replace ((0 <=? -1 + Z.of_nat (S (S n)))%Z
           && (-1 + Z.of_nat (S (S n)) <? Z.of_nat (S (S n)))%Z) with true.
  2:{ symmetry. apply andb_true_intro. split;
        [apply Z.leb_le | apply Z.ltb_lt]; lia. }
  replace ((0 <=? -1 + Z.of_nat (S n))%Z
           && (-1 + Z.of_nat (S n) <? Z.of_nat (S n))%Z) with true.
  2:{ symmetry. apply andb_true_intro. split;
        [apply Z.leb_le | apply Z.ltb_lt]; lia. }
  replace (Z.to_nat (-1 + Z.of_nat (S (S n)))) with (S n) by lia.
  replace (Z.to_nat (-1 + Z.of_nat (S n))) with n by lia.
  reflexivity.
Qed.

Lemma accumulate_length (w : list Q) : forall a,
  List.length (accumulate a w) = List.length w.
Proof.
  induction w as [|x t IH]; intros a; simpl; [reflexivity|].
  rewrite IH. reflexivity.
Qed.

Lemma accumulate_last (w : list Q) : forall a,
  w <> [] ->
  exists total, getitem (accumulate a w) (-1) = Ok total /\
                total == a + sumQ w.
Proof.
  induction w as [|x t IH]; intros a Hne; [congruence|].
  destruct t as [|y t].
  - exists (a + x). split; [reflexivity|]. simpl. ring.
  - change (accumulate a (x :: y :: t))
      with ((a + x) :: accumulate (a + x) (y :: t)).
    rewrite getitem_cons_last by (simpl; discriminate).
    destruct (IH (a + x)) as (total & Hg & Ht); [discriminate|].
    exists total. split; [assumption|].
    rewrite Ht. simpl. ring.
Qed.

Lemma bisect_le (cum : list Q) (x : Q) : forall hi,
  (bisect cum x hi <= hi)%nat.
Proof.
  induction cum as [|c t IH]; intros hi; destruct hi as [|hi]; simpl; try lia.
  destruct (Qle_bool c x); [|lia].
  specialize (IH hi). lia.
Qed.

Lemma random_choices_in {A} (u : Q) (population : list A) (weights : list Q) :
  List.length weights = List.length population ->
  population <> [] -> 0 < sumQ weights ->
  exists x, random_choices u population weights = Ok x /\ In x population.
Proof.
  intros Hlen Hne Hpos. unfold random_choices. cbv zeta.
  rewrite accumulate_length, Hlen, Nat.eqb_refl. simpl negb. cbv iota.
  destruct (accumulate_last weights 0) as (total & Hg & Ht).
  { intros ->. destruct population; [congruence | discriminate]. }
  rewrite Hg. cbv beta iota delta [bind].
  assert (Qle_bool total 0 = false) as ->.
  { destruct (Qle_bool total 0) eqn:E; [|reflexivity].
    apply Qle_bool_iff in E. rewrite Ht in E. lra. }
  apply getitem_in_range.
  pose proof (bisect_le (accumulate 0 weights) (u * total)
                (List.length population - 1)).
  destruct population; [congruence|]. simpl in *. lia.
Qed.

Lemma random_choice_in {A} (u : Q) (l : list A) :
  l <> [] -> 0 <= u < 1 ->
  exists x, random_choice u l = Ok x /\ In x l.
Proof.
  intros Hne [Hu0 Hu1]. unfold random_choice.
  destruct l as [|a t] eqn:El; [congruence|]. rewrite <- El.
  apply getitem_in_range.
  assert (0 < len l) as Hlen by (apply len_positive; congruence).
  split.
  - change 0%Z with (Qfloor 0). apply Qfloor_resp_le.
    apply Qmult_le_0_compat; [assumption | apply Qlt_le_weak; assumption].
  - destruct (Z_lt_dec (Qfloor (u * len l)) (Z.of_nat (List.length l)))
      as [H|H]; [assumption|].
    exfalso. apply Z.nlt_ge in H. rewrite Zle_Qle in H.
    pose proof (Qfloor_le (u * len l)) as Hf.
    assert (u * len l < 1 * len l) as Hlt
      by (apply Qmult_lt_compat_r; assumption).
    unfold len in *. lra.
Qed.

(** *** One step of the walk *)

Lemma sum_dict_set_default (d : dict Q) (k : string) (inc : Q) :
  sumQ (map snd (dict_set d k (get_default d k 0 + inc)))
  == sumQ (map snd d) + inc.
Proof.
  unfold get_default. induction d as [|[k0 v0] t IH]; simpl.
  - ring.
  - destruct (String.eqb k0 k); simpl.
    + ring.
    + rewrite IH. ring.
Qed.

Lemma get_default_nonneg (d : dict Q) (k : string) :
  (forall p v, In (p, v) d -> 0 < v) -> 0 <= get_default d k 0.
Proof.
  intros H. unfold get_default.
  destruct (dict_get d k) as [v|] eqn:E; [|apply Qle_refl].
  apply Qlt_le_weak. apply (H k v). apply (dict_get_Some_in _ _ E).
Qed.

Lemma transition_weights (c : corpus) (cur : string) (d : Q) :
  wf_corpus c -> In cur (keys c) ->
  exists trans,
    transition_model c cur d = Ok trans /\
    keys trans = keys c /\ sumQ (map snd trans) == 1.
Proof.
  intros Hwf Hin.
  destruct (PedigreeFacts.in_keys_entry c cur Hin) as [links Hl].
  destruct (transition_model_value c cur links d (proj1 Hwf) Hl) as (f & Hf & Hv).
  eexists. split; [exact Hf|]. split; [apply keys_map_pair|].
  rewrite snd_map_pair.
  rewrite (sumQ_map_ext f (transition_spec c links d) (keys c))
    by (intros; apply Hv).
  apply (transition_spec_sum c cur links d Hwf Hl).
Qed.

Section Walk.

Variable rng : nat -> Q.
Variable c : corpus.
Variable d : Q.
Variable n : Z.
Hypothesis c_wf : wf_corpus c.
Hypothesis c_nonempty : c <> [].
Hypothesis n_positive : (1 <= n)%Z.

Lemma increment : py_div 1 (inject_Z n) = Ok (1 / inject_Z n) /\
                  0 < 1 / inject_Z n.
Proof.
  assert (0 < inject_Z n) as Hn.
  { change 0 with (inject_Z 0). rewrite <- Zlt_Qlt. lia. }
  split.
  - apply py_div_ok. intros E. rewrite E in Hn. apply (Qlt_irrefl 0 Hn).
  - unfold Qdiv. rewrite Qmult_1_l. apply Qinv_lt_0_compat. assumption.
Qed.

Lemma sample_step (ranks : dict Q) (cur : string) (j i : nat) :
  sample_state c (1 / inject_Z n) ranks cur j ->
  exists ranks' cur',
    (trans <- transition_model c cur d ;;
     cur_page <- random_choices (rng (S i)) (keys trans) (map snd trans) ;;
     v <- py_div 1 (inject_Z n) ;;
     Ok (dict_set ranks cur_page (get_default ranks cur_page 0 + v), cur_page))
    = Ok (ranks', cur') /\
    sample_state c (1 / inject_Z n) ranks' cur' (S j).
Proof.
  intros (Hcur & Hnd & Hent & Hsum).
  destruct increment as [Hdiv Hinc].
  destruct (transition_weights c cur d c_wf Hcur) as (trans & Ht & Hk & Hs).
  rewrite Ht. cbv beta iota delta [bind].
  destruct (random_choices_in (rng (S i)) (keys trans) (map snd trans))
    as (next & Hr & Hin).
  { unfold keys. rewrite !length_map. reflexivity. }
  { rewrite Hk. destruct c; [congruence | discriminate]. }
  { rewrite Hs. reflexivity. }
  rewrite Hr, Hdiv. rewrite Hk in Hin.
  eexists. eexists. split; [reflexivity|].
  split; [assumption|]. split; [|split].
  - apply PedigreeFacts.NoDup_keys_dict_set. assumption.
  - intros p v Hpv. apply PedigreeFacts.in_dict_set in Hpv.
    destruct Hpv as [[-> ->]|Hpv]; [|apply (Hent p v Hpv)].
    split; [assumption|].
    pose proof (get_default_nonneg ranks next
                  (fun p v H => proj2 (Hent p v H))).
    lra.
  - rewrite sum_dict_set_default, Hsum.
    rewrite Nat2Z.inj_succ. unfold Z.succ. rewrite inject_Z_plus. ring.
Qed.

Lemma sample_loop (l : list nat) : forall ranks cur j,
  sample_state c (1 / inject_Z n) ranks cur j ->
  exists ranks' cur',
    for_each l (ranks, cur)
      (fun '(result_dict, cur_page) i =>
         trans <- transition_model c cur_page d ;;
         cur_page <- random_choices (rng (S i)) (keys trans) (map snd trans) ;;
         v <- py_div 1 (inject_Z n) ;;
         Ok (dict_set result_dict cur_page
               (get_default result_dict cur_page 0 + v), cur_page))
    = Ok (ranks', cur') /\
    sample_state c (1 / inject_Z n) ranks' cur' (j + List.length l).
Proof.
  induction l as [|i t IH]; intros ranks cur j Hs.
  - exists ranks, cur. split; [reflexivity|].
    rewrite Nat.add_0_r. assumption.
  - destruct (sample_step ranks cur j i Hs) as (r1 & c1 & H1 & Hs1).
    cbn [for_each]. cbv beta iota. rewrite H1.
    destruct (IH r1 c1 (S j) Hs1) as (r2 & c2 & H2 & Hs2).
    exists r2, c2. split; [exact H2|].
    replace (j + List.length (i :: t))%nat with (S j + List.length t)%nat
      by (simpl; lia).
    assumption.
Qed.

Hypothesis rng_unit : forall k, 0 <= rng k < 1.

Lemma sample_pagerank_returns :
  exists ranks cur,
    sample_pagerank rng c d n = Ok ranks /\
    sample_state c (1 / inject_Z n) ranks cur (Z.to_nat n).
Proof.
  destruct increment as [Hdiv Hinc].
  destruct (random_choice_in (rng 0%nat) (keys c)) as (init & Hi & Hin).
  { destruct c; [congruence | discriminate]. }
  { apply rng_unit. }
  destruct (sample_loop (seq 0 (Z.to_nat (n - 1)))
              (dict_set [] init (1 / inject_Z n)) init 1)
    as (ranks & cur & Hl & Hs).
  { split; [assumption|]. split; [repeat constructor; simpl; tauto|].
    split.
    - intros p v [E|[]]. inversion E; subst. auto.
    - simpl. ring. }
  exists ranks, cur. split.
  - unfold sample_pagerank. cbv zeta. rewrite Hi. unfold bind at 1.
    rewrite Hdiv at 1. unfold bind at 1. rewrite Hl. reflexivity.
  - rewrite length_seq in Hs.
    replace (Z.to_nat n) with (1 + Z.to_nat (n - 1))%nat by lia.
    assumption.
Qed.

(** X26: on a non-empty well-formed corpus, with [n >= 1] and random draws
    in [0, 1), [sample_pagerank] returns; the pages of the result are
    distinct pages of the corpus, every value lies in (0, 1] and the values
    sum to 1. *)
Theorem sample_pagerank_total :
  0 <= d <= 1 ->
  exists ranks,
    sample_pagerank rng c d n = Ok ranks /\
    NoDup (keys ranks) /\
    (forall p v, In (p, v) ranks -> In p (keys c) /\ 0 < v <= 1) /\
    sumQ (map snd ranks) == 1.
Proof.
  intros _.
  destruct sample_pagerank_returns as (ranks & cur & Hr & _ & Hnd & Hent & Hsum).
  destruct increment as [_ Hinc].
  assert (sumQ (map snd ranks) == 1) as Hone.
  { rewrite Hsum. rewrite Z2Nat.id by lia. field.
    intros E. assert (0 < inject_Z n) as Hn
      by (change 0 with (inject_Z 0); rewrite <- Zlt_Qlt; lia).
    rewrite E in Hn. apply (Qlt_irrefl 0 Hn). }
  exists ranks. split; [exact Hr|]. split; [exact Hnd|].
  split; [|exact Hone].
  intros p v Hin. destruct (Hent p v Hin) as [Hp Hv].
  split; [assumption|]. split; [assumption|].
  rewrite <- Hone.
  apply (sumQ_term_le snd ranks (p, v)); [|assumption].
  intros [p' v'] Hin'. apply Qlt_le_weak. apply (proj2 (Hent p' v' Hin')).
Qed.

Lemma walk_length (l : list nat) : forall walk cur walk' cur',
  for_each l (walk, cur)
    (fun '(walk, cur_page) i =>
       trans <- transition_model c cur_page d ;;
       cur_page <- random_choices (rng (S i)) (keys trans) (map snd trans) ;;
       v <- py_div 1 (inject_Z n) ;;
       Ok (cur_page :: walk, cur_page))
  = Ok (walk', cur') ->
  List.length walk' = (List.length walk + List.length l)%nat.
Proof.
  induction l as [|i t IH]; intros walk cur walk' cur' H.
  - inversion H; subst. simpl. lia.
  - cbn [for_each] in H. cbv beta iota in H.
    apply bind_Ok_inv in H. destruct H as ([w1 c1] & H1 & H).
    apply bind_Ok_inv in H1. destruct H1 as (trans & _ & H1).
    apply bind_Ok_inv in H1. destruct H1 as (next & _ & H1).
    apply bind_Ok_inv in H1. destruct H1 as (v & _ & H1).
    inversion H1; subst w1 c1.
    rewrite (IH _ _ _ _ H). simpl. lia.
Qed.

(** X27: under the same conditions the value of a page is the number of
    times the walk of [n] samples visited it, divided by [n], and exactly the
    pages that were never visited are missing from the result. *)
Theorem sample_pagerank_frequencies :
  0 <= d <= 1 ->
  exists ranks walk,
    sample_pagerank rng c d n = Ok ranks /\
    sample_walk rng c d n = Ok walk /\
    List.length walk = Z.to_nat n /\
    forall p,
      match dict_get ranks p with
      | Some v => visits p walk <> 0%nat /\
                  v == inject_Z (Z.of_nat (visits p walk)) / inject_Z n
      | None => visits p walk = 0%nat
      end.
Proof.
  intros _.
  destruct sample_pagerank_returns as (ranks & cur & Hr & _).
  destruct (sample_pagerank_counts rng c d n ranks Hr) as (walk & Hw & Hc).
  exists ranks, walk. split; [exact Hr|]. split; [exact Hw|].
  split; [|exact Hc].
  unfold sample_walk in Hw.
  apply bind_Ok_inv in Hw. destruct Hw as (init & _ & Hw).
  apply bind_Ok_inv in Hw. destruct Hw as (v & _ & Hw).
  apply bind_Ok_inv in Hw. destruct Hw as ([w1 c1] & Hl & Hw).
  inversion Hw; subst walk. simpl.
  rewrite (walk_length _ _ _ _ _ Hl). rewrite length_seq. simpl. lia.
Qed.

End Walk.

Lemma sample_pagerank_total_witness :
  wf_corpus two_pages /\ two_pages <> [] /\ (1 <= 3)%Z /\
  (forall k : nat, 0 <= (fun _ : nat => 0) k < 1) /\
  0 <= DAMPING <= 1 /\
  exists ranks,
    sample_pagerank (fun _ => 0) two_pages DAMPING 3 = Ok ranks /\
    NoDup (keys ranks) /\
    (forall p v, In (p, v) ranks -> In p (keys two_pages) /\ 0 < v <= 1) /\
    sumQ (map snd ranks) == 1.
Proof.
  assert (two_pages <> []) as Hne by discriminate.
  assert (1 <= 3)%Z as Hn by lia.
  assert (forall k : nat, 0 <= (fun _ : nat => 0) k < 1) as Hu
    by (intros k; split; [apply Qle_refl | reflexivity]).
  assert (0 <= DAMPING <= 1) as Hd by (split; discriminate).
  split; [exact wf_two_pages|]. split; [exact Hne|]. split; [exact Hn|].
  split; [exact Hu|]. split; [exact Hd|].
  exact (sample_pagerank_total (fun _ => 0) two_pages DAMPING 3
           wf_two_pages Hne Hn Hu Hd).
Defined.

Lemma sample_pagerank_frequencies_witness :
  wf_corpus two_pages /\ two_pages <> [] /\ (1 <= 3)%Z /\
  (forall k : nat, 0 <= (fun _ : nat => 0) k < 1) /\
  0 <= DAMPING <= 1 /\
  exists ranks walk,
    sample_pagerank (fun _ => 0) two_pages DAMPING 3 = Ok ranks /\
    sample_walk (fun _ => 0) two_pages DAMPING 3 = Ok walk /\
    List.length walk = Z.to_nat 3 /\
    forall p,
      match dict_get ranks p with
      | Some v => visits p walk <> 0%nat /\
                  v == inject_Z (Z.of_nat (visits p walk)) / inject_Z 3
      | None => visits p walk = 0%nat
      end.
Proof.
  assert (two_pages <> []) as Hne by discriminate.
  assert (1 <= 3)%Z as Hn by lia.
  assert (forall k : nat, 0 <= (fun _ : nat => 0) k < 1) as Hu
    by (intros k; split; [apply Qle_refl | reflexivity]).
  assert (0 <= DAMPING <= 1) as Hd by (split; discriminate).
  split; [exact wf_two_pages|]. split; [exact Hne|]. split; [exact Hn|].
  split; [exact Hu|]. split; [exact Hd|].
  exact (sample_pagerank_frequencies (fun _ => 0) two_pages DAMPING 3
           wf_two_pages Hne Hn Hu Hd).
Defined.

(** X28: [sample_pagerank] does not check [n]: with [n = 0] it raises
    [ZeroDivisionError], and with a negative [n] it returns a single page
    with the negative value [1 / n]. *)
Theorem sample_pagerank_nonpositive (rng : nat -> Q) (c : corpus) (d : Q)
    (n : Z) :
  c <> [] -> 0 <= rng 0%nat < 1 -> (n <= 0)%Z ->
  (n = 0%Z -> sample_pagerank rng c d n = Raise ZeroDivisionError) /\
  ((n < 0)%Z ->
   exists page,
     In page (keys c) /\
     sample_pagerank rng c d n = Ok [(page, 1 / inject_Z n)] /\
     1 / inject_Z n < 0).
Proof.
  intros Hne Hu Hn.
  destruct (random_choice_in (rng 0%nat) (keys c)) as (init & Hi & Hin);
    [destruct c; [congruence | discriminate] | assumption |].
  split.
  - intros ->. unfold sample_pagerank. cbv zeta. rewrite Hi. reflexivity.
  - intros Hneg. exists init. split; [assumption|].
    assert (1 / inject_Z n < 0) as Hlt.
    { destruct n as [|p|p]; try lia.
      unfold Qlt, Qdiv, Qmult, Qinv, inject_Z. simpl. lia. }
    split; [|assumption].
    unfold sample_pagerank. cbv zeta. rewrite Hi. unfold bind at 1.
    rewrite py_div_ok.
    + replace (Z.to_nat (n - 1)) with 0%nat by lia. reflexivity.
    + intros E. rewrite E in Hlt. revert Hlt. unfold Qdiv, Qinv. simpl.
      discriminate.
Qed.

Lemma sample_pagerank_nonpositive_witness :
  two_pages <> [] /\ 0 <= (fun _ : nat => 0) 0%nat < 1 /\ (0 <= 0)%Z /\
  (0%Z = 0%Z ->
   sample_pagerank (fun _ => 0) two_pages DAMPING 0 = Raise ZeroDivisionError) /\
  ((0 < 0)%Z ->
   exists page,
     In page (keys two_pages) /\
     sample_pagerank (fun _ => 0) two_pages DAMPING 0
     = Ok [(page, 1 / inject_Z 0)] /\
     1 / inject_Z 0 < 0).
Proof.
  assert (two_pages <> []) as Hne by discriminate.
  assert (0 <= (fun _ : nat => 0) 0%nat < 1) as Hu
    by (split; [apply Qle_refl | reflexivity]).
  split; [exact Hne|]. split; [exact Hu|]. split; [lia|].
  exact (sample_pagerank_nonpositive (fun _ => 0) two_pages DAMPING 0
           Hne Hu (Z.le_refl 0)).
Defined.

End SamplingFacts.

(* ================================================================= *)
(** ** heredity.py in binary64: rounding *)

Module RoundingFacts.
Import HeredityFloat.
Local Open Scope Q_scope.

Lemma rne_error (y : Q) : Qabs (inject_Z (rne y) - y) <= 1 # 2.
Proof.
  unfold rne.
  pose proof (Qfloor_le y) as Hlo. pose proof (Qlt_floor y) as Hhi.
  rewrite inject_Z_plus in Hhi. change (inject_Z 1) with 1 in Hhi.
  apply Qabs_Qle_condition.
  destruct (Qcompare (y - inject_Z (Qfloor y)) (1 # 2)) eqn:E.
  - apply Qeq_alt in E.
    destruct (Z.even (Qfloor y)); rewrite ?inject_Z_plus;
      change (inject_Z 1) with 1; split; lra.
  - apply Qlt_alt in E. split; lra.
  - apply Qgt_alt in E. rewrite inject_Z_plus.
    change (inject_Z 1) with 1. split; lra.
Qed.

Lemma two_power_pos (e : Z) : 0 < 2 ^ e.
Proof. apply Qpower_0_lt. reflexivity. Qed.

Lemma two_power_succ (e : Z) : 2 ^ (e + 1) == 2 * 2 ^ e.
Proof. rewrite Qpower_plus by discriminate. ring. Qed.

Lemma two_power_Z (n : Z) : (0 <= n)%Z -> inject_Z (2 ^ n) == 2 ^ n.
Proof. intros H. apply (Zpower_Qpower 2 n H). Qed.

(** For a positive rational the exponent found by [ilog2] brackets it. *)
Lemma ilog2_spec (x : Q) :
  0 < x -> 2 ^ ilog2 x <= x /\ x < 2 ^ (ilog2 x + 1).
Proof.
  intros Hx. destruct x as [n d].
  assert (0 < n)%Z as Hn by (unfold Qlt in Hx; simpl in Hx; lia).
  unfold ilog2. cbn [Qnum Qden].
  set (ln := Z.log2 n). set (ld := Z.log2 (Z.pos d)).
  destruct (Z.log2_spec n Hn) as [Hn1 Hn2]. fold ln in Hn1, Hn2.
  destruct (Z.log2_spec (Z.pos d) (Pos2Z.is_pos d)) as [Hd1 Hd2].
  fold ld in Hd1, Hd2.
  assert (0 <= ln)%Z as Hln by apply Z.log2_nonneg.
  assert (0 <= ld)%Z as Hld by apply Z.log2_nonneg.
  (* the bounds as rationals *)
  assert (2 ^ ln <= inject_Z n) as Qn1
    by (rewrite <- two_power_Z by assumption; rewrite <- Zle_Qle; assumption).
  assert (inject_Z n < 2 * 2 ^ ln) as Qn2.
  { rewrite <- two_power_succ, <- two_power_Z by lia.
    rewrite <- Zlt_Qlt. unfold Z.succ in Hn2. assumption. }
  assert (2 ^ ld <= inject_Z (Z.pos d)) as Qd1
    by (rewrite <- two_power_Z by assumption; rewrite <- Zle_Qle; assumption).
  assert (inject_Z (Z.pos d) < 2 * 2 ^ ld) as Qd2.
  { rewrite <- two_power_succ, <- two_power_Z by lia.
    rewrite <- Zlt_Qlt. unfold Z.succ in Hd2. assumption. }
  pose proof (two_power_pos ln) as Pn. pose proof (two_power_pos ld) as Pd.
  assert (0 < inject_Z (Z.pos d)) as Dpos by lra.
  assert (n # d == inject_Z n / inject_Z (Z.pos d)) as Ex by apply Qmake_Qdiv.
  assert (2 ^ (ln - ld) == 2 ^ ln / 2 ^ ld) as Ee
    by (apply Qpower_minus; discriminate).
  assert (forall e, 2 ^ (e - 1 + 1) == 2 ^ e) as Eid
    by (intros e; replace (e - 1 + 1)%Z with e by lia; reflexivity).
  assert (2 ^ (ln - ld - 1) == 2 ^ ln / (2 * 2 ^ ld)) as Em.
  { rewrite Qpower_minus by discriminate. rewrite Ee.
    change (2 ^ 1) with 2. field. lra. }
  destruct (Qle_bool (2 ^ (ln - ld)) (n # d)) eqn:E.
  - apply Qle_bool_iff in E. split; [assumption|].
    rewrite two_power_succ, Ee, Ex.
    apply Qlt_shift_div_r; [assumption|].
    assert (2 * (2 ^ ln / 2 ^ ld) * inject_Z (Z.pos d)
            == 2 * 2 ^ ln * (inject_Z (Z.pos d) / 2 ^ ld)) as -> by (field; lra).
    assert (1 <= inject_Z (Z.pos d) / 2 ^ ld) as H1
      by (apply Qle_shift_div_l; [assumption | lra]).
    nra.
  - assert (~ 2 ^ (ln - ld) <= n # d) as E'
      by (intros H; apply Qle_bool_iff in H; congruence).
    apply Qnot_le_lt in E'. split; [|rewrite Eid; assumption].
    rewrite Em, Ex.
    apply Qle_shift_div_l; [assumption|].
    assert (2 ^ ln / (2 * 2 ^ ld) * inject_Z (Z.pos d)
            == 2 ^ ln * (inject_Z (Z.pos d) / (2 * 2 ^ ld))) as -> by (field; lra).
    assert (inject_Z (Z.pos d) / (2 * 2 ^ ld) <= 1) as H1
      by (apply Qle_shift_div_r; [lra | lra]).
    nra.
Qed.

(** Replace the powers of two that occur as constants by numerals. *)
Ltac numerals :=
  repeat match goal with
         | |- context [2 ^ (Z.neg ?p)] =>
             let v := eval vm_compute in (2 ^ (Z.neg p)) in
             change (2 ^ (Z.neg p)) with v
         | |- context [2 ^ (Z.pos ?p)] =>
             let v := eval vm_compute in (2 ^ (Z.pos p)) in
             change (2 ^ (Z.pos p)) with v
         | H : context [2 ^ (Z.neg ?p)] |- _ =>
             let v := eval vm_compute in (2 ^ (Z.neg p)) in
             change (2 ^ (Z.neg p)) with v in H
         | H : context [2 ^ (Z.pos ?p)] |- _ =>
             let v := eval vm_compute in (2 ^ (Z.pos p)) in
             change (2 ^ (Z.pos p)) with v in H
         end.

(** The relative error of rounding a number in the normal range is at most
    [2 ^ -53]. *)
Lemma round64_error (x : Q) :
  2 ^ (-1022) <= x -> Qabs (round64 x - x) <= 2 ^ (-53) * x.
Proof.
  intros Hx.
  assert (0 < x) as Hpos
    by (eapply Qlt_le_trans; [apply (two_power_pos (-1022)) | exact Hx]).
  destruct (ilog2_spec x Hpos) as [Hlo Hhi].
  assert (-1022 <= ilog2 x)%Z as He.
  { assert (2 ^ (-1022) < 2 ^ (ilog2 x + 1)) as H
      by (eapply Qle_lt_trans; [exact Hx | exact Hhi]).
    apply Qpower_lt_compat_l_inv in H; [lia | reflexivity]. }
  unfold round64.
  assert (Qeq_bool x 0 = false) as ->.
  { destruct (Qeq_bool x 0) eqn:E; [|reflexivity].
    apply Qeq_bool_iff in E. rewrite E in Hpos. discriminate. }
  assert (ilog2 (Qabs x) = ilog2 x) as ->.
  { destruct x as [[|p|p] d]; try reflexivity; discriminate. }
  rewrite Z.max_l by lia.
  set (e := (ilog2 x - 52)%Z).
  pose proof (two_power_pos e) as HP.
  set (P := 2 ^ e) in *.
  assert (round_eq :
            inject_Z (rne (x / P)) * P - x
            == (inject_Z (rne (x / P)) - x / P) * P) by (field; lra).
  rewrite round_eq, Qabs_Qmult, (Qabs_pos P) by lra.
  pose proof (rne_error (x / P)) as Hr.
  assert (P == 2 ^ ilog2 x * 2 ^ (-52)) as EP.
  { unfold P, e. rewrite <- Qpower_plus by discriminate. reflexivity. }
  assert (2 ^ (-53) == (1 # 2) * 2 ^ (-52)) as E53 by reflexivity.
  apply (Qle_trans _ ((1 # 2) * P)).
  - apply Qmult_le_compat_r; [assumption | lra].
  - rewrite EP, E53.
    assert (0 < 2 ^ (-52)) as H52 by reflexivity.
    set (c := 2 ^ (-52)) in *. nra.
Qed.

Lemma round64_bounds (x : Q) :
  2 ^ (-1022) <= x ->
  (1 - 2 ^ (-53)) * x <= round64 x <= (1 + 2 ^ (-53)) * x.
Proof.
  intros Hx. pose proof (round64_error x Hx) as H.
  apply Qabs_Qle_condition in H. destruct H as [H1 H2].
  split; lra.
Qed.

(** An operation whose exact result is zero or lies in the normal range
    returns a finite float, with a relative error of at most [2 ^ -53]. *)
Lemma fl_num (x : Q) :
  x == 0 \/ 2 ^ (-1022) <= x <= 2 ^ 1023 ->
  exists r, fl x = Fnum r /\
            (1 - 2 ^ (-53)) * x <= r <= (1 + 2 ^ (-53)) * x.
Proof.
  intros [Hz|[Hlo Hhi]].
  - exists 0. unfold fl, round64.
    apply Qeq_bool_iff in Hz. rewrite Hz.
    split; [reflexivity|]. apply Qeq_bool_iff in Hz. rewrite Hz. split; lra.
  - pose proof (round64_bounds x Hlo) as [B1 B2].
    exists (round64 x). split; [|split; assumption].
    unfold fl. cbv zeta.
    assert (Qle_bool (Qabs (round64 x)) max_float = true) as ->; [|reflexivity].
    apply Qle_bool_iff.
    assert (0 < x) as Hpos
      by (eapply Qlt_le_trans; [apply (two_power_pos (-1022)) | exact Hlo]).
    assert (0 <= round64 x) as Hr.
    { assert (0 < 1 - 2 ^ (-53)) as Hc by reflexivity.
      apply (Qle_trans _ ((1 - 2 ^ (-53)) * x)); [|assumption].
      apply Qmult_le_0_compat; lra. }
    rewrite Qabs_pos by assumption.
    apply (Qle_trans _ ((1 + 2 ^ (-53)) * x)); [assumption|].
    apply (Qle_trans _ ((1 + 2 ^ (-53)) * 2 ^ 1023)).
    + apply Qmult_le_l; [reflexivity | assumption].
    + unfold max_float. vm_compute. discriminate.
Qed.

(** *** The operations of [normalize] on numbers of moderate magnitude *)

Ltac round_step x r :=
  let E := fresh "E" in
  let Blo := fresh "Blo" in
  let Bhi := fresh "Bhi" in
  destruct (fl_num x) as (r & E & Blo & Bhi);
  [ | rewrite E; clear E; numerals ].

Lemma moderate_normal (q : Q) : moderate_number q -> normal_number q.
Proof.
  unfold moderate_number, normal_number. numerals.
  intros [H|H]; [left | right]; lra.
Qed.

(** The sum of three values, as the loop over [range(3)] computes it. *)
Lemma sum_of_three (g0 g1 g2 : Q) :
  normal_number g0 -> normal_number g1 -> normal_number g2 ->
  0 < g0 + g1 + g2 ->
  exists s, fadd (fadd (fadd (Fnum 0) (Fnum g0)) (Fnum g1)) (Fnum g2) = Fnum s /\
            (1 - 3 * 2 ^ (-53)) * (g0 + g1 + g2) <= s
            <= (1 + 4 * 2 ^ (-53)) * (g0 + g1 + g2).
Proof.
  unfold normal_number. intros H0 H1 H2 Hs. cbn [fadd].
  round_step (0 + g0) s0.
  { numerals. destruct H0 as [H0|H0]; [left | right]; lra. }
  cbn [fadd]. round_step (s0 + g1) s1.
  { numerals. destruct H0 as [H0|H0], H1 as [H1|H1];
      [left | right | right | right]; lra. }
  cbn [fadd]. round_step (s1 + g2) s2.
  { numerals. right.
    destruct H0 as [H0|H0], H1 as [H1|H1], H2 as [H2|H2]; lra. }
  exists s2. split; [reflexivity|].
  assert (0 <= g0 /\ 0 <= g1 /\ 0 <= g2) as (P0 & P1 & P2)
    by (destruct H0 as [H0|H0], H1 as [H1|H1], H2 as [H2|H2];
        repeat split; lra).
  split; lra.
Qed.

(** The sum of the two trait values. *)
Lemma sum_of_two (t1 t2 : Q) :
  normal_number t1 -> normal_number t2 -> 0 < t1 + t2 ->
  exists s, fadd (fadd (Fnum 0) (Fnum t1)) (Fnum t2) = Fnum s /\
            (1 - 3 * 2 ^ (-53)) * (t1 + t2) <= s
            <= (1 + 4 * 2 ^ (-53)) * (t1 + t2).
Proof.
  unfold normal_number. intros H1 H2 Hs. cbn [fadd].
  round_step (0 + t1) s0.
  { numerals. destruct H1 as [H1|H1]; [left | right]; lra. }
  cbn [fadd]. round_step (s0 + t2) s1.
  { numerals. right. destruct H1 as [H1|H1], H2 as [H2|H2]; lra. }
  exists s1. split; [reflexivity|].
  assert (0 <= t1 /\ 0 <= t2) as (P1 & P2)
    by (destruct H1 as [H1|H1], H2 as [H2|H2]; split; lra).
  split; lra.
Qed.

(** The factor [1 / sum]: the rounded sum [s] of values of exact sum [S]
    gives a factor [f] with [f * S] close to 1. *)
Lemma factor_of_sum (S s : Q) :
  2 ^ (-500) <= S <= 3 * 2 ^ 500 ->
  (1 - 3 * 2 ^ (-53)) * S <= s <= (1 + 4 * 2 ^ (-53)) * S ->
  exists f, fdiv (Fnum 1) (Fnum s) = Ok (Fnum f) /\
            1 - 5 * 2 ^ (-53) <= f * S <= 1 + 5 * 2 ^ (-53).
Proof.
  intros HS Hs. numerals.
  assert (0 < S) as PS by lra.
  assert (0 < s) as Ps by lra.
  unfold fdiv.
  assert (Qeq_bool s 0 = false) as ->.
  { destruct (Qeq_bool s 0) eqn:E; [|reflexivity].
    apply Qeq_bool_iff in E. lra. }
  assert (0 < 1 / s) as Px by (apply Qlt_shift_div_l; lra).
  assert (1 / s * s == 1) as Ex by (field; lra).
  round_step (1 / s) f.
  { right. numerals. split.
    - apply Qle_shift_div_l; [assumption | lra].
    - apply Qle_shift_div_r; [assumption | lra]. }
  exists f. split; [reflexivity|].
  set (x := 1 / s) in *.
  (* [w = S / s] lies between [1 / (1 + 4u)] and [1 / (1 - 3u)] *)
  assert (x * ((1 - (3 # 9007199254740992)) * S) <= x * s) as W1
    by (apply Qmult_le_l; [assumption | lra]).
  assert (x * s <= x * ((1 + (4 # 9007199254740992)) * S)) as W2
    by (apply Qmult_le_l; [assumption | lra]).
  assert (f * S <= (1 + (1 # 9007199254740992)) * x * S) as F2
    by (apply Qmult_le_compat_r; lra).
  assert ((1 - (1 # 9007199254740992)) * x * S <= f * S) as F1
    by (apply Qmult_le_compat_r; lra).
  set (w := x * S) in *.
  assert (x * ((1 - (3 # 9007199254740992)) * S)
          == (1 - (3 # 9007199254740992)) * w) as R1 by (unfold w; ring).
  assert (x * ((1 + (4 # 9007199254740992)) * S)
          == (1 + (4 # 9007199254740992)) * w) as R2 by (unfold w; ring).
  assert ((1 + (1 # 9007199254740992)) * x * S
          == (1 + (1 # 9007199254740992)) * w) as R3 by (unfold w; ring).
  assert ((1 - (1 # 9007199254740992)) * x * S
          == (1 - (1 # 9007199254740992)) * w) as R4 by (unfold w; ring).
  rewrite R1 in W1. rewrite R2 in W2. rewrite R3 in F2. rewrite R4 in F1.
  rewrite Ex in W1, W2.
  set (fS := f * S) in *.
  split; lra.
Qed.

(** One value multiplied by the factor. *)
Lemma scaled_value (f S g : Q) :
  2 ^ (-500) <= S <= 3 * 2 ^ 500 ->
  1 - 5 * 2 ^ (-53) <= f * S <= 1 + 5 * 2 ^ (-53) ->
  moderate_number g -> g <= S ->
  exists v, fmul (Fnum f) (Fnum g) = Fnum v /\
            normal_number v /\
            (1 - 7 * 2 ^ (-53)) * (g / S) <= v
            <= (1 + 7 * 2 ^ (-53)) * (g / S).
Proof.
  unfold moderate_number, normal_number. intros HS Hf Hg HgS. numerals.
  assert (0 < S) as PS by lra.
  assert (f * g == f * S * (g / S)) as Efg by (field; lra).
  assert (g / S * S == g) as Et by (field; lra).
  cbn [fmul].
  destruct Hg as [Hg|Hg].
  - round_step (f * g) v.
    { left. rewrite Hg. ring. }
    exists v.
    assert (g / S == 0) as Zt by (rewrite Hg; field; lra).
    assert (f * g == 0) as Z by (rewrite Hg; ring).
    rewrite Z in Blo, Bhi. rewrite Zt.
    split; [reflexivity|]. split; [left; lra | split; lra].
  - assert ((1 # 3) * (1 # 2) ^ 1000 <= g / S) as T1.
    { apply Qle_shift_div_l; [assumption|]. vm_compute ((1 # 2) ^ 1000). lra. }
    assert (g / S <= 1) as T2 by (apply Qle_shift_div_r; lra).
    vm_compute ((1 # 2) ^ 1000) in T1.
    set (t := g / S) in *.
    assert (0 <= t) as Pt by lra.
    assert ((1 - (5 # 9007199254740992)) * t <= f * S * t) as P1
      by (apply Qmult_le_compat_r; lra).
    assert (f * S * t <= (1 + (5 # 9007199254740992)) * t) as P2
      by (apply Qmult_le_compat_r; lra).
    rewrite <- Efg in P1, P2.
    round_step (f * g) v.
    { right. numerals. set (p := f * g) in *. split; lra. }
    exists v. split; [reflexivity|].
    set (p := f * g) in *. split; [right; split; lra | split; lra].
Qed.

Lemma close_of_bounds (v t : Q) :
  0 <= t ->
  (1 - 7 * 2 ^ (-53)) * t <= v <= (1 + 7 * 2 ^ (-53)) * t ->
  close v t.
Proof.
  unfold close. intros Ht [H1 H2]. numerals.
  apply Qabs_Qle_condition. split; lra.
Qed.

Lemma quotient_nonneg (g S : Q) : 0 <= g -> 0 < S -> 0 <= g / S.
Proof. intros Hg HS. apply Qle_shift_div_l; [assumption | lra]. Qed.

Lemma moderate_nonneg (q : Q) : moderate_number q -> 0 <= q.
Proof. unfold moderate_number. numerals. intros [H|H]; lra. Qed.

Lemma moderate_total_range (q S : Q) :
  moderate_number q -> 0 <= S -> ~ q == 0 -> 2 ^ (-500) <= q + S.
Proof. unfold moderate_number. numerals. intros [H|H] HS Hq; [contradiction | lra]. Qed.

(** *** One person *)

Lemma normalize_entry_rounded (d : distribution) :
  moderate d -> exists d', normalize_entry d = Ok d' /\ normalized d d'.
Proof.
  destruct d as [x2 x1 x0 xt xf].
  unfold moderate, gene_total, trait_total. cbn [gene0 gene1 gene2 trait_true trait_false].
  intros ((g0 & -> & M0) & (g1 & -> & M1) & (g2 & -> & M2) &
          (tt & -> & Mt) & (tf & -> & Mf) & HG & HT).
  cbn [value] in HG, HT.
  pose proof (moderate_nonneg g0 M0) as P0.
  pose proof (moderate_nonneg g1 M1) as P1.
  pose proof (moderate_nonneg g2 M2) as P2.
  pose proof (moderate_nonneg tt Mt) as Pt.
  pose proof (moderate_nonneg tf Mf) as Pf.
  set (G := g0 + g1 + g2) in *.
  set (T := tt + tf) in *.
  assert (2 ^ (-500) <= G <= 3 * 2 ^ 500) as RG.
  { unfold G. unfold moderate_number in M0, M1, M2. numerals.
    destruct M0 as [M0|M0], M1 as [M1|M1], M2 as [M2|M2]; unfold G in HG; lra. }
  assert (2 ^ (-500) <= T <= 3 * 2 ^ 500) as RT.
  { unfold T. unfold moderate_number in Mt, Mf. numerals.
    destruct Mt as [Mt|Mt], Mf as [Mf|Mf]; unfold T in HT; lra. }
  destruct (sum_of_three g0 g1 g2) as (s & Es & Bs);
    try (apply moderate_normal; assumption); [exact HG|].
  destruct (factor_of_sum G s RG Bs) as (f & Ef & Bf).
  destruct (scaled_value f G g0 RG Bf M0) as (v0 & E0 & N0 & B0);
    [unfold G; lra|].
  destruct (scaled_value f G g1 RG Bf M1) as (v1 & E1 & N1 & B1);
    [unfold G; lra|].
  destruct (scaled_value f G g2 RG Bf M2) as (v2 & E2 & N2 & B2);
    [unfold G; lra|].
  destruct (sum_of_two tt tf) as (s' & Es' & Bs');
    try (apply moderate_normal; assumption); [exact HT|].
  destruct (factor_of_sum T s' RT Bs') as (f' & Ef' & Bf').
  destruct (scaled_value f' T tt RT Bf' Mt) as (vt & Et & Nt & Bt);
    [unfold T; lra|].
  destruct (scaled_value f' T tf RT Bf' Mf) as (vf & Evf & Nf & Bvf);
    [unfold T; lra|].
  assert (0 < G) as PG by exact HG.
  assert (0 < T) as PT by exact HT.
  assert (g0 / G + g1 / G + g2 / G == 1) as SG by (unfold G; field; unfold G in PG; lra).
  assert (tt / T + tf / T == 1) as ST by (unfold T; field; unfold T in PT; lra).
  pose proof (quotient_nonneg g0 G P0 PG) as Q0.
  pose proof (quotient_nonneg g1 G P1 PG) as Q1.
  pose proof (quotient_nonneg g2 G P2 PG) as Q2.
  pose proof (quotient_nonneg tt T Pt PT) as Qt.
  pose proof (quotient_nonneg tf T Pf PT) as Qf.
  exists {| gene2 := Fnum v2; gene1 := Fnum v1; gene0 := Fnum v0;
            trait_true := Fnum vt; trait_false := Fnum vf |}.
  split.
  - unfold normalize_entry, gene_sum, trait_sum.
    cbn [gene0 gene1 gene2 trait_true trait_false].
    rewrite Es, Ef. cbn [bind]. rewrite Es', Ef'. cbn [bind].
    rewrite E0, E1, E2, Et, Evf. reflexivity.
  - unfold normalized, gene_total, trait_total, gene_sum, trait_sum, finite.
    cbn [gene0 gene1 gene2 trait_true trait_false value].
    fold G. fold T.
    assert (0 < v0 + v1 + v2) as PV.
    { numerals. set (t0 := g0 / G) in *. set (t1 := g1 / G) in *.
      set (t2 := g2 / G) in *. lra. }
    assert (0 < vt + vf) as PW.
    { numerals. set (t0 := tt / T) in *. set (t1 := tf / T) in *. lra. }
    destruct (sum_of_three v0 v1 v2 N0 N1 N2 PV) as (r & Er & Br).
    destruct (sum_of_two vt vf Nt Nf PW) as (r' & Er' & Br').
    repeat match goal with |- _ /\ _ => split end; eauto;
      try (apply close_of_bounds; [assumption | assumption]).
    + unfold close. numerals. apply Qabs_Qle_condition.
      set (t0 := g0 / G) in *. set (t1 := g1 / G) in *. set (t2 := g2 / G) in *.
      split; lra.
    + unfold close. numerals. apply Qabs_Qle_condition.
      set (t0 := tt / T) in *. set (t1 := tf / T) in *.
      split; lra.
    + exists r. split; [exact Er|]. numerals. apply Qabs_Qle_condition.
      set (t0 := g0 / G) in *. set (t1 := g1 / G) in *. set (t2 := g2 / G) in *.
      split; lra.
    + exists r'. split; [exact Er'|]. numerals. apply Qabs_Qle_condition.
      set (t0 := tt / T) in *. set (t1 := tf / T) in *.
      split; lra.
Qed.

End RoundingFacts.

(* ================================================================= *)
(** ** heredity.py in binary64: [normalize] *)

Module NormalizeFloatFacts.
Import HeredityFloat RoundingFacts.
Local Open Scope Q_scope.

Lemma normalize_body_float (acc : accumulator) (k : string) (d : distribution) :
  lookup acc k = Ok d ->
  (d <- lookup acc k ;;
   g0 <- get_gene d 0 ;;
   g1 <- get_gene d 1 ;;
   g2 <- get_gene d 2 ;;
   let gene_probabilities_sum := fadd (fadd (fadd (Fnum 0) g0) g1) g2 in
   gene_factor <- fdiv (Fnum 1) gene_probabilities_sum ;;
   g0 <- get_gene d 0 ;;
   d <- set_gene d 0 (fmul gene_factor g0) ;;
   g1 <- get_gene d 1 ;;
   d <- set_gene d 1 (fmul gene_factor g1) ;;
   g2 <- get_gene d 2 ;;
   d <- set_gene d 2 (fmul gene_factor g2) ;;
   let trait_probabilities_sum :=
     fadd (fadd (Fnum 0) (get_trait d true)) (get_trait d false) in
   trait_factor <- fdiv (Fnum 1) trait_probabilities_sum ;;
   let d := set_trait d true (fmul trait_factor (get_trait d true)) in
   let d := set_trait d false (fmul trait_factor (get_trait d false)) in
   Ok (dict_set acc k d))
  = (v' <- normalize_entry d ;; Ok (dict_set acc k v')).
Proof.
  intros H. rewrite H. destruct d as [x2 x1 x0 xt xf].
  unfold normalize_entry, gene_sum, trait_sum.
  cbn [bind get_gene set_gene get_trait set_trait
       gene0 gene1 gene2 trait_true trait_false].
  destruct (fdiv (Fnum 1) (fadd (fadd (fadd (Fnum 0) x0) x1) x2));
    cbn [bind get_gene set_gene get_trait set_trait
         gene0 gene1 gene2 trait_true trait_false]; [|reflexivity].
  destruct (fdiv (Fnum 1) (fadd (fadd (Fnum 0) xt) xf)); reflexivity.
Qed.

(** Effect of [normalize] on every entry. *)
Lemma normalize_entries_float (probabilities : accumulator) :
  NoDup (keys probabilities) ->
  (forall k d, In (k, d) probabilities -> moderate d) ->
  exists probabilities',
    normalize probabilities = Ok probabilities' /\
    keys probabilities' = keys probabilities /\
    forall k d, In (k, d) probabilities ->
      exists d', dict_get probabilities' k = Some d' /\
                 normalize_entry d = Ok d'.
Proof.
  intros Hnd Hmod.
  destruct (for_each_keys (fun _ d => normalize_entry d) _
              normalize_body_float probabilities [])
    as (probs' & Hloop & HF).
  - exact Hnd.
  - intros k d Hin.
    destruct (normalize_entry_rounded d (Hmod k d Hin)) as (d' & Hd' & _). eauto.
  - exists probs'. simpl in Hloop. split; [exact Hloop|].
    pose proof (Forall2_keys (fun _ d d' => normalize_entry d = Ok d') HF)
      as Hk.
    split; [exact Hk|].
    intros k d Hin.
    destruct (Forall2_entry (fun _ d d' => normalize_entry d = Ok d') _ _
                HF Hin) as (d' & Hin' & Hd').
    exists d'. split; [|exact Hd'].
    apply dict_get_in; [rewrite Hk; assumption | assumption].
Qed.

Lemma uneven_moderate :
  forall k d, In (k, d) uneven_accumulator -> moderate d.
Proof.
  intros k d [E|[]]. inversion E; subst.
  unfold moderate, moderate_value, moderate_number.
  cbn [gene0 gene1 gene2 trait_true trait_false].
  repeat match goal with |- _ /\ _ => split end;
    try (eexists; split; [reflexivity|]; right; split; vm_compute; discriminate);
    reflexivity.
Qed.

Lemma uneven_NoDup : NoDup (keys uneven_accumulator).
Proof. simpl. constructor; [simpl; tauto | constructor]. Qed.

(** C9 (amended): for an accumulator whose values are finite, non-negative
    and of moderate magnitude (zero, or between [2 ^ -500] and [2 ^ 500]),
    with a positive sum in every distribution, [normalize] in binary64
    arithmetic returns an accumulator with the same people in which every
    value is finite, the values of each distribution sum to 1 up to a
    relative error of [2 ^ -50] (as exact numbers; within [2 ^ -49] when
    they are added in floating point), and every value is the original
    value divided by the original sum up to a relative error of
    [2 ^ -50]. *)
Theorem normalize_sums_to_one_rounded (probabilities : accumulator) :
  NoDup (keys probabilities) ->
  (forall k d, In (k, d) probabilities -> moderate d) ->
  exists probabilities',
    normalize probabilities = Ok probabilities' /\
    keys probabilities' = keys probabilities /\
    forall k d, In (k, d) probabilities ->
      exists d', dict_get probabilities' k = Some d' /\ normalized d d'.
Proof.
  intros Hnd Hmod.
  destruct (normalize_entries_float probabilities Hnd Hmod)
    as (probs' & Hn & Hk & He).
  exists probs'. split; [exact Hn|]. split; [exact Hk|].
  intros k d Hin. destruct (He k d Hin) as (d' & Hget & Hd').
  exists d'. split; [exact Hget|].
  destruct (normalize_entry_rounded d (Hmod k d Hin)) as (d'' & Hd'' & Hprops).
  assert (d'' = d') as <- by congruence. exact Hprops.
Qed.

Lemma normalize_sums_to_one_rounded_witness :
  NoDup (keys uneven_accumulator) /\
  (forall k d, In (k, d) uneven_accumulator -> moderate d) /\
  exists probabilities',
    normalize uneven_accumulator = Ok probabilities' /\
    keys probabilities' = keys uneven_accumulator /\
    forall k d, In (k, d) uneven_accumulator ->
      exists d', dict_get probabilities' k = Some d' /\ normalized d d'.
Proof.
  split; [exact uneven_NoDup|]. split; [exact uneven_moderate|].
  exact (normalize_sums_to_one_rounded uneven_accumulator
           uneven_NoDup uneven_moderate).
Defined.

(** The gene values 1, 1 and 5 have the sum 7, which is not zero, and so
    have the trait values 1 and 1.  In binary64 [normalize] returns the
    gene values [fl (fl (1 / 7) * 5)], [fl (1 / 7)] and [fl (1 / 7)]: as
    exact numbers they sum to [1 - 2 ^ -53], and added in floating point,
    in the order of the keys 0, 1, 2, they give [1 - 2 ^ -52], which Python
    prints as 0.9999999999999998.  Neither sum is 1. *)
Lemma normalize_sum_not_one :
  NoDup (keys uneven_accumulator) /\
  (exists d, dict_get uneven_accumulator "Harry" = Some d /\
             value (gene_sum d) == 7 /\ value (trait_sum d) == 2) /\
  exists d',
    normalize uneven_accumulator = Ok [("Harry"%string, d')] /\
    gene_total d' == 1 - 2 ^ (-53) /\
    finite (gene_sum d') /\
    value (gene_sum d') == 1 - 2 ^ (-52) /\
    ~ gene_total d' == 1 /\
    ~ value (gene_sum d') == 1.
Proof.
  split; [exact uneven_NoDup|]. split.
  - eexists. split; [reflexivity|]. split; vm_compute; reflexivity.
  - eexists. split; [vm_compute; reflexivity|].
    split; [vm_compute; reflexivity|].
    split; [eexists; vm_compute; reflexivity|].
    split; [vm_compute; reflexivity|].
    split; vm_compute; discriminate.
Qed.

End NormalizeFloatFacts.
